(** * webborer: the filter, the probe worker, the baseline results and the
      URL utilities, embedded in Rocq

    Go values are embedded as follows.  A Go [string] is a sequence of bytes:
    Rocq's [string].  [int] and [int64] are [Z] (no arithmetic here can
    overflow: only comparisons and indices).  [map[string]T] is stdpp's
    [gmap string T].  A slice is a [list].  A pointer to a struct that is
    copied before it is changed is the struct's value.  A [nil] pointer or a
    [nil] error is [None].  A run-time panic and the effects of a function
    (log lines, channel sends, calls of the queue's functions) are explicit
    in the result of the function that has them. *)

From stdpp Require Import base gmap sets list strings.
From Stdlib Require Import ZArith Ascii Lia DecimalString.
From Stdlib Require String.

Local Open Scope Z_scope.

(** ** Go's [strings] package, on byte strings *)

Module Strings.

Definition byte_eq (a b : ascii) : bool := Ascii.eqb a b.
Global Arguments byte_eq : simpl never.

(** [c - 'A' < 26], as the ASCII path of [strings.ToLower] tests it. *)
Definition is_upper (c : ascii) : bool :=
  let n := N_of_ascii c in ((65 <=? n) && (n <=? 90))%N.

Definition is_lower (c : ascii) : bool :=
  let n := N_of_ascii c in ((97 <=? n) && (n <=? 122))%N.

Definition byte_ToLower (c : ascii) : ascii :=
  if is_upper c then ascii_of_N (N_of_ascii c + 32) else c.

Definition byte_ToUpper (c : ascii) : ascii :=
  if is_lower c then ascii_of_N (N_of_ascii c - 32) else c.

(** [strings.ToLower] on a string of ASCII bytes: the letters [A]-[Z] are
    mapped to [a]-[z], every other byte is kept.  This is the first path of
    Go's function, which it takes when no byte of the string is
    [>= utf8.RuneSelf]; [ToLowerUTF8] is the whole function.  On a string
    that is not ASCII Go maps runes: the only runes outside ASCII that it
    maps to an ASCII letter are U+0130, to [i], and U+212A, to [k], and
    every other one, as every byte that is no valid UTF-8, gives bytes
    outside ASCII.  So the two functions agree on whether the result is
    [text/html], which has no [i] and no [k]; they do not on whether it is
    [script] or [img], or a header name. *)
Fixpoint ToLower (s : string) : string :=
  match s with
  | EmptyString => EmptyString
  | String c s' => String (byte_ToLower c) (ToLower s')
  end.

(** [c < utf8.RuneSelf] for every byte [c] of the string. *)
Fixpoint isASCII (s : string) : bool :=
  match s with
  | EmptyString => true
  | String c s' => (N_of_ascii c <? 128)%N && isASCII s'
  end.

Section with_unicode.
(** [strings.Map(unicode.ToLower, s)], which Go calls for a string that is
    not ASCII: the Unicode tables are outside the sources embedded here. *)
Variable mapLower : string → string.

(** [strings.ToLower(s)] *)
Definition ToLowerUTF8 (s : string) : string :=
  if isASCII s then ToLower s else mapLower s.

End with_unicode.

(** [strings.HasPrefix(s, prefix)] *)
Fixpoint HasPrefix (s prefix : string) : bool :=
  match prefix, s with
  | EmptyString, _ => true
  | String _ _, EmptyString => false
  | String p prefix', String c s' => byte_eq c p && HasPrefix s' prefix'
  end.

(** [strings.IndexByte(cutset, c) >= 0] *)
Fixpoint ContainsByte (s : string) (c : ascii) : bool :=
  match s with
  | EmptyString => false
  | String d s' => byte_eq d c || ContainsByte s' c
  end.

(** [strings.TrimRight(s, cutset)]: [s] without its longest suffix made of
    bytes of [cutset]. *)
Fixpoint TrimRight (s cutset : string) : string :=
  match s with
  | EmptyString => EmptyString
  | String c s' =>
      match TrimRight s' cutset with
      | EmptyString =>
          if ContainsByte cutset c then EmptyString else String c EmptyString
      | r => String c r
      end
  end.

(** [strings.Split(s, sep)] for a separator of one byte, the only way the
    program calls it.  The result is never empty: [Split "" sep = [""]]. *)
Fixpoint Split (s : string) (sep : ascii) : list string :=
  match s with
  | EmptyString => [EmptyString]
  | String c s' =>
      if byte_eq c sep then EmptyString :: Split s' sep
      else match Split s' sep with
           | x :: xs => String c x :: xs
           | [] => [String c EmptyString]
           end
  end.

(** [strings.Join(elems, sep)] *)
Fixpoint Join (elems : list string) (sep : string) : string :=
  match elems with
  | [] => EmptyString
  | [x] => x
  | x :: xs => x +:+ sep +:+ Join xs sep
  end.

(** [s[:n]] and [s[n:]] for [0 <= n <= len(s)] *)
Definition slice_to (s : string) (n : nat) : string := String.substring 0 n s.

Fixpoint slice_from (s : string) (n : nat) : string :=
  match n, s with
  | O, _ => s
  | S n', String _ s' => slice_from s' n'
  | S _, EmptyString => EmptyString
  end.

Fixpoint last_index_from (i : Z) (s sep : string) (found : Z) : Z :=
  let found' := if HasPrefix s sep then i else found in
  match s with
  | EmptyString => found'
  | String _ s' => last_index_from (i + 1) s' sep found'
  end.

(** [strings.LastIndex(s, sep)]: the index of the last instance of [sep]
    in [s], or [-1]. *)
Definition LastIndex (s sep : string) : Z := last_index_from 0 s sep (-1).

(** [fmt.Sprintf(format, args...)] for a format whose only verb is [%s] and
    arguments that are strings. *)
Fixpoint Sprintf (format : string) (args : list string) : string :=
  match format with
  | String "%"%char (String "s"%char format') =>
      match args with
      | a :: args' => a +:+ Sprintf format' args'
      | [] => "%!s(MISSING)" +:+ Sprintf format' []
      end
  | String c format' => String c (Sprintf format' args)
  | EmptyString => EmptyString
  end.

Fixpoint last_index_byte_from (i : Z) (s : string) (c : ascii) (found : Z) : Z :=
  match s with
  | EmptyString => found
  | String d s' =>
      last_index_byte_from (i + 1) s' c (if byte_eq d c then i else found)
  end.

(** [strings.LastIndexByte(s, c)]: the index of the last instance of [c] in
    [s], or [-1]. *)
Definition LastIndexByte (s : string) (c : ascii) : Z :=
  last_index_byte_from 0 s c (-1).

(** [strconv.Itoa(i)], which is also what the verb [%d] prints. *)
Definition Itoa (i : Z) : string := NilZero.string_of_int (Z.to_int i).

End Strings.

(** ** Go's [path.Clean] *)

Module Path.

Definition slashb (c : ascii) : bool := Strings.byte_eq c "/"%char.
Definition dotb (c : ascii) : bool := Strings.byte_eq c "."%char.
Global Arguments slashb : simpl never.
Global Arguments dotb : simpl never.

(** [path[r] == '.' && (r+1 == n || path[r+1] == '/')], on the bytes from
    [r] on. *)
Definition at_dot (rest : string) : option string :=
  match rest with
  | String c rest' =>
      if dotb c then
        match rest' with
        | EmptyString => Some rest'
        | String d _ => if slashb d then Some rest' else None
        end
      else None
  | EmptyString => None
  end.

(** [path[r] == '.' && path[r+1] == '.' && (r+2 == n || path[r+2] == '/')] *)
Definition at_dotdot (rest : string) : option string :=
  match rest with
  | String c (String d rest') =>
      if dotb c && dotb d then
        match rest' with
        | EmptyString => Some rest'
        | String e _ => if slashb e then Some rest' else None
        end
      else None
  | _ => None
  end.

(** The copy loop of a real path element:
    [for ; r < n && path[r] != '/'; r++ { out.append(path[r]) }]. *)
Fixpoint copy_element (rest out : string) : string * string :=
  match rest with
  | EmptyString => (rest, out)
  | String c rest' =>
      if slashb c then (rest, out)
      else copy_element rest' (out +:+ String c EmptyString)
  end.

(** [out.index(i)] *)
Definition index (out : string) (i : nat) : ascii :=
  default "000"%char (String.get i out).

(** [for out.w > dotdot && out.index(out.w) != '/' { out.w-- }], the
    buffer being the bytes written before the element was removed. *)
Fixpoint backtrack (buf : string) (dotdot : nat) (w : nat) : nat :=
  match w with
  | O => O
  | S w' =>
      if (dotdot <? w)%nat && negb (slashb (index buf w))
      then backtrack buf dotdot w'
      else w
  end.

(** The main loop of [Clean]: [rest] is [path[r:]], [out] is the written
    part [buf[:w]] of the output buffer.  Every turn reads at least one
    byte, so [length path] turns are enough. *)
Fixpoint clean_loop (fuel : nat) (rooted : bool) (rest out : string)
    (dotdot : nat) : string :=
  match fuel with
  | O => out
  | S fuel' =>
      match rest with
      | EmptyString => out
      | String c rest' =>
          if slashb c then
            (* empty path element *)
            clean_loop fuel' rooted rest' out dotdot
          else match at_dot rest with
          | Some rest1 =>
            (* . element *)
            clean_loop fuel' rooted rest1 out dotdot
          | None =>
            match at_dotdot rest with
            | Some rest2 =>
              (* .. element: remove to last / *)
              let w := String.length out in
              if (dotdot <? w)%nat then
                let w' := backtrack out dotdot (w - 1) in
                clean_loop fuel' rooted rest2 (Strings.slice_to out w') dotdot
              else if negb rooted then
                let out1 := if (0 <? w)%nat then out +:+ "/" else out in
                let out2 := out1 +:+ ".." in
                clean_loop fuel' rooted rest2 out2 (String.length out2)
              else
                clean_loop fuel' rooted rest2 out dotdot
            | None =>
              (* real path element: add slash if needed, copy element *)
              let w := String.length out in
              let out1 :=
                if (rooted && negb (w =? 1)%nat) || (negb rooted && negb (w =? 0)%nat)
                then out +:+ "/" else out in
              let '(rest3, out2) := copy_element rest out1 in
              clean_loop fuel' rooted rest3 out2 dotdot
            end
          end
      end
  end.

(** [path.Clean(path)] *)
Definition Clean (path : string) : string :=
  match path with
  | EmptyString => "."
  | String c _ =>
      let rooted := slashb c in
      let out :=
        if rooted
        then clean_loop (String.length path) true (Strings.slice_from path 1) "/" 1
        else clean_loop (String.length path) false path "" 0 in
      match out with
      | EmptyString => "."
      | _ => out
      end
  end.

End Path.

(** ** [net/url] and [net/http]: the types the program uses *)

Module Url.

Record Userinfo := {
  username : string;
  password : string;
  passwordSet : bool
}.

(** [url.URL] *)
Record URL := {
  Scheme : string;
  Opaque : string;
  User : option Userinfo;
  Host : string;
  Path : string;
  RawPath : string;
  ForceQuery : bool;
  RawQuery : string;
  Fragment : string
}.

(** [u.Path = p] on a copy of [u] *)
Definition set_Path (u : URL) (p : string) : URL :=
  {| Scheme := Scheme u; Opaque := Opaque u; User := User u; Host := Host u;
     Path := p; RawPath := RawPath u; ForceQuery := ForceQuery u;
     RawQuery := RawQuery u; Fragment := Fragment u |}.

(** [u.Fragment = f] *)
Definition set_Fragment (u : URL) (f : string) : URL :=
  {| Scheme := Scheme u; Opaque := Opaque u; User := User u; Host := Host u;
     Path := Path u; RawPath := RawPath u; ForceQuery := ForceQuery u;
     RawQuery := RawQuery u; Fragment := f |}.

End Url.

Module Http.

(** [http.Header], a [map[string][]string] *)
Abbreviation Header := (gmap string (list string)).

(** The bytes allowed in a header field name (the tokens of RFC 7230). *)
Definition validHeaderFieldByte (c : ascii) : bool :=
  let n := N_of_ascii c in
  (((48 <=? n) && (n <=? 57)) || Strings.is_upper c || Strings.is_lower c
   || Strings.ContainsByte "!#$%&'*+-.^_`|~" c)%N.

Fixpoint all_bytes (p : ascii → bool) (s : string) : bool :=
  match s with
  | EmptyString => true
  | String c s' => p c && all_bytes p s'
  end.

(** The second loop of [canonicalMIMEHeaderKey]: upper case for the first
    letter and for a letter after a dash, lower case for the others. *)
Fixpoint canonicalize (upper : bool) (s : string) : string :=
  match s with
  | EmptyString => EmptyString
  | String c s' =>
      let c' :=
        if upper && Strings.is_lower c then Strings.byte_ToUpper c
        else if negb upper && Strings.is_upper c then Strings.byte_ToLower c
        else c in
      String c' (canonicalize (Strings.byte_eq c' "-"%char) s')
  end.

(** [textproto.CanonicalMIMEHeaderKey]: a key with a byte that is not
    allowed in a field name is returned as it is. *)
Definition CanonicalMIMEHeaderKey (s : string) : string :=
  if all_bytes validHeaderFieldByte s then canonicalize true s else s.

(** [h.Get(key)]: the first value of the canonical form of [key], or [""]. *)
Definition Header_Get (h : Header) (key : string) : string :=
  match h !! CanonicalMIMEHeaderKey key with
  | Some (v :: _) => v
  | _ => EmptyString
  end.

Global Arguments Header_Get : simpl never.
Global Arguments CanonicalMIMEHeaderKey : simpl never.

(** [http.Response], the fields the program reads *)
Record Response := {
  StatusCode : Z;
  ContentLength : Z;
  RespHeader : Header;
  Body : string
}.

(** [http.Request], the field the worker reads of a redirect *)
Record Request := { ReqURL : Url.URL }.

End Http.

(** ** Package [task] *)

Module Task.

(** Modelled from the spec: the [task] package is outside the sources
    embedded here.  A Task is a pending probe with a URL, the effective Host
    header and a mapping from header names to lists of values. *)
Record Task := {
  URL : Url.URL;
  Host : string;
  Header : Http.Header
}.

Definition set_URL (t : Task) (u : Url.URL) : Task :=
  {| URL := u; Host := Host t; Header := Header t |}.

(** Modelled from the spec: [t.Copy()] is deep enough that a change of the
    URL or of its path does not reach [t]; on values it is the identity. *)
Definition Copy (t : Task) : Task := t.

End Task.

(** ** Package [logging]: a log line is its level, format and arguments *)

Module Logging.

Inductive Level := LogDebug | LogInfo | LogWarning | LogError.

Inductive Arg :=
| ArgString (s : string)
| ArgURL (u : Url.URL)
| ArgTask (t : Task.Task).

Record Entry := Logf { level : Level; format : string; args : list Arg }.

End Logging.

(** ** Package [util] *)

Module Util.
Import Url Logging.

Definition slash : ascii := "/"%char.

Definition URLIsDir (u : URL) : bool :=
  let l := String.length (Path u) in
  if (l =? 0)%nat then true
  else Strings.byte_eq (Path.index (Path u) (l - 1)) slash.

(** [URLIsSubpath] with the lines it logs.  The index [cPath[len(pPath)]]
    of the last line is in range: there [pPath] is a prefix of [cPath] and
    differs from it. *)
Definition URLIsSubpath_logged (parent child : URL) : list Entry * bool :=
  let log :=
    [Logf LogDebug "Subpath check: Parent: %s, child %s."
       [ArgURL parent; ArgURL child]] in
  if negb (String.eqb (Scheme parent) "")
     && negb (String.eqb (Scheme child) (Scheme parent)) then (log, false)
  else if negb (String.eqb (Host parent) "")
     && negb (String.eqb (Host child) (Host parent)) then (log, false)
  else if String.eqb (Path parent) "/" then
    (* Everything is in this path *)
    (log, true)
  else
    let pPath := Path.Clean (Path parent) in
    let cPath := Path.Clean (Path child) in
    if (String.length cPath <? String.length pPath)%nat then (log, false)
    else if String.eqb cPath pPath then (log, true)
    else if negb (Strings.HasPrefix cPath pPath) then
      (log ++ [Logf LogDebug "Reject for differing paths: %s, %s"
                 [ArgString cPath; ArgString pPath]], false)
    else (log, Strings.byte_eq (Path.index cPath (String.length pPath)) slash).

Definition URLIsSubpath (parent child : URL) : bool :=
  (URLIsSubpath_logged parent child).2.

(** [for i := 2; i < len(splitPath); i++ { results = append(results, ...) }];
    [turns] bounds the number of turns. *)
Fixpoint parentPathsLoop (turns : nat) (splitPath : list string) (i : nat)
    (results : list string) : list string :=
  match turns with
  | O => results
  | S turns' =>
      if (i <? length splitPath)%nat
      then parentPathsLoop turns' splitPath (i + 1)
             (results ++ [Strings.Join (take i splitPath) "/"])
      else results
  end.

Definition getParentPathsString (childPath : string) : list string :=
  let splitPath := Strings.Split (Strings.TrimRight childPath "/") slash in
  parentPathsLoop (length splitPath) splitPath 2 [].

(** Get the parent paths of a given path: each is a copy of [child] with
    its [Path] set. *)
Definition GetParentPaths (child : URL) : list URL :=
  let childPath := Strings.TrimRight (Path child) "/" in
  foldl (λ results path, results ++ [set_Path child path]) []
    (getParentPathsString childPath).

Fixpoint StringSliceContains (haystack : list string) (needle : string) : bool :=
  match haystack with
  | [] => false
  | v :: haystack' =>
      if String.eqb v needle then true else StringSliceContains haystack' needle
  end.

Definition dot : ascii := "."%char.

Definition URLHasExtension (u : URL) : bool :=
  Strings.LastIndexByte (Path u) slash <? Strings.LastIndexByte (Path u) dot.

(** Find the group (200, 300, 400, 500, ...) this status code belongs to.
    The division of Go truncates toward zero: [Z.quot]. *)
Definition StatusCodeGroup (code : Z) : Z := (code ÷ 100) * 100.

(** [for _, v := range s { if _, ok := table[v]; !ok { out = append(out, v);
    table[v] = true } }] *)
Fixpoint dedupeLoop (s : list string) (table : gmap string bool)
    (out : list string) : list string :=
  match s with
  | [] => out
  | v :: s' =>
      match table !! v with
      | Some _ => dedupeLoop s' table out
      | None => dedupeLoop s' (<[v := true]> table) (out ++ [v])
      end
  end.

(** Deduplicate a slice of strings *)
Definition DedupeStrings (s : list string) : list string := dedupeLoop s ∅ [].

End Util.

(** ** Package [settings] *)

Module Settings.

Inductive RunModeT := RunModeEnumeration | RunModeLinkCheck | RunModeDotProduct.

Definition RunMode_eqb (a b : RunModeT) : bool :=
  match a, b with
  | RunModeEnumeration, RunModeEnumeration
  | RunModeLinkCheck, RunModeLinkCheck
  | RunModeDotProduct, RunModeDotProduct => true
  | _, _ => false
  end.

(** Modelled from the spec: [ScanSettings] is outside the sources embedded
    here; these are the settings the filter and the worker read. *)
Record ScanSettings := {
  Workers : Z;
  QueueSize : Z;
  Method : string;
  SleepTime : Z;
  SpiderCodes : list Z;
  RunMode : RunModeT;
  Mangle : bool;
  ParseHTML : bool;
  ExcludePaths : list string;
  UserAgent : string
}.

(** [StringSliceFlag] is a flag.Value that takes a comma-separated or
    repeated string and turns it into a slice of strings.  The receiver of
    [String] may be nil. *)
Definition StringSliceFlag := list string.

Definition StringSliceFlag_String (f : option StringSliceFlag) : string :=
  match f with
  | None => ""
  | Some f => Strings.Join f ","
  end.

(** [Set(value)]: the flag after the call and the error returned. *)
Definition StringSliceFlag_Set (f : StringSliceFlag) (value : string)
    : StringSliceFlag * option string :=
  (f ++ Strings.Split value ","%char, None).

End Settings.

(** ** Package [results] *)

Module Results.
Import Url.

Inductive LinkClass := LinkUnknown | LinkInternal | LinkExternal.

(** Modelled from the spec: the declaration of [Result] is outside the
    sources embedded here.  A Result carries the URL and Host of its Task, the
    status code (0 when there was no response), the content length, the
    content type, the response header, the captured redirect, the error,
    its group and its links. *)
Record Result := {
  URL : Url.URL;
  Host : string;
  Code : Z;
  Length : Z;
  ContentType : string;
  ResponseHeader : Http.Header;
  Redir : option Url.URL;
  Error : option string;
  ResultGroup : string;
  Links : list (Url.URL * LinkClass)
}.

(** Modelled from the spec: [NewResultForTask] is outside the sources
    embedded here; it makes the Result of a Task for which nothing is known
    yet: code 0, no header, no redirect, no error, no link. *)
Definition NewResultForTask (t : Task.Task) : Result :=
  {| URL := Task.URL t; Host := Task.Host t; Code := 0; Length := 0;
     ContentType := ""; ResponseHeader := ∅; Redir := None; Error := None;
     ResultGroup := ""; Links := [] |}.

Global Arguments NewResultForTask : simpl never.

Definition neverImportant : list string := ["etag"; "cache-control"].

Record BaselineResult := {
  Base : Result;
  (* Which properties are significant *)
  PathSignificant : bool;
  HeadersSignificant : list string;
  CodeSignificant : bool
}.

(** What a call returns: a value, an error, or a run-time panic. *)
Inductive Returned (A : Type) :=
| Ok (a : A)
| Err (e : string)
| Panic (msg : string).
Global Arguments Ok {A} a.
Global Arguments Err {A} e.
Global Arguments Panic {A} msg.

(** [h[k][0]]: the index is out of range when [k] is not a key of the map
    (the value is then the nil slice) or when its slice is empty. *)
Definition first_value (h : Http.Header) (k : string) : option string :=
  match h !! k with
  | Some (v :: _) => Some v
  | _ => None
  end.

(** [for i := 0; i < len(results)-1; i++ { a, b := results[i], results[i+1]; ... }] *)
Fixpoint adjacentLoop (results : list Result) (code path : bool) : bool * bool :=
  match results with
  | a :: (b :: _) as results' =>
      let code' := if negb (Code a =? Code b) then false else code in
      let path' :=
        if negb (String.eqb (Path (URL a)) (Path (URL b))) then false else path in
      adjacentLoop results' code' path'
  | _ => (code, path)
  end.

(** [for _, r := range results[1:] { if r.ResponseHeader[k][0] != baseline
    { matches = false; break } }] *)
Fixpoint headerMatches (rest : list Result) (k baseline : string)
    : Returned bool :=
  match rest with
  | [] => Ok true
  | r :: rest' =>
      match first_value (ResponseHeader r) k with
      | None => Panic "index out of range"
      | Some v =>
          if negb (String.eqb v baseline) then Ok false
          else headerMatches rest' k baseline
      end
  end.

Section with_unicode.
(** [strings.Map(unicode.ToLower, s)], for [strings.ToLower]. *)
Variable mapLower : string → string.

(** [for k, _ := range res.ResponseHeader { ... }], the keys in the order
    the range statement yields them. *)
Fixpoint headerLoop (keys : list string) (results : list Result)
    (significant : list string) : Returned (list string) :=
  match keys with
  | [] => Ok significant
  | k :: keys' =>
      let k := Strings.ToLowerUTF8 mapLower k in
      if Util.StringSliceContains neverImportant k
      then headerLoop keys' results significant
      else
        match results with
        | [] => Panic "index out of range"
        | r0 :: rest =>
            match first_value (ResponseHeader r0) k with
            | None => Panic "index out of range"
            | Some baseline =>
                match headerMatches rest k baseline with
                | Ok true => headerLoop keys' results (significant ++ [k])
                | Ok false => headerLoop keys' results significant
                | Err e => Err e
                | Panic m => Panic m
                end
            end
        end
  end.

(** [NewBaselineResult(results...)].  Go does not fix the order in which a
    map is ranged over; the keys are taken in the order of [map_to_list]. *)
Definition NewBaselineResult (results : list Result) : Returned BaselineResult :=
  match results with
  | [] => Err "Need at least one result."
  | r0 :: _ =>
      let '(code, path) := adjacentLoop results true true in
      match headerLoop (map_to_list (ResponseHeader r0)).*1 results [] with
      | Ok significant =>
          Ok {| Base := r0; PathSignificant := path;
                HeadersSignificant := significant; CodeSignificant := code |}
      | Err e => Err e
      | Panic m => Panic m
      end
  end.

Definition Matches (b : BaselineResult) (a : Result) : bool :=
  if PathSignificant b
     && negb (String.eqb (Path (URL (Base b))) (Path (URL a))) then false
  else if CodeSignificant b && negb (Code (Base b) =? Code a) then false
  else true.

(** The manager keeps the baselines and the results to write, by group.
    Its channel [done] and its writer [fp] are used by [Wait] and
    [WriteResults] only. *)
Record DiffResultsManager := {
  baselines : gmap string BaselineResult;
  keep : gmap string (list Result)
}.

Definition NewDiffResultsManager : DiffResultsManager :=
  {| baselines := ∅; keep := ∅ |}.

Definition set_keep (drm : DiffResultsManager) (k : gmap string (list Result))
    : DiffResultsManager :=
  {| baselines := baselines drm; keep := k |}.

(** [drm.AddGroup(baselineResults...)]: the manager after the call and the
    error returned. *)
Definition AddGroup (drm : DiffResultsManager) (baselineResults : list Result)
    : DiffResultsManager * Returned unit :=
  match NewBaselineResult baselineResults with
  | Err e => (drm, Err e)
  | Panic m => (drm, Panic m)
  | Ok baseline =>
      ({| baselines := <[ResultGroup (Base baseline) := baseline]> (baselines drm);
          keep := keep drm |}, Ok tt)
  end.

End with_unicode.

(** [drm.Append(result)]: a group that is not in [keep] reads as the nil
    slice. *)
Definition Append (drm : DiffResultsManager) (result : Result)
    : DiffResultsManager * list Logging.Entry :=
  let '(drm1, lines) :=
    match keep drm !! ResultGroup result with
    | None =>
        (set_keep drm (<[ResultGroup result := []]> (keep drm)),
         [Logging.Logf Logging.LogDebug "Creating new result group: %s"
            [Logging.ArgString (ResultGroup result)]])
    | Some _ => (drm, [])
    end in
  (set_keep drm1
     (<[ResultGroup result :=
          default [] (keep drm1 !! ResultGroup result) ++ [result]]> (keep drm1)),
   lines).

Section with_String.
(** [result.String()] is outside the sources embedded here. *)
Variable Result_String : Result → string.

(** [for result := range rChan { ... }], the loop of [Run], for the results
    read from the channel until it is closed.  What [Run] defers to the end
    of the loop, [WriteResults] and the close of [done], is not part of it. *)
Fixpoint resultLoop (drm : DiffResultsManager) (rChan : list Result)
    : DiffResultsManager * list Logging.Entry :=
  match rChan with
  | [] => (drm, [])
  | result :: rChan' =>
      let '(drm1, lines) :=
        match baselines drm !! ResultGroup result with
        | None =>
            (* No baseline! *)
            let '(drm1, lines) := Append drm result in
            (drm1, Logging.Logf Logging.LogDebug "No baseline for group %s"
                     [Logging.ArgString (ResultGroup result)] :: lines)
        | Some baseline =>
            if negb (Matches baseline result) then Append drm result
            else (drm, [Logging.Logf Logging.LogDebug "Not logging result: %s"
                          [Logging.ArgString (Result_String result)]])
        end in
      let '(drm2, lines') := resultLoop drm1 rChan' in
      (drm2, lines ++ lines')
  end.

End with_String.

(** The results of a group that the manager keeps. *)
Definition kept (drm : DiffResultsManager) (g : string) : list Result :=
  default [] (keep drm !! g).

(** The manager has no baseline for the group of the result, or one that
    the result does not match. *)
Definition differs (drm : DiffResultsManager) (r : Result) : bool :=
  match baselines drm !! ResultGroup r with
  | None => true
  | Some baseline => negb (Matches baseline r)
  end.

End Results.

(** ** Package [filter] *)

Module WorkFilter.
Import Logging.

(** What the filter does to the world: a log line, a call of its counter
    (a [QueueDoneFunc]), a send on the channel it returns, and the close
    of that channel. *)
Inductive Event :=
| Log (e : Logging.Entry)
| Counter (n : Z)
| Send (t : Task.Task)
| Close.

Record WorkFilter := {
  done : gmap string bool;
  settings : Settings.ScanSettings;
  (* Excluded paths *)
  exclusions : list Url.URL
}.

Definition set_done (f : WorkFilter) (d : gmap string bool) : WorkFilter :=
  {| done := d; settings := settings f; exclusions := exclusions f |}.

(** Add another URL to filter *)
Definition FilterURL (f : WorkFilter) (u : Url.URL) : WorkFilter :=
  {| done := done f; settings := settings f;
     exclusions := exclusions f ++ [u] |}.

(** [t.URL.Fragment = ""] *)
Definition cleared (t : Task.Task) : Task.Task :=
  Task.set_URL t (Url.set_Fragment (Task.URL t) "").

Section with_String.
(** [t.String()]: the [task] package is outside the sources embedded
    here, and the filter uses the string only as a key. *)
Variable Task_String : Task.Task → string.

(** Task that can't be used, but should be counted as terminated. *)
Definition reject (u : Task.Task) (reason : string) : list Event :=
  [Log (Logf LogDebug "Filter rejected %s: %s." [ArgTask u; ArgString reason]);
   Counter 1].

(** [for _, exclusion := range f.exclusions { if util.URLIsSubpath(exclusion,
    t.URL) { f.reject(t, "excluded"); continue taskLoop } }]: the events
    of the loop, and whether it rejected the task. *)
Fixpoint exclusionLoop (excl : list Url.URL) (t : Task.Task)
    : list Event * bool :=
  match excl with
  | [] => ([], false)
  | exclusion :: excl' =>
      let '(lines, sub) := Util.URLIsSubpath_logged exclusion (Task.URL t) in
      if sub then ((Log <$> lines) ++ reject t "excluded", true)
      else
        let '(evs, rejected) := exclusionLoop excl' t in
        ((Log <$> lines) ++ evs, rejected)
  end.

(** One turn of [taskLoop], for the task [t] read from [src]. *)
Definition taskTurn (f : WorkFilter) (t : Task.Task)
    : WorkFilter * list Event :=
  (* Fragment is irrelevant for requests to server *)
  let t := cleared t in
  let taskURL := Task_String t in
  match done f !! taskURL with
  | Some _ => (f, reject t "already done")
  | None =>
      let f := set_done f (<[taskURL := true]> (done f)) in
      let '(evs, rejected) := exclusionLoop (exclusions f) t in
      if rejected then (f, evs) else (f, evs ++ [Send t])
  end.

(** [for t := range src { ... }]: the events of each turn, in order. *)
Fixpoint taskLoop (f : WorkFilter) (src : list Task.Task)
    : WorkFilter * list (list Event) :=
  match src with
  | [] => (f, [])
  | t :: src' =>
      let '(f1, evs) := taskTurn f t in
      let '(f2, turns) := taskLoop f1 src' in
      (f2, evs :: turns)
  end.

(** [RunFilter(src)] for the tasks [src] that are read from the channel
    until it is closed. *)
Definition RunFilter (f : WorkFilter) (src : list Task.Task)
    : WorkFilter * list Event :=
  let '(f', turns) := taskLoop f src in
  (f', concat turns ++ [Close]).

(** The canonical key of a task: its string once the fragment is cleared. *)
Definition key (t : Task.Task) : string := Task_String (cleared t).

End with_String.

Section with_Parse.
(** [url.Parse(path)]: the URL, or the text of the error. *)
Variable url_Parse : string → Url.URL + string.

(** [for _, path := range settings.ExcludePaths { ... }] *)
Fixpoint parseLoop (wf : WorkFilter) (paths : list string)
    : WorkFilter * list Event :=
  match paths with
  | [] => (wf, [])
  | path :: paths' =>
      match url_Parse path with
      | inr err =>
          let '(wf', evs) := parseLoop wf paths' in
          (wf', Log (Logf LogError "Unable to parse exclusion path: %s (%s)"
                       [ArgString path; ArgString err]) :: evs)
      | inl u => parseLoop (FilterURL wf u) paths'
      end
  end.

(** [NewWorkFilter(settings, counter)]: the calls of the counter are events
    of the filter, so that the counter is no field of the record. *)
Definition NewWorkFilter (settings : Settings.ScanSettings)
    : WorkFilter * list Event :=
  parseLoop {| done := ∅; settings := settings; exclusions := [] |}
    (Settings.ExcludePaths settings).

End with_Parse.

Section with_Robots.
(** The [robots] package is outside the sources embedded here:
    [robots.GetRobotsForURL(scopeURL, clientFactory)] gives the data of a
    robots.txt or the text of an error, and [robotsData.GetForUserAgent(ua)]
    the paths that are disallowed. *)
Variable RobotsData : Type.
Variable GetRobotsForURL : Url.URL → RobotsData + string.
Variable GetForUserAgent : RobotsData → string → list string.

(** [for _, disallowed := range robotsData.GetForUserAgent(...) { ... }] *)
Fixpoint disallowLoop (f : WorkFilter) (scopeURL : Url.URL)
    (disallowed : list string) : WorkFilter * list Event :=
  match disallowed with
  | [] => (f, [])
  | d :: ds =>
      let disallowedURL := Url.set_Path scopeURL d in
      let '(f', evs) := disallowLoop (FilterURL f disallowedURL) scopeURL ds in
      (f', Log (Logf LogDebug "Disallowing URL by robots: %s"
                  [ArgURL disallowedURL]) :: evs)
  end.

(** Filter data from robots.txt *)
Fixpoint AddRobotsFilter (f : WorkFilter) (scope : list Url.URL)
    : WorkFilter * list Event :=
  match scope with
  | [] => (f, [])
  | scopeURL :: scope' =>
      let line := Log (Logf LogDebug "Getting robots.txt exclusions for %s"
                         [ArgURL scopeURL]) in
      match GetRobotsForURL scopeURL with
      | inr err =>
          let '(f', evs) := AddRobotsFilter f scope' in
          (f', line :: Log (Logf LogWarning "Unable to get robots.txt data: %s"
                              [ArgString err]) :: evs)
      | inl robotsData =>
          let '(f1, evs1) :=
            disallowLoop f scopeURL
              (GetForUserAgent robotsData (Settings.UserAgent (settings f))) in
          let '(f2, evs2) := AddRobotsFilter f1 scope' in
          (f2, line :: evs1 ++ evs2)
      end
  end.

(** The exclusions that the robots.txt of a scope URL gives for a user
    agent; none when the robots.txt could not be got. *)
Definition disallowedFor (ua : string) (scopeURL : Url.URL) : list Url.URL :=
  match GetRobotsForURL scopeURL with
  | inl robotsData => Url.set_Path scopeURL <$> GetForUserAgent robotsData ua
  | inr _ => []
  end.

End with_Robots.

(** The tasks sent on the output channel, and the arguments of the calls
    of the counter. *)
Definition sent (evs : list Event) : list Task.Task :=
  omap (λ e, match e with Send t => Some t | _ => None end) evs.

Definition counted (evs : list Event) : list Z :=
  omap (λ e, match e with Counter n => Some n | _ => None end) evs.

(** The log lines of the calls of [util.URLIsSubpath]. *)
Definition isSubpathCheck (e : Event) : bool :=
  match e with
  | Log l => String.eqb (format l) "Subpath check: Parent: %s, child %s."
  | _ => false
  end.

Definition subpathChecks (evs : list Event) : list Event :=
  List.filter isSubpathCheck evs.

End WorkFilter.

(** ** Package [worker] *)

(** ** The nodes of [golang.org/x/net/html] *)

Module Html.

Inductive NodeType :=
| ErrorNode | TextNode | DocumentNode | ElementNode | CommentNode | DoctypeNode.

Definition NodeType_eqb (a b : NodeType) : bool :=
  match a, b with
  | ErrorNode, ErrorNode | TextNode, TextNode | DocumentNode, DocumentNode
  | ElementNode, ElementNode | CommentNode, CommentNode
  | DoctypeNode, DoctypeNode => true
  | _, _ => false
  end.

Record Attribute := { Namespace : string; Key : string; Val : string }.

(** A node with its children, from [FirstChild] along [NextSibling]. *)
#[local] Set Warnings "-register-all".
Inductive Node :=
| mkNode (type : NodeType) (data : string) (attr : list Attribute)
    (children : list Node).

Definition Type_ (n : Node) : NodeType := let 'mkNode ty _ _ _ := n in ty.
Definition Data (n : Node) : string := let 'mkNode _ d _ _ := n in d.
Definition Attr (n : Node) : list Attribute := let 'mkNode _ _ a _ := n in a.
Definition Children (n : Node) : list Node := let 'mkNode _ _ _ c := n in c.

End Html.

Module Worker.
Import Logging.

(** What a worker does to the world, in order: a log line, a request
    through its client, a Result sent on [rchan], a call of [adder] and of
    [done], a sleep, and the close of a response body. *)
Inductive Event :=
| Log (e : Logging.Entry)
| Requested (u : Url.URL) (host method : string) (header : Http.Header)
| SendResult (r : Results.Result)
| QueueAdd (ts : list Task.Task)
| QueueDone (n : Z)
| Slept (d : Z)
| BodyClosed.

(** What a page worker does to the world: it logs and it adds work. *)
Inductive PageEvent :=
| PageLog (e : Logging.Entry)
| PageAdd (ts : list Task.Task).

Definition ofPage (e : PageEvent) : Event :=
  match e with
  | PageLog l => Log l
  | PageAdd ts => QueueAdd ts
  end.

(** The [PageWorker] interface.  [Handle] gets a pointer to the Result and
    may add work: it returns the Result as it leaves it and its events. *)
Record PageWorker := {
  Eligible : Http.Response → bool;
  Handle : Task.Task → string → Results.Result → Results.Result * list PageEvent
}.

(** What one call of [client.Request] yields: the response and the error
    it returns, and the request it handed to the redirect handler if it
    called the handler. *)
Record Reply := {
  resp : option Http.Response;
  err : option string;
  redirected : option Http.Request
}.

(** Modelled from the spec: the [client.Client] interface is outside
    the sources embedded here; [Request(url, host, method, header)] returns a
    response and an error, and the client may change with each call. *)
Class Client (C : Type) := {
  Request : C → Url.URL → string → string → Http.Header → C * Reply
}.

Section with_client.
Context {C : Type} `{Client C}.

Record Worker := {
  (* client for connections *)
  client : C;
  (* Settings *)
  settings : Settings.ScanSettings;
  (* HTML worker to parse page *)
  pageWorker : option PageWorker;
  (* Request for redirection *)
  redir : option Http.Request;
  (* what the worker has done so far *)
  events : list Event
}.

Definition emit (w : Worker) (evs : list Event) : Worker :=
  {| client := client w; settings := settings w; pageWorker := pageWorker w;
     redir := redir w; events := events w ++ evs |}.

Definition set_redir (w : Worker) (r : option Http.Request) : Worker :=
  {| client := client w; settings := settings w; pageWorker := pageWorker w;
     redir := r; events := events w |}.

Definition set_client (w : Worker) (c : C) : Worker :=
  {| client := c; settings := settings w; pageWorker := pageWorker w;
     redir := redir w; events := events w |}.

(** A method of the worker returns a value or panics, and leaves the
    worker in a new state. *)
Inductive Outcome (A : Type) :=
| Returns (a : A) (w : Worker)
| Panics (msg : string) (w : Worker).
Global Arguments Returns {A} a w.
Global Arguments Panics {A} msg w.

Definition M (A : Type) : Type := Worker → Outcome A.

Definition ret {A} (a : A) : M A := λ w, Returns a w.

Definition bind {A B} (m : M A) (k : A → M B) : M B :=
  λ w, match m w with
       | Returns a w' => k a w'
       | Panics msg w' => Panics msg w'
       end.

(** [defer d(); body]: [d] runs when the function returns or panics. *)
Definition defer {A} (d : Worker → Worker) (body : M A) : M A :=
  λ w, match body w with
       | Returns a w' => Returns a (d w')
       | Panics msg w' => Panics msg (d w')
       end.

Fixpoint forEach {A} (l : list A) (body : A → M unit) : M unit :=
  match l with
  | [] => ret ()
  | x :: l' => bind (body x) (λ _, forEach l' body)
  end.

Definition final {A} (o : Outcome A) : Worker :=
  match o with Returns _ w => w | Panics _ w => w end.

Definition Sleep (w : Worker) : Worker :=
  if negb (Settings.SleepTime (settings w) =? 0)
  then emit w [Slept (Settings.SleepTime (settings w))]
  else w.

(** Should we keep spidering from this code? *)
Definition KeepSpidering (w : Worker) (code : Z) : bool :=
  if Settings.RunMode_eqb (Settings.RunMode (settings w)) Settings.RunModeDotProduct
  then false
  else existsb (λ v, code =? v) (Settings.SpiderCodes (settings w)).

Definition ResultForResponse (w : Worker) (t : Task.Task)
    (resp : Http.Response) : Results.Result :=
  let rv := Results.NewResultForTask t in
  {| Results.URL := Results.URL rv;
     Results.Host := Results.Host rv;
     Results.Code := Http.StatusCode resp;
     Results.Length := Http.ContentLength resp; (* Not always available *)
     Results.ContentType := Http.Header_Get (Http.RespHeader resp) "Content-Type";
     Results.ResponseHeader := Http.RespHeader resp;
     Results.Redir :=
       match redir w with
       | Some r => Some (Http.ReqURL r)
       | None => Results.Redir rv
       end;
     Results.Error := Results.Error rv;
     Results.ResultGroup := Results.ResultGroup rv;
     Results.Links := Results.Links rv |}.

Definition set_Error (rv : Results.Result) (e : option string) : Results.Result :=
  {| Results.URL := Results.URL rv;
     Results.Host := Results.Host rv;
     Results.Code := Results.Code rv;
     Results.Length := Results.Length rv;
     Results.ContentType := Results.ContentType rv;
     Results.ResponseHeader := Results.ResponseHeader rv;
     Results.Redir := Results.Redir rv;
     Results.Error := e;
     Results.ResultGroup := Results.ResultGroup rv;
     Results.Links := Results.Links rv |}.

Definition ResultForError (w : Worker) (t : Task.Task)
    (resp : option Http.Response) (err : string) : Results.Result :=
  let rv :=
    match resp with
    | Some resp => ResultForResponse w t resp
    | None => Results.NewResultForTask t
    end in
  set_Error rv (Some err).

Global Arguments ResultForResponse : simpl never.
Global Arguments ResultForError : simpl never.

Definition spiderRedirect (w : Worker) (t : Task.Task) : Worker :=
  match redir w with
  | None => w
  | Some r =>
      let t := Task.set_URL (Task.Copy t) (Http.ReqURL r) in
      emit w [Log (Logf LogDebug "Referring redirect %s back."
                     [ArgURL (Http.ReqURL r)]);
              QueueAdd [t]]
  end.

Definition runPageWorkers (w : Worker) (t : Task.Task)
    (resp : Http.Response) (result : Results.Result)
    : Results.Result * Worker :=
  match pageWorker w with
  | Some pw =>
      if Eligible pw resp then
        let '(result', evs) := Handle pw t (Http.Body resp) result in
        (result',
         emit w (Log (Logf LogDebug "Running page workers for task %s" [ArgTask t])
                 :: (ofPage <$> evs)))
      else (result, w)
  | None => (result, w)
  end.

Definition TryTask (t : Task.Task) : M Z :=
  λ w,
    let w := emit w [Log (Logf LogInfo "Trying: %s" [ArgTask t])] in
    let w := set_redir w None in
    defer Sleep (λ w,
      let method := Settings.Method (settings w) in
      let '(c, reply) :=
        Request (client w) (Task.URL t) (Task.Host t) method (Task.Header t) in
      let w := emit (set_client w c)
                 [Requested (Task.URL t) (Task.Host t) method (Task.Header t)] in
      (* the redirect handler: w.redir = req *)
      let w := match redirected reply with
               | Some req => set_redir w (Some req)
               | None => w
               end in
      match err reply, redir w with
      | Some e, None =>
          let result := ResultForError w t (resp reply) e in
          let w := emit w [SendResult result] in
          match resp reply with
          | None => Returns 0 w
          | Some resp => Returns (Http.StatusCode resp) w
          end
      | _, _ =>
          match resp reply with
          | None => Panics "invalid memory address or nil pointer dereference" w
          | Some resp =>
              defer (λ w, emit w [BodyClosed]) (λ w,
                (* Do we keep going? *)
                let w :=
                  if Util.URLIsDir (Task.URL t)
                     && KeepSpidering w (Http.StatusCode resp)
                  then emit w [Log (Logf LogDebug "Referring %s back for spidering."
                                      [ArgTask t]);
                               QueueAdd [t]]
                  else w in
                let w := spiderRedirect w t in
                let result := ResultForResponse w t resp in
                let '(result, w) := runPageWorkers w t resp result in
                let w := emit w [SendResult result] in
                Returns (Http.StatusCode resp) w) w
          end
      end) w.

Definition mangleRules : list string :=
  [".%s.swp"; (* VIM Swap File *)
   "%s~";     (* Backup file *)
   "%s.bak";  (* Backup file *)
   "%s.orig"  (* Backup file *)].

(** Mangle a basename *)
Definition Mangle (basename : string) : list string :=
  (λ rule, Strings.Sprintf rule [basename]) <$> mangleRules.

Definition TryMangleTask (t : Task.Task) : M unit :=
  λ w,
    if negb (Settings.Mangle (settings w)) then Returns () w
    else
      let clone := Task.Copy t in
      let path := Url.Path (Task.URL clone) in
      let spos := Strings.LastIndex path "/" in
      if spos =? -1 then Returns () w
      else
        let dirname := Strings.slice_to path (Z.to_nat spos) in
        let basename := Strings.slice_from path (Z.to_nat (spos + 1)) in
        forEach (Mangle basename) (λ newname,
          let clone := Task.Copy clone in
          let clone :=
            Task.set_URL clone
              (Url.set_Path (Task.URL clone) (dirname +:+ "/" +:+ newname)) in
          bind (TryTask clone) (λ _, ret ())) w.

Definition HandleTask (t : Task.Task) : M unit :=
  λ w,
    let w := emit w [Log (Logf LogDebug "Trying Raw URL (unmangled): %s" [ArgTask t])] in
    bind (TryTask t) (λ code w,
      let o :=
        if negb (Util.URLIsDir (Task.URL t)) && KeepSpidering w code
        then TryMangleTask t w
        else Returns () w in
      match o with
      | Returns _ w =>
          (* Mark as done *)
          Returns () (emit w [QueueDone 1])
      | Panics msg w => Panics msg w
      end) w.

(** The requests of a list of events, and the Results sent. *)
Definition requests (evs : list Event) : list (Url.URL * string * string * Http.Header) :=
  omap (λ e, match e with
             | Requested u h m hd => Some (u, h, m, hd)
             | _ => None
             end) evs.

Definition resultsSent (evs : list Event) : list Results.Result :=
  omap (λ e, match e with SendResult r => Some r | _ => None end) evs.

(** [w'] is [w] after some events, none of them a request, with the same
    settings. *)
Definition quiet (w w' : Worker) : Prop :=
  ∃ new, events w' = events w ++ new ∧ requests new = [] ∧ settings w' = settings w.

(** The request [TryTask] makes for a task. *)
Definition requestOf (s : Settings.ScanSettings) (t : Task.Task)
    : Url.URL * string * string * Http.Header :=
  (Task.URL t, Task.Host t, Settings.Method s, Task.Header t).

(** [TryTask] on each task of a list, in order. *)
Definition tryEach (probes : list Task.Task) : M unit :=
  forEach probes (λ p, bind (TryTask p) (λ _, ret ())).

(** The tasks handed to [adder], and the arguments of the calls of [done]. *)
Definition added (evs : list Event) : list Task.Task :=
  concat (omap (λ e, match e with QueueAdd ts => Some ts | _ => None end) evs).

Definition doneCalls (evs : list Event) : list Z :=
  omap (λ e, match e with QueueDone n => Some n | _ => None end) evs.

(** The loop of [Run], for the tasks the worker reads from [src] before the
    channel is closed or a stop is read: [w.HandleTask(t)] for each.  The
    signal on [waitq] that [Run] defers is no event of this model. *)
Definition runLoop (src : list Task.Task) : M unit := forEach src HandleTask.

End with_client.

Global Arguments Worker C : clear implicits.
Global Arguments Outcome C A : clear implicits.
Global Arguments M C A : clear implicits.

Definition maxHTMLWorkerSize : Z := 10 * 1024 * 1024.

(** [HTMLWorker.Eligible]: check if this response can be handled by the
    HTML worker.  Whether the lower-cased content type is [text/html] is
    decided on the ASCII path of [strings.ToLower]: see [Strings.ToLower]. *)
Definition HTMLWorker_Eligible (resp : Http.Response) : bool :=
  let ct := Http.Header_Get (Http.RespHeader resp) "Content-type" in
  if negb (String.eqb (Strings.ToLower ct) "text/html") then false
  else
    (* ContentLength is often -1, indicating unknown, so we'll try to parse those *)
    (Http.ContentLength resp =? -1)
    || ((0 <? Http.ContentLength resp)
        && (Http.ContentLength resp <? maxHTMLWorkerSize)).

Section with_parsers.
(** [strings.Map(unicode.ToLower, s)] for [strings.ToLower], [html.Parse],
    [url.Parse], [ResolveReference] of a URL and [AddLink] of a Result are
    outside the sources embedded here. *)
Variable mapLower : string → string.
Variable html_Parse : string → Html.Node + string.
Variable url_Parse : string → Url.URL + string.
Variable ResolveReference : Url.URL → Url.URL → Url.URL.
Variable AddLink : Results.Result → Url.URL → Results.LinkClass → Results.Result.

(** [handleNode], the closure of [getElementsByTagName]: [results] is the
    slice it appends to. *)
Fixpoint handleNode (name : string) (node : Html.Node)
    (results : list Html.Node) : list Html.Node :=
  match node with
  | Html.mkNode type data _ children =>
      let results :=
        if Html.NodeType_eqb type Html.ElementNode
           && String.eqb (Strings.ToLowerUTF8 mapLower data) name
        then results ++ [node] else results in
      (* for n := node.FirstChild; n != nil; n = n.NextSibling *)
      foldl (λ results n, handleNode name n results) results children
  end.

Definition getElementsByTagName (root : Html.Node) (name : string)
    : list Html.Node :=
  handleNode name root [].

Fixpoint attributeLoop (attr : list Html.Attribute) (attrName : string)
    : option string :=
  match attr with
  | [] => None
  | a :: attr' =>
      if String.eqb (Strings.ToLowerUTF8 mapLower (Html.Key a)) attrName
      then Some (Html.Val a)
      else attributeLoop attr' attrName
  end.

Definition getElementAttribute (node : Html.Node) (attrName : string)
    : option string :=
  attributeLoop (Html.Attr node) attrName.

Fixpoint collectLoop (els : list Html.Node) (attrName : string)
    (results : list string) : list string :=
  match els with
  | [] => results
  | el :: els' =>
      match getElementAttribute el attrName with
      | Some val => collectLoop els' attrName (results ++ [val])
      | None => collectLoop els' attrName results
      end
  end.

Definition collectElementAttributes (root : Html.Node) (tagName attrName : string)
    : list string :=
  collectLoop (getElementsByTagName root tagName) attrName [].

(** [io.LimitReader(body, n)]: the first [n] bytes of the body. *)
Fixpoint LimitReader (body : string) (n : Z) : string :=
  match body with
  | EmptyString => EmptyString
  | String c body' =>
      if n <=? 0 then EmptyString else String c (LimitReader body' (n - 1))
  end.

(** Get the links for the body. *)
Definition GetLinks (body : string) : list string * list PageEvent :=
  match html_Parse body with
  | inr err =>
      ([], [PageLog (Logf LogInfo "Unable to parse HTML document: %s"
                       [ArgString err])])
  | inl tree =>
      let links := collectElementAttributes tree "a" "href" in
      let links := links ++ collectElementAttributes tree "img" "src" in
      let links := links ++ collectElementAttributes tree "script" "src" in
      let links := links ++ collectElementAttributes tree "style" "src" in
      (Util.DedupeStrings links, [])
  end.

(** [for _, l := range links { ... }] of [Handle]: the Result, the URLs
    found and the log lines. *)
Fixpoint linkLoop (t : Task.Task) (links : list string) (result : Results.Result)
    (foundURLs : list Url.URL)
    : Results.Result * list Url.URL * list PageEvent :=
  match links with
  | [] => (result, foundURLs, [])
  | l :: links' =>
      match url_Parse l with
      | inr err =>
          let '(result', foundURLs', evs) := linkLoop t links' result foundURLs in
          (result', foundURLs',
           PageLog (Logf LogInfo "Error parsing URL (%s): %s"
                      [ArgString l; ArgString err]) :: evs)
      | inl u =>
          (* TODO: use <base> tag *)
          let resolved := ResolveReference (Task.URL t) u in
          let result := AddLink result resolved Results.LinkUnknown in
          let foundURLs := foundURLs ++ [resolved] in
          (* Include parents of the found URL. *)
          let foundURLs := foundURLs ++ Util.GetParentPaths resolved in
          linkLoop t links' result foundURLs
      end
  end.

(** Work on this response.  The count of the links is logged as [%d] prints
    it. *)
Definition HTMLWorker_Handle (t : Task.Task) (body : string)
    (result : Results.Result) : Results.Result * list PageEvent :=
  let limitedBody := LimitReader body maxHTMLWorkerSize in
  let '(links, evs) := GetLinks limitedBody in
  let found :=
    PageLog (Logf LogInfo "Found %d links for %s"
               [ArgString (Strings.Itoa (Z.of_nat (length links)));
                ArgURL (Task.URL t)]) in
  let '(result, foundURLs, evs') := linkLoop t links result [] in
  let newTasks := (λ u, Task.set_URL (Task.Copy t) u) <$> foundURLs in
  (result, evs ++ [found] ++ evs' ++ [PageAdd newTasks]).

(** The HTML worker as a [PageWorker]. *)
Definition HTMLWorker : PageWorker :=
  {| Eligible := HTMLWorker_Eligible; Handle := HTMLWorker_Handle |}.

End with_parsers.

(** The nodes of a tree in document order, each before its children. *)
Fixpoint preorder (node : Html.Node) : list Html.Node :=
  match node with
  | Html.mkNode _ _ _ children => node :: concat (preorder <$> children)
  end.

(** The node is an element whose tag, in lower case, is the name. *)
Definition isElement (mapLower : string → string) (name : string)
    (node : Html.Node) : bool :=
  Html.NodeType_eqb (Html.Type_ node) Html.ElementNode
  && String.eqb (Strings.ToLowerUTF8 mapLower (Html.Data node)) name.

(** The four copies of a task that [TryMangleTask] tries, for the directory
    and the basename of its path. *)
Definition mangled (t : Task.Task) (dirname basename : string) : list Task.Task :=
  (λ name, Task.set_URL t (Url.set_Path (Task.URL t) (dirname +:+ "/" +:+ name)))
  <$> ["." +:+ basename +:+ ".swp"; basename +:+ "~"; basename +:+ ".bak";
       basename +:+ ".orig"].

(** The status code of a reply: 0 without a response. *)
Definition codeOf (reply : Reply) : Z :=
  match resp reply with
  | Some r => Http.StatusCode r
  | None => 0
  end.

(** The tasks a page worker adds. *)
Definition pageAdded (evs : list PageEvent) : list (list Task.Task) :=
  omap (λ e, match e with PageAdd ts => Some ts | _ => None end) evs.

End Worker.


(** ** Closed forms and example data used in the statements below *)

(** [strings.Join(splitPath[:i], "/")] *)
Definition joinTo (splitPath : list string) (i : nat) : string :=
  Strings.Join (take i splitPath) "/".

(** [q] is a proper ancestor directory of the path: the path is [q], a [/]
    and more. *)
Definition properAncestor (q path : string) : Prop :=
  ∃ rest, rest ≠ "" ∧ path = q +:+ "/" +:+ rest.

(** The path names the root: it is empty, as the ancestor of [/a] is, or
    made of [/]. *)
Definition isRoot (q : string) : Prop :=
  Http.all_bytes (Strings.ContainsByte "/") q = true.

(** A path element that [path.Clean] copies as it is: not empty, not [.]
    and not [..]. *)
Definition plainElement (s : string) : bool :=
  negb (String.eqb s "") && negb (String.eqb s ".") && negb (String.eqb s "..").

(** The elements [path.Clean] keeps of a path that has no [..] element:
    those that are not empty and not [.]. *)
Definition realElements (splitPath : list string) : list string :=
  List.filter plainElement splitPath.

Definition noReal (splitPath : list string) : bool :=
  forallb (λ e, negb (plainElement e)) splitPath.

Definition hasDotDot (splitPath : list string) : bool :=
  existsb (String.eqb "..") splitPath.

(** The lexical condition on the elements of a path under which
    [path.Clean] keeps every parent of the path an ancestor of it: no
    element is real, or one of the first two is, or the first two are empty
    and the third is real (the path starts with [//] and a real element, so
    that its first parent is [/]). *)
Definition cleanKeepsParents (splitPath : list string) : bool :=
  noReal splitPath
  || negb (noReal (take 2 splitPath))
  || match splitPath with
     | s0 :: s1 :: s2 :: _ => String.eqb s0 "" && String.eqb s1 "" && plainElement s2
     | _ => false
     end.

(** What follows the first element in [strings.Join(l, "/")]. *)
Fixpoint joinRest (l : list string) : string :=
  match l with
  | [] => ""
  | e :: l' => "/" +:+ e +:+ joinRest l'
  end.

(** The clean path of the kept elements: after the root, or relative,
    [.] when nothing is kept. *)
Definition renderClean (rooted : bool) (kept : list string) : string :=
  if rooted then "/" +:+ Strings.Join kept "/"
  else match kept with
       | [] => "."
       | _ => Strings.Join kept "/"
       end.

Definition cleanElements (splitPath : list string) : string :=
  renderClean (String.eqb (default "" (head splitPath)) "") (realElements splitPath).

(** The input of [path.Clean] from [r] on is at its end or at a [/]. *)
Definition atBoundary (rest : string) : Prop :=
  match rest with
  | EmptyString => True
  | String c _ => c = "/"%char
  end.

(** A plain element without [/], as [strings.Split] yields them. *)
Definition plain (g : string) : Prop :=
  plainElement g = true ∧ Strings.ContainsByte g "/" = false.

(** The [/] the loop of [path.Clean] writes before a real element. *)
Definition separator (rooted : bool) (out : string) : string :=
  if (rooted && negb (String.length out =? 1)%nat)
     || (negb rooted && negb (String.length out =? 0)%nat)
  then "/" else "".

(** A response with another content length, and with one more header. *)
Definition with_length (resp : Http.Response) (n : Z) : Http.Response :=
  {| Http.StatusCode := Http.StatusCode resp; Http.ContentLength := n;
     Http.RespHeader := Http.RespHeader resp; Http.Body := Http.Body resp |}.

Definition with_header (resp : Http.Response) (k : string) (vs : list string)
    : Http.Response :=
  {| Http.StatusCode := Http.StatusCode resp;
     Http.ContentLength := Http.ContentLength resp;
     Http.RespHeader := <[k := vs]> (Http.RespHeader resp);
     Http.Body := Http.Body resp |}.

(** Equality of two strings when the case of the letters [A]-[Z] and
    [a]-[z] is ignored, byte by byte. *)
Definition byte_EqualFold (a b : ascii) : bool :=
  Strings.byte_eq a b
  || (Strings.is_upper a && Strings.byte_eq (ascii_of_N (N_of_ascii a + 32)) b)
  || (Strings.is_upper b && Strings.byte_eq (ascii_of_N (N_of_ascii b + 32)) a).

Fixpoint EqualFold (s t : string) : bool :=
  match s, t with
  | EmptyString, EmptyString => true
  | String a s', String b t' => byte_EqualFold a b && EqualFold s' t'
  | _, _ => false
  end.

(** The matching rule in the words of the specification: for each
    significant dimension (the path, the status code, each header name of
    [HeadersSignificant]), the value of the Result equals that of the
    baseline.  The value of a header is its first value, the one
    [NewBaselineResult] compares. *)
Definition MatchesRule (b : Results.BaselineResult) (r : Results.Result) : Prop :=
  (Results.PathSignificant b = true →
   Url.Path (Results.URL r) = Url.Path (Results.URL (Results.Base b)))
  ∧ (Results.CodeSignificant b = true → Results.Code r = Results.Code (Results.Base b))
  ∧ (∀ k, k ∈ Results.HeadersSignificant b →
       Results.first_value (Results.ResponseHeader r) k
       = Results.first_value (Results.ResponseHeader (Results.Base b)) k).

(** The index of the last [/] of a string, by recursion on the string. *)
Fixpoint lastSlash (s : string) : option nat :=
  match s with
  | EmptyString => None
  | String c s' =>
      match lastSlash s' with
      | Some n => Some (S n)
      | None => if Path.slashb c then Some 0%nat else None
      end
  end.

(** The last four tests of [URLIsSubpath], on the two clean paths. *)
Definition cleanSubpath (pPath cPath : string) : bool :=
  if (String.length cPath <? String.length pPath)%nat then false
  else if String.eqb cPath pPath then true
  else if negb (Strings.HasPrefix cPath pPath) then false
  else Strings.byte_eq (Path.index cPath (String.length pPath)) Util.slash.

(** The string is made of [/]. *)
Definition slashes (sl : string) : Prop :=
  Http.all_bytes (Strings.ContainsByte "/") sl = true.

(** The index of the last instance of a byte in a string, by recursion on
    the string. *)
Fixpoint lastIndexOf (s : string) (c : ascii) : option nat :=
  match s with
  | EmptyString => None
  | String d s' =>
      match lastIndexOf s' c with
      | Some n => Some (S n)
      | None => if Strings.byte_eq d c then Some 0%nat else None
      end
  end.

(** Some exclusion of the filter has the URL as a subpath. *)
Definition excluded (f : WorkFilter.WorkFilter) (u : Url.URL) : bool :=
  existsb (λ exclusion, Util.URLIsSubpath exclusion u) (WorkFilter.exclusions f).

(** The task read in a turn of the filter was sent on: the turn has a send. *)
Definition forwarded (turns : list (list WorkFilter.Event)) (i : nat) : Prop :=
  ∃ evs, turns !! i = Some evs ∧ WorkFilter.sent evs ≠ [].

Module Examples.
Import Url.

Definition exampleURL (path : string) : URL :=
  {| Scheme := "http"; Opaque := ""; User := None; Host := "h"; Path := path;
     RawPath := ""; ForceQuery := false; RawQuery := "q=1"; Fragment := "top" |}.

Definition exampleResult (path : string) (code : Z) (header : Http.Header)
    : Results.Result :=
  {| Results.URL := exampleURL path; Results.Host := "h"; Results.Code := code;
     Results.Length := -1; Results.ContentType := ""; Results.ResponseHeader := header;
     Results.Redir := None; Results.Error := None; Results.ResultGroup := "g";
     Results.Links := [] |}.

Definition exampleResponse (length : Z) (header : Http.Header) : Http.Response :=
  {| Http.StatusCode := 200; Http.ContentLength := length;
     Http.RespHeader := header; Http.Body := "" |}.

Definition exampleTask (path : string) : Task.Task :=
  {| Task.URL := exampleURL path; Task.Host := "h"; Task.Header := ∅ |}.

(** A string for a task, as a key: its host and the path of its URL. *)
Definition exampleString (t : Task.Task) : string :=
  Task.Host t +:+ " " +:+ Path (Task.URL t) +:+ "#" +:+ Fragment (Task.URL t).

Definition exampleSettings : Settings.ScanSettings :=
  {| Settings.Workers := 1; Settings.QueueSize := 8; Settings.Method := "GET";
     Settings.SleepTime := 0; Settings.SpiderCodes := [200];
     Settings.RunMode := Settings.RunModeEnumeration; Settings.Mangle := true;
     Settings.ParseHTML := false; Settings.ExcludePaths := ["/admin"];
     Settings.UserAgent := "webborer" |}.

(** A filter that has seen nothing and excludes [/admin]. *)
Definition exampleFilter : WorkFilter.WorkFilter :=
  {| WorkFilter.done := ∅; WorkFilter.settings := exampleSettings;
     WorkFilter.exclusions :=
       [{| Scheme := ""; Opaque := ""; User := None; Host := ""; Path := "/admin";
           RawPath := ""; ForceQuery := false; RawQuery := ""; Fragment := "" |}] |}.

Definition refused : Worker.Reply :=
  {| Worker.resp := None; Worker.err := Some "connection refused";
     Worker.redirected := None |}.

(** A response of status 200 with no header and an empty body, no error. *)
Definition plainReply : Worker.Reply :=
  {| Worker.resp := Some (exampleResponse 0 ∅); Worker.err := None;
     Worker.redirected := None |}.

(** A client that plays a script: each request gets the next reply, and the
    connection is refused once the script is over. *)
Global Instance scriptedClient : Worker.Client (list Worker.Reply) := {|
  Worker.Request script _ _ _ _ :=
    match script with
    | reply :: script' => (script', reply)
    | [] => ([], refused)
    end
|}.

Definition exampleWorker (script : list Worker.Reply) : Worker.Worker (list Worker.Reply) :=
  {| Worker.client := script; Worker.settings := exampleSettings;
     Worker.pageWorker := None; Worker.redir := None; Worker.events := [] |}.

End Examples.

(** * Properties *)

(** ** Byte strings *)

Section string_facts.
Implicit Types (s t r : string) (c : ascii).

Lemma str_app_cons c s t : String c s +:+ t = String c (s +:+ t).
Proof. reflexivity. Qed.

Lemma str_app_nil_l s : "" +:+ s = s.
Proof. reflexivity. Qed.

Lemma str_app_nil_r s : s +:+ "" = s.
Proof. induction s as [|c s IH]; [done|]. by rewrite str_app_cons, IH. Qed.

Lemma str_app_assoc s t r : (s +:+ t) +:+ r = s +:+ t +:+ r.
Proof. induction s as [|c s IH]; [done|]. by rewrite !str_app_cons, IH. Qed.

Lemma str_length_app s t :
  String.length (s +:+ t) = (String.length s + String.length t)%nat.
Proof. induction s as [|c s IH]; [done|]. rewrite str_app_cons. simpl. by rewrite IH. Qed.

Lemma str_app_eq_nil s t : s +:+ t = "" → s = "" ∧ t = "".
Proof. destruct s; [done|]. by rewrite str_app_cons. Qed.

Lemma byte_eq_true c d : Strings.byte_eq c d = true ↔ c = d.
Proof. apply Ascii.eqb_eq. Qed.

Lemma byte_eq_false c d : Strings.byte_eq c d = false ↔ c ≠ d.
Proof. apply Ascii.eqb_neq. Qed.

Lemma byte_eq_refl c : Strings.byte_eq c c = true.
Proof. by apply byte_eq_true. Qed.

Lemma slice_from_0 s : Strings.slice_from s 0 = s.
Proof. by destruct s. Qed.
End string_facts.

(** ** [strings.TrimRight], [strings.Split] and [strings.Join] *)

Section trim_split_join.
Implicit Types (s t r cutset : string) (c sep : ascii) (l : list string).

Lemma TrimRight_idemp s cutset :
  Strings.TrimRight (Strings.TrimRight s cutset) cutset = Strings.TrimRight s cutset.
Proof.
  induction s as [|c s IH]; [done|]. simpl.
  destruct (Strings.TrimRight s cutset) as [|d r] eqn:E.
  - destruct (Strings.ContainsByte cutset c) eqn:Ec; simpl; [done|].
    by rewrite Ec.
  - change (Strings.TrimRight (String c (String d r)) cutset)
      with (match Strings.TrimRight (String d r) cutset with
            | "" => if Strings.ContainsByte cutset c then "" else String c ""
            | x => String c x
            end).
    by rewrite IH.
Qed.

(** A trimmed string does not end with a byte of the cutset. *)
Lemma TrimRight_last s cutset t c :
  Strings.TrimRight s cutset = t +:+ String c "" →
  Strings.ContainsByte cutset c = false.
Proof.
  revert t. induction s as [|a s IH]; intros t; simpl.
  - destruct t; discriminate.
  - destruct (Strings.TrimRight s cutset) as [|d r] eqn:E.
    + destruct (Strings.ContainsByte cutset a) eqn:Ea; [destruct t; discriminate|].
      destruct t as [|b t]; rewrite ?str_app_cons; intros [= ->]; [done|].
      destruct t; discriminate.
    + destruct t as [|b t]; rewrite ?str_app_cons; [discriminate|].
      intros [= -> Hr]. by apply (IH t).
Qed.

(** The string is its trimmed part followed by bytes of the cutset. *)
Lemma TrimRight_app s cutset :
  ∃ t, s = Strings.TrimRight s cutset +:+ t
       ∧ Http.all_bytes (Strings.ContainsByte cutset) t = true.
Proof.
  induction s as [|a s (t & Hs & Ht)]; simpl.
  - by exists "".
  - destruct (Strings.TrimRight s cutset) as [|d r] eqn:E.
    + destruct (Strings.ContainsByte cutset a) eqn:Ea.
      * exists (String a t). simpl in *. rewrite Ea, Ht. by rewrite Hs at 1.
      * exists t. split; [|done]. rewrite !str_app_cons. by rewrite Hs at 1.
    + exists t. split; [|done]. rewrite str_app_cons. by rewrite Hs at 1.
Qed.

Lemma Split_nonempty s sep : Strings.Split s sep ≠ [].
Proof.
  destruct s as [|c s]; simpl; [done|].
  destruct (Strings.byte_eq c sep); [done|].
  by destruct (Strings.Split s sep).
Qed.

Lemma Join_cons x y l (sp : string) :
  Strings.Join (x :: y :: l) sp = x +:+ sp +:+ Strings.Join (y :: l) sp.
Proof. reflexivity. Qed.

Lemma Join_app_ne (a b : list string) (sp : string) :
  a ≠ [] → b ≠ [] →
  Strings.Join (a ++ b) sp = Strings.Join a sp +:+ sp +:+ Strings.Join b sp.
Proof.
  intros Ha Hb. induction a as [|x [|y a] IH]; [done| |].
  - destruct b as [|z b]; [done|]. reflexivity.
  - change ((x :: y :: a) ++ b) with (x :: y :: (a ++ b)).
    rewrite !Join_cons. change (y :: a ++ b) with ((y :: a) ++ b).
    rewrite IH by done. by rewrite !str_app_assoc.
Qed.

Lemma Join_Split s sep : Strings.Join (Strings.Split s sep) (String sep "") = s.
Proof.
  induction s as [|c s IH]; [done|]. simpl.
  pose proof (Split_nonempty s sep) as Hne.
  destruct (Strings.byte_eq c sep) eqn:Ec.
  - apply byte_eq_true in Ec as ->.
    destruct (Strings.Split s sep) as [|x xs]; [done|].
    by rewrite Join_cons, IH.
  - destruct (Strings.Split s sep) as [|x xs]; [done|].
    destruct xs as [|y ys].
    + simpl in *. by rewrite IH.
    + rewrite Join_cons in *. rewrite str_app_cons. by rewrite IH.
Qed.

(** The elements of a split have no separator in them. *)
Lemma Split_no_sep s sep x :
  x ∈ Strings.Split s sep → Strings.ContainsByte x sep = false.
Proof.
  revert x. induction s as [|c s IH]; intros x; simpl.
  - by intros ->%list_elem_of_singleton.
  - pose proof (Split_nonempty s sep) as Hne.
    destruct (Strings.byte_eq c sep) eqn:Ec.
    + intros [->|Hx]%elem_of_cons; [done|]. by apply IH.
    + destruct (Strings.Split s sep) as [|y ys]; [done|].
      intros [->|Hx]%elem_of_cons.
      * simpl. rewrite Ec. simpl. apply IH. by left.
      * apply IH. by right.
Qed.

Lemma Join_take_drop l (i : nat) (sp : string) :
  (0 < i < length l)%nat →
  Strings.Join l sp
  = Strings.Join (take i l) sp +:+ sp +:+ Strings.Join (drop i l) sp.
Proof.
  revert i. induction l as [|x l IH]; intros i [Hi Hl]; simpl in Hl; [lia|].
  destruct i as [|i]; [lia|].
  destruct l as [|y l]; [simpl in Hl; lia|].
  destruct i as [|i].
  - by rewrite Join_cons.
  - rewrite Join_cons. rewrite (IH (S i)) by (simpl in *; lia).
    change (take (S (S i)) (x :: y :: l)) with (x :: take (S i) (y :: l)).
    change (drop (S (S i)) (x :: y :: l)) with (drop (S i) (y :: l)).
    destruct (take (S i) (y :: l)) as [|z zs] eqn:Et; [done|].
    by rewrite Join_cons, !str_app_assoc.
Qed.
Lemma ContainsByte_app s t c :
  Strings.ContainsByte (s +:+ t) c = Strings.ContainsByte s c || Strings.ContainsByte t c.
Proof.
  induction s as [|d s IH]; [done|].
  rewrite str_app_cons. simpl. by rewrite IH, orb_assoc.
Qed.

Lemma Split_app_sep s t sep :
  Strings.Split (s +:+ String sep t) sep = Strings.Split s sep ++ Strings.Split t sep.
Proof.
  induction s as [|c s IH].
  - rewrite str_app_nil_l. simpl. by rewrite byte_eq_refl.
  - rewrite str_app_cons. simpl. rewrite IH.
    pose proof (Split_nonempty s sep) as Hne.
    destruct (Strings.byte_eq c sep); [done|].
    by destruct (Strings.Split s sep).
Qed.

Lemma Split_length_ge2 s sep :
  Strings.ContainsByte s sep = true → (2 ≤ length (Strings.Split s sep))%nat.
Proof.
  induction s as [|c s IH]; [done|]. simpl.
  pose proof (Split_nonempty s sep) as Hne.
  destruct (Strings.byte_eq c sep); simpl.
  - intros _. destruct (Strings.Split s sep); [done|]. simpl. lia.
  - intros Hs. specialize (IH Hs).
    destruct (Strings.Split s sep); simpl in *; lia.
Qed.

End trim_split_join.

(** ** [util.GetParentPaths] *)

Section parent_paths.
Import Url Util.

Lemma parentPathsLoop_closed turns splitPath i results :
  (length splitPath ≤ turns + i)%nat →
  parentPathsLoop turns splitPath i results
  = results ++ (joinTo splitPath <$> seq i (length splitPath - i)).
Proof.
  revert i results. induction turns as [|turns IH]; intros i results Hle; simpl.
  - replace (length splitPath - i)%nat with 0%nat by lia. by rewrite app_nil_r.
  - destruct (i <? length splitPath)%nat eqn:Ei.
    + apply Nat.ltb_lt in Ei. rewrite IH by lia.
      replace (length splitPath - i)%nat with (S (length splitPath - (i + 1))) by lia.
      simpl. rewrite <- app_assoc. simpl. by rewrite Nat.add_1_r.
    + apply Nat.ltb_ge in Ei.
      replace (length splitPath - i)%nat with 0%nat by lia. by rewrite app_nil_r.
Qed.

Lemma getParentPathsString_closed childPath :
  let splitPath := Strings.Split (Strings.TrimRight childPath "/") slash in
  getParentPathsString childPath
  = joinTo splitPath <$> seq 2 (length splitPath - 2).
Proof.
  intros splitPath. unfold getParentPathsString. fold splitPath.
  rewrite parentPathsLoop_closed by lia. done.
Qed.

Lemma foldl_snoc {A B} (f : A → B) (l : list A) (acc : list B) :
  foldl (λ results x, results ++ [f x]) acc l = acc ++ (f <$> l).
Proof.
  revert acc. induction l as [|x l IH]; intros acc; simpl.
  - by rewrite app_nil_r.
  - rewrite IH. by rewrite <- app_assoc.
Qed.

Lemma GetParentPaths_closed child :
  let splitPath := Strings.Split (Strings.TrimRight (Path child) "/") slash in
  GetParentPaths child
  = (λ i, set_Path child (joinTo splitPath i)) <$> seq 2 (length splitPath - 2).
Proof.
  intros splitPath. unfold GetParentPaths.
  rewrite foldl_snoc. simpl.
  rewrite getParentPathsString_closed, TrimRight_idemp. fold splitPath.
  by rewrite <- list_fmap_compose.
Qed.
End parent_paths.

Section parent_paths_claims.
Import Url Util Examples.

Lemma joinTo_proper s (i : nat) :
  let splitPath := Strings.Split (Strings.TrimRight s "/") slash in
  (2 ≤ i < length splitPath)%nat →
  joinTo splitPath i ≠ ""
  ∧ ∃ rest, rest ≠ ""
      ∧ Strings.TrimRight s "/" = joinTo splitPath i +:+ "/" +:+ rest.
Proof.
  intros splitPath Hi. split.
  - unfold joinTo.
    destruct splitPath as [|x [|y l]]; simpl in Hi; [lia..|].
    destruct i as [|[|i]]; [lia..|].
    change (take (S (S i)) (x :: y :: l)) with (x :: y :: take i l).
    rewrite Join_cons. intros [_ ?]%str_app_eq_nil. done.
  - exists (Strings.Join (drop i splitPath) "/").
    assert (Strings.TrimRight s "/"
            = joinTo splitPath i +:+ "/" +:+ Strings.Join (drop i splitPath) "/")
      as Heq.
    { rewrite <- (Join_Split (Strings.TrimRight s "/") slash) at 1.
      apply Join_take_drop. lia. }
    split; [|done]. intros Hnil. rewrite Hnil in Heq.
    apply TrimRight_last in Heq. done.
Qed.

(** The parents are the prefixes of the trimmed path that end before a [/]
    and have a [/] themselves. *)
Lemma parent_path_iff s p :
  let splitPath := Strings.Split (Strings.TrimRight s "/") slash in
  p ∈ joinTo splitPath <$> seq 2 (length splitPath - 2) ↔
    Strings.ContainsByte p "/" = true
    ∧ ∃ rest, Strings.TrimRight s "/" = p +:+ "/" +:+ rest.
Proof.
  intros splitPath. split.
  - intros (i & -> & Hi%elem_of_seq)%list_elem_of_fmap.
    destruct (joinTo_proper s i ltac:(fold splitPath; lia)) as (_ & rest & _ & Heq).
    fold splitPath in Heq. split; [|eauto].
    unfold joinTo. destruct splitPath as [|x [|y l]]; simpl in Hi; [lia..|].
    destruct i as [|[|i]]; [lia..|].
    change (take (S (S i)) (x :: y :: l)) with (x :: y :: take i l).
    rewrite Join_cons, !ContainsByte_app. simpl.
    by rewrite orb_true_r.
  - intros (Hslash & rest & Heq).
    assert (splitPath = Strings.Split p slash ++ Strings.Split rest slash) as Hsplit.
    { unfold splitPath. rewrite Heq. apply Split_app_sep. }
    apply list_elem_of_fmap. exists (length (Strings.Split p slash)). split.
    + unfold joinTo. rewrite Hsplit, take_app_length. symmetry. apply Join_Split.
    + apply elem_of_seq. rewrite Hsplit, length_app.
      pose proof (Split_length_ge2 p slash Hslash).
      pose proof (Split_nonempty rest slash).
      destruct (Strings.Split rest slash); [done|]. simpl. lia.
Qed.

Lemma HasPrefix_empty s : Strings.HasPrefix s "" = true.
Proof. by destruct s. Qed.

Lemma HasPrefix_cons c s d p :
  Strings.HasPrefix (String c s) (String d p)
  = Strings.byte_eq c d && Strings.HasPrefix s p.
Proof. reflexivity. Qed.

Lemma isRoot_cons c s : isRoot (String c s) ↔ c = "/"%char ∧ isRoot s.
Proof.
  unfold isRoot. cbn [Http.all_bytes Strings.ContainsByte].
  rewrite andb_true_iff, orb_false_r. unfold Strings.byte_eq.
  rewrite Ascii.eqb_eq. split; intros [? ?]; by split.
Qed.

Lemma first_slash s :
  Strings.ContainsByte s "/" = true →
  ∃ q rest, s = q +:+ "/" +:+ rest ∧ Strings.ContainsByte q "/" = false.
Proof.
  induction s as [|c s IH]; [done|]. cbn [Strings.ContainsByte].
  destruct (Strings.byte_eq c "/") eqn:Ec.
  - apply byte_eq_true in Ec as ->. intros _. by exists "", s.
  - intros (q & rest & -> & Hq)%IH. exists (String c q), rest.
    rewrite str_app_cons. split; [done|]. cbn [Strings.ContainsByte].
    by rewrite Ec, Hq.
Qed.

(** A trimmed path does not end in [/]: what follows a [/] of it is not
    empty. *)
Lemma trimmed_ancestor s q :
  (∃ rest, Strings.TrimRight s "/" = q +:+ "/" +:+ rest)
  ↔ properAncestor q (Strings.TrimRight s "/").
Proof.
  split; [|intros (rest & _ & ?); by exists rest].
  intros [rest Heq]. exists rest. split; [|done]. intros ->.
  rewrite str_app_nil_r in Heq. by apply TrimRight_last in Heq.
Qed.

(** C7.  The paths of [GetParentPaths(u)] are the joins of [split[:2]],
    [split[:3]], ..., [split[:len-1]], in this order, where [split] is the
    path of [u] split on [/] after its trailing [/] are trimmed: the
    prefixes of the trimmed path that end before a [/] and have a [/]
    themselves, each a proper ancestor that is not empty.  They are every
    proper ancestor but the root exactly when the trimmed path has no [/],
    or starts with one [/] and not with two: the root [/] is returned for
    [//a/b], and the ancestor [a] of [a/b/c] is not.  The parents of
    [/a/b/c] are [/a] and [/a/b]. *)
Theorem GetParentPaths_paths (u : URL) :
  let trimmed := Strings.TrimRight (Path u) "/" in
  let splitPath := Strings.Split trimmed slash in
  Path <$> GetParentPaths u
  = (λ i, Strings.Join (take i splitPath) "/") <$> seq 2 (length splitPath - 2)
  ∧ (∀ p, p ∈ Path <$> GetParentPaths u ↔
       Strings.ContainsByte p "/" = true
       ∧ ∃ rest, trimmed = p +:+ "/" +:+ rest)
  ∧ Forall (λ p, p ≠ "" ∧ properAncestor p trimmed) (Path <$> GetParentPaths u)
  ∧ ((∀ p, p ∈ Path <$> GetParentPaths u ↔ properAncestor p trimmed ∧ ¬ isRoot p)
     ↔ Strings.ContainsByte trimmed "/" = false
       ∨ (Strings.HasPrefix trimmed "/" = true
          ∧ Strings.HasPrefix trimmed "//" = false))
  ∧ Path <$> GetParentPaths (set_Path u "/a/b/c") = ["/a"; "/a/b"].
Proof.
  intros trimmed splitPath.
  assert (Path <$> GetParentPaths u
          = joinTo splitPath <$> seq 2 (length splitPath - 2)) as Hclosed.
  { rewrite GetParentPaths_closed. fold trimmed splitPath.
    rewrite <- list_fmap_compose. done. }
  assert (∀ p, p ∈ Path <$> GetParentPaths u ↔
            Strings.ContainsByte p "/" = true ∧ properAncestor p trimmed) as Hiff.
  { intros p. rewrite Hclosed. unfold trimmed, splitPath.
    rewrite <- trimmed_ancestor. apply parent_path_iff. }
  split; [exact Hclosed|]. split; [|split; [|split; [|done]]].
  - intros p. rewrite Hclosed. apply parent_path_iff.
  - rewrite Hclosed. apply Forall_fmap, Forall_forall.
    intros i Hi%elem_of_seq. simpl.
    destruct (joinTo_proper (Path u) i) as [Hne Hrest];
      [fold trimmed splitPath; lia|].
    split; [done|]. exact Hrest.
  - assert (∀ q rest, trimmed = q +:+ "/" +:+ rest → properAncestor q trimmed)
      as Hmk.
    { intros q rest Heq. apply trimmed_ancestor. by exists rest. }
    split.
    + intros Hclaim.
      destruct (Strings.ContainsByte trimmed "/") eqn:Hslash; [right|by left].
      destruct trimmed as [|c P] eqn:HP; [done|].
      destruct (Strings.byte_eq c "/") eqn:Ec.
      * apply byte_eq_true in Ec as ->.
        split; [by rewrite HasPrefix_cons, byte_eq_refl, HasPrefix_empty|].
        destruct P as [|d P']; [done|].
        rewrite !HasPrefix_cons, byte_eq_refl, HasPrefix_empty, andb_true_l, andb_true_r.
        destruct (Strings.byte_eq d "/") eqn:Ed; [|done].
        apply byte_eq_true in Ed as ->. exfalso.
        assert ("/" ∈ Path <$> GetParentPaths u) as Hin.
        { apply Hiff. split; [done|]. by apply (Hmk "/" P'). }
        apply Hclaim in Hin as [_ Hroot]. by apply Hroot.
      * exfalso. destruct (first_slash _ Hslash) as (q & rest & Heq & Hq).
        assert (properAncestor q (String c P)) as Hanc by (by apply (Hmk q rest)).
        assert (¬ isRoot q) as Hroot.
        { destruct q as [|c' q].
          - rewrite str_app_nil_l in Heq. injection Heq as -> _.
            by rewrite byte_eq_refl in Ec.
          - rewrite str_app_cons in Heq. injection Heq as <- _.
            intros [-> _]%isRoot_cons. by rewrite byte_eq_refl in Ec. }
        assert (q ∈ Path <$> GetParentPaths u) as Hin by (by apply Hclaim).
        apply Hiff in Hin as [Hq' _]. congruence.
    + assert (∀ p rest, trimmed = p +:+ "/" +:+ rest →
                Strings.ContainsByte trimmed "/" = true) as Hhas.
      { intros p rest ->. rewrite !ContainsByte_app.
        change (Strings.ContainsByte "/" "/") with (Strings.byte_eq "/" "/" || false).
        by rewrite byte_eq_refl, orb_true_r. }
      intros Hcond p. rewrite Hiff. split.
      * intros [Hp Hanc]. split; [done|]. intros Hroot.
        destruct Hanc as (rest & _ & Heq).
        destruct Hcond as [Hno|[H1 H2]]; [by rewrite (Hhas _ _ Heq) in Hno|].
        rewrite Heq in H2. destruct p as [|c [|d p]]; [done| |].
        -- apply isRoot_cons in Hroot as [-> _].
           rewrite str_app_cons, str_app_nil_l, !HasPrefix_cons in H2.
           change ("/" +:+ rest) with (String "/"%char rest) in H2.
           by rewrite !HasPrefix_cons, !byte_eq_refl, HasPrefix_empty in H2.
        -- apply isRoot_cons in Hroot as [-> Hroot].
           apply isRoot_cons in Hroot as [-> _].
           rewrite !str_app_cons, !HasPrefix_cons in H2.
           by rewrite !byte_eq_refl, HasPrefix_empty in H2.
      * intros [Hanc Hroot]. split; [|done].
        destruct Hanc as (rest & _ & Heq).
        destruct Hcond as [Hno|[H1 H2]]; [by rewrite (Hhas _ _ Heq) in Hno|].
        destruct p as [|c p]; [exfalso; by apply Hroot|].
        rewrite Heq, str_app_cons, HasPrefix_cons in H1.
        apply andb_true_iff in H1 as [->%byte_eq_true _].
        cbn [Strings.ContainsByte]. by rewrite byte_eq_refl.
Qed.

(** C7, as it is stated, fails for a path that starts with two [/], whose
    first parent is the root, and for a relative path, whose first
    ancestor is left out. *)
Lemma GetParentPaths_paths_counterexample :
  ("/" ∈ Path <$> GetParentPaths (exampleURL "//a/b") ∧ isRoot "/")
  ∧ (properAncestor "a" "a/b/c" ∧ ¬ isRoot "a"
     ∧ "a" ∉ Path <$> GetParentPaths (exampleURL "a/b/c")).
Proof.
  split; [split; [vm_compute; left|reflexivity]|].
  split; [by exists "b/c"|]. split; [by intros ?|].
  vm_compute. intros Hin. apply list_elem_of_singleton in Hin. discriminate Hin.
Qed.

(** C10.  A URL returned by [GetParentPaths(u)] is [u] with another
    [Path]: scheme, opaque part, user, host, raw path, query and fragment
    are those of [u]. *)
Theorem GetParentPaths_frame (u p : URL) :
  p ∈ GetParentPaths u →
  p = set_Path u (Path p)
  ∧ Scheme p = Scheme u ∧ Host p = Host u ∧ User p = User u
  ∧ RawQuery p = RawQuery u ∧ Fragment p = Fragment u
  ∧ Opaque p = Opaque u ∧ RawPath p = RawPath u ∧ ForceQuery p = ForceQuery u.
Proof.
  rewrite GetParentPaths_closed.
  intros (i & -> & _)%list_elem_of_fmap. done.
Qed.

Lemma GetParentPaths_frame_witness :
  exampleURL "/a/b" ∈ GetParentPaths (exampleURL "/a/b/c")
  ∧ RawQuery (exampleURL "/a/b") = RawQuery (exampleURL "/a/b/c").
Proof.
  assert (exampleURL "/a/b" ∈ GetParentPaths (exampleURL "/a/b/c")) as Hin.
  { vm_compute. right. left. }
  split; [exact Hin|].
  apply (GetParentPaths_frame (exampleURL "/a/b/c") (exampleURL "/a/b") Hin).
Defined.
End parent_paths_claims.

(** ** [path.Clean] on paths whose elements are plain *)

Section clean_plain.
Import Path.
Implicit Types (g s rest out sl : string) (gs : list string).

Lemma at_dot_length rest rest1 :
  at_dot rest = Some rest1 → (String.length rest1 < String.length rest)%nat.
Proof.
  destruct rest as [|c rest]; [done|]. simpl. destruct (dotb c); [|done].
  destruct rest as [|d rest]; [intros [= <-]; simpl; lia|].
  destruct (slashb d); [|done]. intros [= <-]. simpl. lia.
Qed.

Lemma at_dotdot_length rest rest2 :
  at_dotdot rest = Some rest2 → (String.length rest2 < String.length rest)%nat.
Proof.
  destruct rest as [|c [|d rest]]; [done..|]. simpl.
  destruct (dotb c && dotb d); [|done].
  destruct rest as [|e rest]; [intros [= <-]; simpl; lia|].
  destruct (slashb e); [|done]. intros [= <-]. simpl. lia.
Qed.

Lemma copy_element_length rest out :
  (String.length (copy_element rest out).1 ≤ String.length rest)%nat.
Proof.
  revert out. induction rest as [|c rest IH]; intros out; simpl; [lia|].
  destruct (slashb c); simpl; [lia|]. specialize (IH (out +:+ String c "")). lia.
Qed.

(** The loop is over within [length rest] turns: more fuel changes
    nothing. *)
Lemma clean_loop_fuel fuel1 fuel2 rooted rest out dotdot :
  (String.length rest ≤ fuel1)%nat → (String.length rest ≤ fuel2)%nat →
  clean_loop fuel1 rooted rest out dotdot = clean_loop fuel2 rooted rest out dotdot.
Proof.
  revert fuel2 rest out dotdot.
  induction fuel1 as [|fuel1 IH]; intros fuel2 rest out dotdot H1 H2.
  - destruct rest; [|simpl in H1; lia]. by destruct fuel2.
  - destruct rest as [|c rest']; [by destruct fuel2|].
    destruct fuel2 as [|fuel2]; [simpl in H2; lia|].
    cbn [clean_loop]. simpl in H1, H2.
    destruct (slashb c) eqn:Hc; [apply IH; lia|].
    destruct (at_dot (String c rest')) as [rest1|] eqn:Hdot.
    { apply at_dot_length in Hdot. simpl in Hdot. apply IH; lia. }
    destruct (at_dotdot (String c rest')) as [rest2|] eqn:Hdd.
    { apply at_dotdot_length in Hdd. simpl in Hdd.
      repeat match goal with |- context [if ?b then _ else _] => destruct b end;
        apply IH; lia. }
    match goal with
    | |- context [copy_element ?r ?o] =>
        pose proof (copy_element_length rest' (o +:+ String c "")) as Hlen;
        assert (copy_element r o = copy_element rest' (o +:+ String c "")) as ->
          by (simpl; by rewrite Hc)
    end.
    destruct (copy_element rest' _) as [rest3 out2]. simpl in Hlen.
    apply IH; lia.
Qed.

(** [Clean] on the table of Go's own tests of [path.Clean]. *)
Example Clean_table :
  Clean <$>
    [""; "abc"; "abc/def"; "a/b/c"; "."; ".."; "../.."; "../../abc"; "/abc"; "/";
     "abc/"; "abc/def/"; "a/b/c/"; "./"; "../"; "../../"; "/abc/";
     "abc//def//ghi"; "//abc"; "///abc"; "//abc//"; "abc//";
     "abc/./def"; "/./abc/def"; "abc/.";
     "abc/def/ghi/../jkl"; "abc/def/../ghi/../jkl"; "abc/def/.."; "abc/def/../..";
     "/abc/def/../.."; "abc/def/../../.."; "/abc/def/../../..";
     "abc/def/../../../ghi/jkl/../../../mno";
     "abc/./../def"; "abc//./../def"; "abc/../../././../def"]
  = ["."; "abc"; "abc/def"; "a/b/c"; "."; ".."; "../.."; "../../abc"; "/abc"; "/";
     "abc"; "abc/def"; "a/b/c"; "."; ".."; "../.."; "/abc";
     "abc/def/ghi"; "/abc"; "/abc"; "/abc"; "abc";
     "abc/def"; "/abc/def"; "abc";
     "abc/def/jkl"; "abc/jkl"; "abc"; ".";
     "/"; ".."; "/";
     "../../mno";
     "def"; "def"; "../../def"].
Proof. vm_compute. reflexivity. Qed.

Lemma plain_cons g : plain g → ∃ c g', g = String c g' ∧ slashb c = false.
Proof.
  intros [Hp Hs]. destruct g as [|c g']; [done|].
  exists c, g'. split; [done|]. simpl in Hs. by apply orb_false_iff in Hs as [? _].
Qed.

Lemma at_dot_plain g rest : plain g → atBoundary rest → at_dot (g +:+ rest) = None.
Proof.
  intros [Hp Hs] Hb. destruct g as [|c g]; [done|].
  rewrite str_app_cons. simpl. destruct (dotb c) eqn:Ec; [|done].
  apply byte_eq_true in Ec as ->.
  destruct g as [|d g]; [done|]. rewrite str_app_cons.
  simpl in Hs. apply orb_false_iff in Hs as [Hd _].
  unfold slashb. by rewrite Hd.
Qed.

Lemma at_dotdot_plain g rest :
  plain g → atBoundary rest → at_dotdot (g +:+ rest) = None.
Proof.
  intros [Hp Hs] Hb. destruct g as [|c g]; [done|].
  rewrite str_app_cons. destruct g as [|d g].
  - rewrite str_app_nil_l. destruct rest as [|e rest]; [done|].
    simpl in Hb. subst e. simpl. by rewrite andb_false_r.
  - rewrite str_app_cons. simpl.
    destruct (dotb c) eqn:Ec; [|done]. destruct (dotb d) eqn:Ed; [|done]. simpl.
    apply byte_eq_true in Ec as ->. apply byte_eq_true in Ed as ->.
    destruct g as [|e g]; [done|]. rewrite str_app_cons.
    simpl in Hs. unfold slashb. by destruct (Strings.byte_eq e "/").
Qed.

Lemma copy_element_plain g rest out :
  Strings.ContainsByte g "/" = false → atBoundary rest →
  copy_element (g +:+ rest) out = (rest, out +:+ g).
Proof.
  revert out. induction g as [|c g IH]; intros out Hs Hb.
  - rewrite str_app_nil_l, str_app_nil_r.
    destruct rest as [|e rest]; [done|]. simpl in Hb. by subst e.
  - simpl in Hs. apply orb_false_iff in Hs as [Hc Hs].
    rewrite str_app_cons. simpl. unfold slashb. rewrite Hc.
    rewrite IH by done. by rewrite str_app_assoc.
Qed.

Lemma clean_loop_element fuel rooted g rest out dotdot :
  plain g → atBoundary rest →
  clean_loop (S fuel) rooted (g +:+ rest) out dotdot
  = clean_loop fuel rooted rest (out +:+ separator rooted out +:+ g) dotdot.
Proof.
  intros Hg Hb.
  pose proof (at_dot_plain g rest Hg Hb) as Hdot.
  pose proof (at_dotdot_plain g rest Hg Hb) as Hdd.
  destruct (plain_cons g Hg) as (c & g' & -> & Hc).
  rewrite str_app_cons in *.
  cbn [clean_loop]. rewrite Hc, Hdot, Hdd.
  rewrite <- str_app_cons.
  unfold separator.
  destruct ((rooted && negb (String.length out =? 1)%nat)
            || (negb rooted && negb (String.length out =? 0)%nat));
    rewrite copy_element_plain by (done || apply Hg).
  - by rewrite str_app_assoc.
  - by rewrite str_app_nil_l.
Qed.

Lemma clean_loop_slashes fuel rooted sl out dotdot :
  Http.all_bytes (Strings.ContainsByte "/") sl = true →
  clean_loop fuel rooted sl out dotdot = out.
Proof.
  revert fuel. induction sl as [|c sl IH]; intros fuel Hsl.
  - by destruct fuel.
  - destruct fuel as [|fuel]; [done|]. simpl in Hsl.
    apply andb_true_iff in Hsl as [Hc Hsl]. rewrite orb_false_r in Hc.
    cbn [clean_loop]. unfold slashb.
    apply byte_eq_true in Hc as <-. rewrite byte_eq_refl. by apply IH.
Qed.

Lemma slashes_boundary sl :
  Http.all_bytes (Strings.ContainsByte "/") sl = true → atBoundary sl.
Proof.
  destruct sl as [|c sl]; [done|]. simpl.
  intros [Hc _]%andb_true_iff. rewrite orb_false_r in Hc.
  by apply byte_eq_true in Hc.
Qed.

Lemma separator_after rooted out g :
  plain g → (rooted = true → (1 ≤ String.length out)%nat) →
  separator rooted (out +:+ separator rooted out +:+ g) = "/".
Proof.
  intros Hg Hout. destruct (plain_cons g Hg) as (c & g' & -> & _).
  unfold separator at 1. rewrite !str_length_app. simpl.
  destruct rooted; simpl.
  - specialize (Hout eq_refl).
    destruct (_ + _ =? 1)%nat eqn:E; [apply Nat.eqb_eq in E; lia|done].
  - destruct (_ + _ =? 0)%nat eqn:E; [apply Nat.eqb_eq in E; lia|done].
Qed.

(** *** Paths without a [..] element *)

Lemma Join_joinRest e l : Strings.Join (e :: l) "/" = e +:+ joinRest l.
Proof.
  revert e. induction l as [|x l IH]; intros e; [by rewrite str_app_nil_r|].
  rewrite Join_cons, IH. reflexivity.
Qed.

Lemma joinRest_cons e l : joinRest (e :: l) = String "/" (e +:+ joinRest l).
Proof. reflexivity. Qed.

Lemma joinRest_boundary l sl : atBoundary sl → atBoundary (joinRest l +:+ sl).
Proof.
  intros Hsl. destruct l as [|e l]; [by rewrite str_app_nil_l|].
  by rewrite joinRest_cons, str_app_cons.
Qed.

(** An element of a split that is not [..] is empty, [.] or real. *)
Lemma element_cases e :
  Strings.ContainsByte e "/" = false → e ≠ ".." → e = "" ∨ e = "." ∨ plain e.
Proof.
  intros Hs Hdd. unfold plain, plainElement.
  destruct (String.eqb_spec e ""); [by left|].
  destruct (String.eqb_spec e "."); [by right; left|].
  destruct (String.eqb_spec e ".."); [done|]. by right; right.
Qed.

Lemma realElements_cons e l :
  realElements (e :: l)
  = if plainElement e then e :: realElements l else realElements l.
Proof. reflexivity. Qed.

Lemma realElements_app l1 l2 :
  realElements (l1 ++ l2) = realElements l1 ++ realElements l2.
Proof. apply List.filter_app. Qed.

Lemma realElements_plain l :
  Forall (λ e, Strings.ContainsByte e "/" = false ∧ e ≠ "..") l →
  Forall plain (realElements l).
Proof.
  induction 1 as [|e l [Hs _] _ IH]; [constructor|].
  rewrite realElements_cons. destruct (plainElement e) eqn:Ee; [|done].
  by constructor.
Qed.

Lemma noReal_iff l : noReal l = true ↔ realElements l = [].
Proof.
  induction l as [|e l IH]; [done|].
  rewrite realElements_cons. simpl. destruct (plainElement e); simpl; [done|exact IH].
Qed.

Lemma hasDotDot_false l :
  hasDotDot l = false → (∀ x, x ∈ l → Strings.ContainsByte x "/" = false) →
  Forall (λ e, Strings.ContainsByte e "/" = false ∧ e ≠ "..") l.
Proof.
  intros Hdd Hs. apply Forall_forall. intros e He. split; [by apply Hs|].
  intros ->. unfold hasDotDot in Hdd.
  assert (existsb (String.eqb "..") l = true) as Habs; [|congruence].
  apply existsb_exists. exists "..". split; [by apply list_elem_of_In|done].
Qed.

(** The loop of [Clean] on the elements after the first: it skips the
    empty ones and the [.], and appends the real ones. *)
Lemma clean_loop_rest fuel rooted es sl out dotdot :
  Forall (λ e, Strings.ContainsByte e "/" = false ∧ e ≠ "..") es →
  Http.all_bytes (Strings.ContainsByte "/") sl = true →
  (rooted = true → (1 ≤ String.length out)%nat) →
  (String.length (joinRest es +:+ sl) ≤ fuel)%nat →
  clean_loop fuel rooted (joinRest es +:+ sl) out dotdot
  = match realElements es with
    | [] => out
    | gs => out +:+ separator rooted out +:+ Strings.Join gs "/"
    end.
Proof.
  intros Hes Hsl. revert fuel out.
  induction Hes as [|e es [Hs Hdd] Hes IH]; intros fuel out Hout Hfuel.
  - change (joinRest []) with "". rewrite str_app_nil_l.
    by apply clean_loop_slashes.
  - pose proof (joinRest_boundary es sl (slashes_boundary _ Hsl)) as Hb.
    rewrite joinRest_cons, str_app_cons, str_app_assoc in *.
    simpl in Hfuel. rewrite str_length_app in Hfuel.
    destruct fuel as [|fuel]; [lia|].
    cbn [clean_loop]. unfold slashb at 1. rewrite byte_eq_refl.
    rewrite realElements_cons.
    destruct (element_cases e Hs Hdd) as [->|[->|Hp]].
    + rewrite str_app_nil_l. change (plainElement "") with false. cbv iota.
      apply IH; [done|simpl in Hfuel; lia].
    + rewrite str_app_cons, str_app_nil_l. change (plainElement ".") with false.
      cbv iota. simpl in Hfuel.
      destruct fuel as [|fuel]; [lia|].
      assert (at_dot (String "." (joinRest es +:+ sl)) = Some (joinRest es +:+ sl))
        as Hdot.
      { destruct (joinRest es +:+ sl) as [|c r]; [done|]. simpl in Hb. by subst c. }
      cbn [clean_loop]. change (slashb ".") with false. cbv iota. rewrite Hdot.
      apply IH; [done|lia].
    + destruct (plain_cons e Hp) as (c & g' & Ee & _).
      destruct fuel as [|fuel]; [rewrite Ee in Hfuel; simpl in Hfuel; lia|].
      rewrite clean_loop_element by done.
      rewrite (proj1 Hp). rewrite IH.
      * destruct (realElements es) as [|g gs]; [done|].
        rewrite separator_after by done.
        rewrite Join_cons. by rewrite !str_app_assoc.
      * intros _. rewrite !str_length_app. rewrite Ee. simpl. lia.
      * rewrite Ee in Hfuel. simpl in Hfuel. lia.
Qed.

Lemma realElements_head_ne g gs l :
  realElements l = g :: gs → ∃ c g', g = String c g'.
Proof.
  intros Hl. assert (In g (realElements l)) as Hin by (rewrite Hl; by left).
  apply List.filter_In in Hin as [_ Hg].
  destruct g as [|c g']; [done|]. eauto.
Qed.

(** [Clean] on a path of at least two elements, none of them [..]: the
    real elements, after the root when the first element is empty. *)
Lemma Clean_elements e0 es sl :
  Forall (λ e, Strings.ContainsByte e "/" = false ∧ e ≠ "..") (e0 :: es) →
  es ≠ [] →
  Http.all_bytes (Strings.ContainsByte "/") sl = true →
  Clean (Strings.Join (e0 :: es) "/" +:+ sl) = cleanElements (e0 :: es).
Proof.
  intros [[Hs Hdd] Hes]%Forall_cons Hne Hsl.
  rewrite Join_joinRest, str_app_assoc.
  unfold cleanElements. change (default "" (head (e0 :: es))) with e0.
  rewrite realElements_cons.
  destruct (element_cases e0 Hs Hdd) as [->|[->|Hp]].
  - rewrite str_app_nil_l. change (plainElement "") with false. cbv iota.
    change (String.eqb "" "") with true.
    destruct es as [|e1 es']; [done|].
    pose proof (clean_loop_rest
                  (String.length (joinRest (e1 :: es') +:+ sl))
                  true (e1 :: es') sl "/" 1 Hes Hsl ltac:(simpl; lia) ltac:(lia))
      as Hloop.
    rewrite joinRest_cons, str_app_cons in *.
    unfold Clean. change (slashb "/") with true. cbv iota.
    cbn [Strings.slice_from]. rewrite slice_from_0.
    cbn [String.length clean_loop] in Hloop. change (slashb "/") with true in Hloop.
    cbv iota in Hloop.
    rewrite (clean_loop_fuel _ (String.length ((e1 +:+ joinRest es') +:+ sl)))
      by (simpl; lia).
    rewrite Hloop. unfold renderClean.
    destruct (realElements (e1 :: es')) as [|g gs]; [done|].
    change (separator true "/") with "". by rewrite str_app_nil_l.
  - rewrite str_app_cons, str_app_nil_l. change (plainElement ".") with false.
    cbv iota. change (String.eqb "." "") with false.
    pose proof (joinRest_boundary es sl (slashes_boundary _ Hsl)) as Hb.
    assert (at_dot (String "." (joinRest es +:+ sl)) = Some (joinRest es +:+ sl))
      as Hdot.
    { destruct (joinRest es +:+ sl) as [|c r]; [done|]. simpl in Hb. by subst c. }
    unfold Clean. change (slashb ".") with false. cbv iota.
    cbn [String.length clean_loop]. change (slashb ".") with false. cbv iota.
    rewrite Hdot.
    rewrite clean_loop_rest; [| done | done | done | lia].
    unfold renderClean.
    destruct (realElements es) as [|g gs] eqn:Er; [done|].
    destruct (realElements_head_ne g gs es Er) as (c & g' & ->).
    change (separator false "") with "". rewrite !str_app_nil_l.
    rewrite Join_joinRest, str_app_cons. done.
  - destruct (plain_cons e0 Hp) as (c & g' & Ee & Hc).
    rewrite (proj1 Hp).
    assert (String.eqb e0 "" = false) as -> by by rewrite Ee.
    pose proof (joinRest_boundary es sl (slashes_boundary _ Hsl)) as Hb.
    pose proof (clean_loop_element
                  (String.length (g' +:+ joinRest es +:+ sl)) false e0
                  (joinRest es +:+ sl) "" 0 Hp Hb) as Hel.
    rewrite clean_loop_rest in Hel; [| done | done | done | ].
    2:{ rewrite !str_length_app. lia. }
    change (separator false "") with "" in Hel. rewrite !str_app_nil_l in Hel.
    unfold Clean. rewrite Ee in *. rewrite str_app_cons in *.
    rewrite Hc. cbn [String.length]. rewrite Hel.
    unfold renderClean.
    destruct (realElements es) as [|g gs] eqn:Er; [done|].
    assert (separator false (String c g') = "/") as -> by done.
    rewrite Join_cons. rewrite str_app_cons. done.
Qed.
End clean_plain.

(** ** The tests of [util.URLIsSubpath] *)

Section clean_subpath.
Import Url Util Path Examples.

Lemma HasPrefix_app p x : Strings.HasPrefix (p +:+ x) p = true.
Proof.
  induction p as [|c p IH]; [by destruct x|].
  rewrite str_app_cons. simpl. by rewrite byte_eq_refl, IH.
Qed.

Lemma index_app p c x : Path.index (p +:+ String c x) (String.length p) = c.
Proof. induction p as [|d p IH]; [done|]. rewrite str_app_cons. exact IH. Qed.

(** The index [cPath[len(pPath)]] of [URLIsSubpath] is in range. *)
Lemma HasPrefix_index c p :
  Strings.HasPrefix c p = true → c ≠ p → is_Some (String.get (String.length p) c).
Proof.
  revert c. induction p as [|a p IH]; intros [|b c]; simpl; try done; eauto.
  intros [Hb Hp]%andb_true_iff Hne. apply byte_eq_true in Hb as ->.
  apply IH; [done|]. congruence.
Qed.

Lemma HasPrefix_iff c p : Strings.HasPrefix c p = true ↔ ∃ x, c = p +:+ x.
Proof.
  split; [|intros [x ->]; apply HasPrefix_app].
  revert c. induction p as [|a p IH]; intros c; [by exists c|].
  destruct c as [|b c]; [done|]. simpl.
  intros [Hb Hp]%andb_true_iff. apply byte_eq_true in Hb as ->.
  destruct (IH c Hp) as [x ->]. by exists x.
Qed.

Lemma cleanSubpath_iff p c :
  cleanSubpath p c = true ↔ c = p ∨ ∃ rest, c = p +:+ "/" +:+ rest.
Proof.
  unfold cleanSubpath. split.
  - destruct (_ <? _)%nat; [done|].
    destruct (String.eqb_spec c p) as [->|Hne]; [by left|].
    destruct (Strings.HasPrefix c p) eqn:Hpre; [|done]. simpl.
    apply HasPrefix_iff in Hpre as [x ->]. intros Hidx%byte_eq_true.
    destruct x as [|a x]; [by rewrite str_app_nil_r in Hne|].
    rewrite index_app in Hidx. subst a. right. by exists x.
  - intros [->|[rest ->]].
    + rewrite Nat.ltb_irrefl. by rewrite String.eqb_refl.
    + rewrite str_length_app.
      destruct (_ <? _)%nat eqn:E; [apply Nat.ltb_lt in E; lia|].
      destruct (String.eqb_spec (p +:+ "/" +:+ rest) p) as [Habs|_].
      { apply (f_equal String.length) in Habs. rewrite str_length_app in Habs.
        simpl in Habs. lia. }
      rewrite HasPrefix_app. simpl.
      change ("/" +:+ rest) with (String "/"%char rest).
      rewrite index_app. apply byte_eq_refl.
Qed.

(** [URLIsSubpath] without its log lines. *)
Lemma URLIsSubpath_eq parent child :
  URLIsSubpath parent child
  = if negb (String.eqb (Scheme parent) "")
       && negb (String.eqb (Scheme child) (Scheme parent)) then false
    else if negb (String.eqb (Host parent) "")
       && negb (String.eqb (Host child) (Host parent)) then false
    else if String.eqb (Path parent) "/" then true
    else cleanSubpath (Clean (Path parent)) (Clean (Path child)).
Proof.
  unfold URLIsSubpath, URLIsSubpath_logged, cleanSubpath.
  repeat match goal with |- context [if ?b then _ else _] => destruct b end; done.
Qed.

(** The tests on two clean paths of which the first has the elements [A]
    and the second the elements [A] and then [C]: the first is an ancestor
    of the second, or the second itself, unless it has no element and the
    second has one. *)
Lemma cleanSubpath_render rooted A C :
  Forall plain A → Forall plain C →
  cleanSubpath (renderClean rooted A) (renderClean rooted (A ++ C)) = true
  ↔ A ≠ [] ∨ C = [].
Proof.
  intros HA HC. rewrite cleanSubpath_iff. split.
  - intros Hsub. destruct A as [|a A]; [|by left]. right.
    destruct C as [|g C]; [done|]. exfalso.
    apply Forall_cons in HC as [Hg _].
    destruct (plain_cons g Hg) as (c & g' & -> & Hc).
    rewrite app_nil_l in Hsub. unfold renderClean in Hsub.
    rewrite Join_joinRest, str_app_cons in Hsub.
    destruct rooted.
    + change (Strings.Join [] "/") with "" in Hsub.
      rewrite !str_app_cons, !str_app_nil_l in Hsub.
      destruct Hsub as [[=]|[rest [= -> _]]]. done.
    + destruct Hsub as [Heq|[rest Heq]].
      * injection Heq as -> [Hg' _]%str_app_eq_nil. subst g'. by destruct Hg.
      * rewrite !str_app_cons, !str_app_nil_l in Heq.
        injection Heq as -> Heq.
        destruct g' as [|d g'']; [by destruct Hg|].
        rewrite str_app_cons in Heq. injection Heq as -> _.
        destruct Hg as [_ Hs]. simpl in Hs. discriminate Hs.
  - intros [HA'| ->].
    + destruct C as [|g C]; [rewrite app_nil_r; by left|]. right.
      exists (Strings.Join (g :: C) "/").
      pose proof (Join_app_ne A (g :: C) "/" HA' ltac:(done)) as HJ.
      unfold renderClean. destruct rooted; [by rewrite HJ, !str_app_assoc|].
      destruct A as [|a A]; [done|]. exact HJ.
    + rewrite app_nil_r. by left.
Qed.

End clean_subpath.

(** ** The parents of a URL and [util.URLIsSubpath] *)

Section parents_are_subpaths.
Import Url Util Examples.

Lemma GetParentPaths_path_ne (u p : URL) :
  p ∈ GetParentPaths u → Path p ≠ Path u.
Proof.
  rewrite GetParentPaths_closed.
  intros (i & -> & Hi%elem_of_seq)%list_elem_of_fmap. simpl.
  destruct (joinTo_proper (Path u) i ltac:(lia)) as (_ & rest & _ & Heq).
  destruct (TrimRight_app (Path u) "/") as (sl & Hu & _).
  remember (joinTo (Strings.Split (Strings.TrimRight (Path u) "/") slash) i)
    as parent eqn:Eparent.
  clear Eparent Hi. intros Habs.
  assert (String.length (Path u)
          = (String.length parent + 1 + String.length rest + String.length sl)%nat)
    as Hlen.
  { rewrite Hu at 1. rewrite Heq. rewrite !str_length_app. simpl. lia. }
  rewrite <- Habs in Hlen. lia.
Qed.

Lemma realElements_take_nil l (k : nat) :
  realElements l = [] → realElements (take k l) = [].
Proof.
  rewrite <- (take_drop k l) at 1. rewrite realElements_app.
  by intros [? _]%app_eq_nil.
Qed.

(** Which parent passes [URLIsSubpath], on a path without a [..] element:
    the parent [/], a parent with a real element, and any parent when the
    path has no real element. *)
Lemma parent_subpath_iff (u : URL) (i : nat) :
  let splitPath := Strings.Split (Strings.TrimRight (Path u) "/") slash in
  hasDotDot splitPath = false →
  (2 ≤ i < length splitPath)%nat →
  URLIsSubpath (set_Path u (joinTo splitPath i)) u = true
  ↔ joinTo splitPath i = "/"
    ∨ realElements (take i splitPath) ≠ []
    ∨ realElements splitPath = [].
Proof.
  intros splitPath Hdd Hi.
  assert (Forall (λ e, Strings.ContainsByte e "/" = false ∧ e ≠ "..") splitPath)
    as Hall.
  { apply hasDotDot_false; [done|]. intros x Hx.
    by apply (Split_no_sep (Strings.TrimRight (Path u) "/") slash). }
  destruct (TrimRight_app (Path u) "/") as (sl & Hu & Hsl).
  pose proof (Join_Split (Strings.TrimRight (Path u) "/") slash) as HJ.
  fold splitPath in HJ.
  rewrite URLIsSubpath_eq.
  change (Scheme (set_Path u (joinTo splitPath i))) with (Scheme u).
  change (Host (set_Path u (joinTo splitPath i))) with (Host u).
  change (Path (set_Path u (joinTo splitPath i))) with (joinTo splitPath i).
  rewrite !String.eqb_refl, !andb_false_r.
  destruct (String.eqb_spec (joinTo splitPath i) "/") as [Hroot|Hroot];
    [by split; [left|]|].
  destruct splitPath as [|e0 [|e1 es]] eqn:Es; [simpl in Hi; lia..|].
  destruct i as [|[|i]]; [lia..|].
  assert (Path.Clean (joinTo (e0 :: e1 :: es) (S (S i)))
          = cleanElements (take (S (S i)) (e0 :: e1 :: es))) as ->.
  { unfold joinTo.
    rewrite <- (str_app_nil_r (Strings.Join _ "/")).
    change (take (S (S i)) (e0 :: e1 :: es)) with (e0 :: e1 :: take i es).
    apply Clean_elements; [|done|done].
    change (e0 :: e1 :: take i es) with (take (S (S i)) (e0 :: e1 :: es)).
    by apply Forall_take. }
  assert (Path.Clean (Path u) = cleanElements (e0 :: e1 :: es)) as ->.
  { rewrite Hu, <- HJ. by apply Clean_elements. }
  unfold cleanElements.
  change (head (take (S (S i)) (e0 :: e1 :: es))) with (head (e0 :: e1 :: es)).
  assert (realElements (e0 :: e1 :: es)
          = realElements (take (S (S i)) (e0 :: e1 :: es))
            ++ realElements (drop (S (S i)) (e0 :: e1 :: es))) as ->
    by by rewrite <- realElements_app, take_drop.
  rewrite cleanSubpath_render.
  - split.
    + intros [Hne|Hnil]; [by right; left|].
      destruct (realElements (take (S (S i)) (e0 :: e1 :: es))) eqn:Er.
      * right; right. by rewrite Hnil.
      * by right; left.
    + intros [?|[Hne|Hnil]]; [done|by left|].
      right. by apply app_eq_nil in Hnil as [_ ?].
  - apply realElements_plain. by apply Forall_take.
  - apply realElements_plain. by apply Forall_drop.
Qed.

Lemma joinTo_2_root e0 e1 es :
  joinTo (e0 :: e1 :: es) 2 = "/" ↔ e0 = "" ∧ e1 = "".
Proof.
  unfold joinTo. cbn [take]. rewrite Join_cons. cbn [Strings.Join]. split.
  - destruct e0 as [|c e0].
    + rewrite str_app_nil_l, str_app_cons, str_app_nil_l. by intros [= ->].
    + rewrite str_app_cons. intros [= -> [_ Habs]%str_app_eq_nil].
      by apply str_app_eq_nil in Habs as [? _].
  - by intros [-> ->].
Qed.

(** Every parent passes exactly under the lexical condition. *)
Lemma cleanKeepsParents_iff l :
  (∀ i : nat, (2 ≤ i < length l)%nat →
     joinTo l i = "/" ∨ realElements (take i l) ≠ [] ∨ realElements l = [])
  ↔ cleanKeepsParents l = true.
Proof.
  unfold cleanKeepsParents.
  destruct l as [|e0 [|e1 [|e2 rest]]].
  1-3: (split; [intros _|intros _ i Hi; simpl in Hi; lia]);
       cbn [take]; by destruct (noReal _).
  cbn [take]. split.
  - intros H.
    destruct (noReal (e0 :: e1 :: e2 :: rest)) eqn:En; [done|].
    destruct (noReal [e0; e1]) eqn:E2; [|done]. cbn [negb orb].
    apply noReal_iff in E2.
    assert (realElements (e0 :: e1 :: e2 :: rest) ≠ []) as Hreal.
    { intros Hnil%noReal_iff. congruence. }
    destruct (H 2%nat ltac:(simpl; lia)) as [HJ|[Hr|Hr]]; [|done..].
    apply joinTo_2_root in HJ as [-> ->]. cbn [String.eqb andb].
    destruct (plainElement e2) eqn:Ee2; [done|]. exfalso.
    destruct rest as [|r rest].
    + apply Hreal. rewrite !realElements_cons, Ee2. done.
    + destruct (H 3%nat ltac:(simpl; lia)) as [HJ|[Hr|Hr]]; [| |done].
      * unfold joinTo in HJ. cbn [take] in HJ. rewrite !Join_cons in HJ.
        rewrite str_app_nil_l, str_app_cons in HJ. discriminate HJ.
      * apply Hr. cbn [take]. rewrite !realElements_cons, Ee2. done.
  - intros Hc i Hi.
    apply orb_true_iff in Hc as [Hc|Hc]; [apply orb_true_iff in Hc as [Hc|Hc]|].
    + right; right. by apply noReal_iff.
    + right; left. intros Hnil. apply (realElements_take_nil _ 2) in Hnil.
      rewrite take_take in Hnil. replace (2 `min` i)%nat with 2%nat in Hnil by lia.
      apply noReal_iff in Hnil. cbn [take] in Hnil. by rewrite Hnil in Hc.
    + apply andb_true_iff in Hc as [[H0 H1]%andb_true_iff H2].
      apply String.eqb_eq in H0 as ->. apply String.eqb_eq in H1 as ->.
      destruct i as [|[|[|i]]]; [lia..| |].
      * left. by apply joinTo_2_root.
      * right; left. cbn [take]. rewrite !realElements_cons, H2. done.
Qed.

(** C8, as the code has it.  A parent that [GetParentPaths(u)] returns
    never has the path of [u].  When the path of [u] (its trailing [/]
    trimmed, split on [/]) has no [..] element, every parent has
    [URLIsSubpath(p, u)] exactly when the path has no real element (one
    that is not empty and not [.]), or one of its first two elements is
    real, or its first two elements are empty and the third is real. *)
Theorem GetParentPaths_subpath (u : URL) :
  let splitPath := Strings.Split (Strings.TrimRight (Path u) "/") slash in
  (∀ p, p ∈ GetParentPaths u → Path p ≠ Path u)
  ∧ (hasDotDot splitPath = false →
     ((∀ p, p ∈ GetParentPaths u → URLIsSubpath p u = true)
      ↔ cleanKeepsParents splitPath = true)).
Proof.
  intros splitPath. split; [intros p; apply GetParentPaths_path_ne|].
  intros Hdd. rewrite <- cleanKeepsParents_iff.
  rewrite GetParentPaths_closed. fold splitPath. split.
  - intros H i Hi. apply (parent_subpath_iff u i Hdd Hi).
    apply H. apply list_elem_of_fmap. exists i. split; [done|].
    apply elem_of_seq. lia.
  - intros H p (i & -> & Hi%elem_of_seq)%list_elem_of_fmap.
    apply (parent_subpath_iff u i Hdd); [|apply H]; fold splitPath; lia.
Qed.

Lemma GetParentPaths_subpath_witness :
  let u := exampleURL "/x//y/./z/" in
  Path <$> GetParentPaths u = ["/x"; "/x/"; "/x//y"; "/x//y/."]
  ∧ ∀ p, p ∈ GetParentPaths u → URLIsSubpath p u = true ∧ Path p ≠ Path u.
Proof.
  intros u. split; [reflexivity|].
  destruct (GetParentPaths_subpath u) as [Hne Hsub].
  intros p Hp. split; [|by apply Hne].
  revert p Hp. apply Hsub; reflexivity.
Defined.

(** C8, as it is stated, fails on a path with a [..] element: [/a] is a
    parent of [/a/../b], whose clean path is [/b]. *)
Lemma GetParentPaths_subpath_counterexample :
  exampleURL "/a" ∈ GetParentPaths (exampleURL "/a/../b")
  ∧ URLIsSubpath (exampleURL "/a") (exampleURL "/a/../b") = false.
Proof. split; [vm_compute; left | reflexivity]. Qed.

(** So it does on a path with a [.] element and on one with empty
    elements, where the condition fails; on other paths with these
    elements, and on some with a [..] element, it holds. *)
Lemma GetParentPaths_not_subpath_other_elements :
  (exampleURL "/." ∈ GetParentPaths (exampleURL "/./a")
   ∧ URLIsSubpath (exampleURL "/.") (exampleURL "/./a") = false)
  ∧ (exampleURL "//" ∈ GetParentPaths (exampleURL "///a")
     ∧ URLIsSubpath (exampleURL "//") (exampleURL "///a") = false)
  ∧ (cleanKeepsParents ["a"; "."; "b"; "c"] = true
     ∧ cleanKeepsParents [""; "."; "a"] = false
     ∧ cleanKeepsParents [""; ""; ""; "a"] = false)
  ∧ forallb (λ p, URLIsSubpath p (exampleURL "../a/b"))
      (GetParentPaths (exampleURL "../a/b")) = true.
Proof.
  split; [|split; [|split]]; [split; [vm_compute|reflexivity]..| |reflexivity].
  - left.
  - right. left.
  - done.
Qed.

End parents_are_subpaths.

(** ** The HTML worker: [Eligible] *)

Section eligible.
Import Http Worker Examples.

Lemma byte_ToLower_EqualFold a b :
  Strings.is_upper b = false →
  Strings.byte_ToLower a = b ↔ byte_EqualFold a b = true.
Proof.
  intros Hb. unfold byte_EqualFold, Strings.byte_ToLower. rewrite Hb.
  rewrite andb_false_l, orb_false_r.
  destruct (Strings.is_upper a) eqn:Ha.
  - rewrite andb_true_l, orb_true_iff, !byte_eq_true.
    split; [by right|]. intros [->|?]; [congruence|done].
  - rewrite andb_false_l, orb_false_r. by rewrite byte_eq_true.
Qed.

Lemma ToLower_EqualFold s t :
  Http.all_bytes (λ c, negb (Strings.is_upper c)) t = true →
  Strings.ToLower s = t ↔ EqualFold s t = true.
Proof.
  revert t. induction s as [|a s IH]; intros [|b t] Ht; simpl; try done.
  simpl in Ht. apply andb_true_iff in Ht as [Hb Ht].
  apply negb_true_iff in Hb.
  rewrite andb_true_iff, <- IH, <- byte_ToLower_EqualFold by done.
  split; [by intros [= -> ->]|by intros [-> ->]].
Qed.

Lemma Header_Get_Content_type h :
  Header_Get h "Content-type" = Header_Get h "Content-Type".
Proof. reflexivity. Qed.

(** C6.  [Eligible] holds exactly when the Content-Type header of the
    response equals [text/html] up to the case of its letters and the
    content length is -1 or strictly between 0 and 10 MiB.  A response of
    length 0 is not eligible; a [text/html] response of length -1 is. *)
Theorem HTMLWorker_Eligible_iff (resp : Response) :
  (HTMLWorker_Eligible resp = true ↔
     EqualFold (Header_Get (RespHeader resp) "Content-Type") "text/html" = true
     ∧ (ContentLength resp = -1
        ∨ 0 < ContentLength resp < 10 * 1024 * 1024))
  ∧ HTMLWorker_Eligible (with_length resp 0) = false
  ∧ HTMLWorker_Eligible
      (with_length (with_header resp "Content-Type" ["text/html"]) (-1))
    = true.
Proof.
  split; [|split].
  - unfold HTMLWorker_Eligible. rewrite Header_Get_Content_type.
    rewrite <- ToLower_EqualFold by done.
    destruct (String.eqb_spec
                (Strings.ToLower (Header_Get (RespHeader resp) "Content-Type"))
                "text/html") as [->|Hne]; simpl.
    + rewrite orb_true_iff, andb_true_iff, Z.eqb_eq, !Z.ltb_lt.
      unfold maxHTMLWorkerSize. intuition lia.
    + intuition congruence.
  - unfold HTMLWorker_Eligible. simpl.
    by destruct (negb _).
  - unfold HTMLWorker_Eligible, Header_Get. simpl.
    change (CanonicalMIMEHeaderKey "Content-type") with "Content-Type".
    by rewrite lookup_insert_eq.
Qed.
End eligible.

(** ** The baseline of a group *)

Section baseline.
Import Results Examples.
Variable mapLower : string → string.

Abbreviation headerLoop := (Results.headerLoop mapLower).
Abbreviation NewBaselineResult := (Results.NewBaselineResult mapLower).

Lemma Matches_true b a :
  Matches b a = true ↔
    (PathSignificant b = true → Url.Path (URL a) = Url.Path (URL (Base b)))
    ∧ (CodeSignificant b = true → Code a = Code (Base b)).
Proof.
  unfold Matches.
  destruct (PathSignificant b), (CodeSignificant b); simpl;
    repeat match goal with
      | |- context [String.eqb ?x ?y] => destruct (String.eqb_spec x y)
      | |- context [Z.eqb ?x ?y] => destruct (Z.eqb_spec x y)
      end; simpl; intuition congruence.
Qed.

(** C1 at a failing input.  The baseline of one sample with the header
    [server: nginx] has [server] among its significant headers; a Result
    with the same path and code and the header [server: apache] does not
    follow the matching rule, and [Matches] accepts it: it compares the
    path and the code only. *)
Theorem Matches_ignores_headers :
  let sample := exampleResult "/404" 404 {[ "server" := ["nginx"] ]} in
  let r := exampleResult "/404" 404 {[ "server" := ["apache"] ]} in
  ∃ b, NewBaselineResult [sample] = Ok b
       ∧ HeadersSignificant b = ["server"]
       ∧ ¬ MatchesRule b r
       ∧ Matches b r = true.
Proof.
  intros sample r. eexists. split; [vm_compute; reflexivity|].
  split; [reflexivity|]. split; [|reflexivity].
  intros (_ & _ & Hh). specialize (Hh "server" ltac:(by left)).
  vm_compute in Hh. discriminate.
Qed.

Lemma headerMatches_cases rest k baseline :
  headerMatches rest k baseline = Panic "index out of range"
  ∨ ∃ m, headerMatches rest k baseline = Ok m.
Proof.
  induction rest as [|r rest IH]; simpl; [right; eauto|].
  destruct (first_value (ResponseHeader r) k) as [v|]; [|by left].
  destruct (negb (String.eqb v baseline)); [right; eauto|done].
Qed.

(** A key whose lower-case form is not denylisted and is not itself a key
    of the first sample makes the loop over the headers panic, wherever
    the key comes in the range. *)
Lemma headerLoop_panics keys r0 rest significant k :
  k ∈ keys →
  Util.StringSliceContains neverImportant (Strings.ToLowerUTF8 mapLower k) = false →
  ResponseHeader r0 !! Strings.ToLowerUTF8 mapLower k = None →
  headerLoop keys (r0 :: rest) significant = Panic "index out of range".
Proof.
  intros Hk Hnever Hnone. revert significant.
  induction keys as [|k' keys IH]; intros significant; [by apply elem_of_nil in Hk|].
  cbn [Results.headerLoop].
  destruct (Util.StringSliceContains neverImportant (Strings.ToLowerUTF8 mapLower k')) eqn:Hk'.
  - apply IH. apply elem_of_cons in Hk as [->|?]; [congruence|done].
  - destruct (first_value (ResponseHeader r0) (Strings.ToLowerUTF8 mapLower k')) as [baseline|] eqn:Hv;
      [|done].
    assert (k ∈ keys) as Hin.
    { apply elem_of_cons in Hk as [->|?]; [|done].
      unfold first_value in Hv. by rewrite Hnone in Hv. }
    destruct (headerMatches_cases rest (Strings.ToLowerUTF8 mapLower k') baseline)
      as [->|[m ->]]; [done|].
    destruct m; by apply IH.
Qed.

Lemma NewBaselineResult_panics r0 rest k :
  is_Some (ResponseHeader r0 !! k) →
  Util.StringSliceContains neverImportant (Strings.ToLowerUTF8 mapLower k) = false →
  ResponseHeader r0 !! Strings.ToLowerUTF8 mapLower k = None →
  NewBaselineResult (r0 :: rest) = Panic "index out of range".
Proof.
  intros [v Hv] Hnever Hnone. unfold Results.NewBaselineResult.
  destruct (adjacentLoop _ _ _) as [code path].
  rewrite (headerLoop_panics _ r0 rest [] k); [done| |done|done].
  apply list_elem_of_fmap. exists (k, v). split; [done|].
  by apply elem_of_map_to_list.
Qed.

(** *** What [NewBaselineResult] returns when it returns *)

Lemma adjacentLoop_cons a b l code path :
  adjacentLoop (a :: b :: l) code path
  = adjacentLoop (b :: l)
      (if negb (Code a =? Code b) then false else code)
      (if negb (String.eqb (Url.Path (URL a)) (Url.Path (URL b))) then false else path).
Proof. reflexivity. Qed.

Lemma adjacentLoop_code results code path :
  (adjacentLoop results code path).1 = true ↔
    code = true
    ∧ match results with
      | [] => True
      | r0 :: rest => Forall (λ r, Code r = Code r0) rest
      end.
Proof.
  revert code path. induction results as [|a results IH]; intros code path.
  - simpl. intuition.
  - destruct results as [|b l].
    + simpl. intuition.
    + rewrite adjacentLoop_cons, IH, Forall_cons.
      destruct (Z.eqb_spec (Code a) (Code b)) as [Heq|Hne]; simpl.
      * rewrite Heq. intuition.
      * split; [by intros [? _]|]. intros (_ & ? & _). congruence.
Qed.

Lemma adjacentLoop_path results code path :
  (adjacentLoop results code path).2 = true ↔
    path = true
    ∧ match results with
      | [] => True
      | r0 :: rest => Forall (λ r, Url.Path (URL r) = Url.Path (URL r0)) rest
      end.
Proof.
  revert code path. induction results as [|a results IH]; intros code path.
  - simpl. intuition.
  - destruct results as [|b l].
    + simpl. intuition.
    + rewrite adjacentLoop_cons, IH, Forall_cons.
      destruct (String.eqb_spec (Url.Path (URL a)) (Url.Path (URL b))) as [Heq|Hne]; simpl.
      * rewrite Heq. intuition.
      * split; [by intros [? _]|]. intros (_ & ? & _). congruence.
Qed.

Lemma headerMatches_Ok rest k baseline m :
  headerMatches rest k baseline = Ok m →
  (m = true ↔ Forall (λ r, first_value (ResponseHeader r) k = Some baseline) rest).
Proof.
  induction rest as [|r rest IH]; simpl.
  - intros [= <-]. split; [constructor|done].
  - destruct (first_value (ResponseHeader r) k) as [v|] eqn:Hv; [|done].
    destruct (String.eqb_spec v baseline) as [->|Hne]; simpl.
    + intros Hm. rewrite (IH Hm). split; [by constructor|].
      by intros [_ ?]%Forall_cons.
    + intros [= <-]. split; [done|].
      intros [Hr _]%Forall_cons. congruence.
Qed.

(** The header names a list of keys adds to the significant ones. *)
Lemma headerLoop_Ok keys r0 rest significant significant' :
  headerLoop keys (r0 :: rest) significant = Ok significant' →
  ∀ k, k ∈ significant' ↔
    k ∈ significant
    ∨ ∃ k0, k0 ∈ keys ∧ k = Strings.ToLowerUTF8 mapLower k0
        ∧ Util.StringSliceContains neverImportant k = false
        ∧ ∃ v, Forall (λ r, first_value (ResponseHeader r) k = Some v) (r0 :: rest).
Proof.
  revert significant. induction keys as [|k0 keys IH]; intros significant.
  - intros [= <-] k. split; [by left|]. intros [?|(k0 & []%elem_of_nil & _)]. done.
  - cbn [Results.headerLoop].
    destruct (Util.StringSliceContains neverImportant (Strings.ToLowerUTF8 mapLower k0)) eqn:Hnever.
    { intros Hok k. rewrite (IH _ Hok). split.
      - intros [?|(k1 & Hk1 & ?)]; [by left|]. right. exists k1. split; [by right|done].
      - intros [?|(k1 & [->|Hk1]%elem_of_cons & Hk & Hn & ?)]; [by left| |].
        + congruence.
        + right. exists k1. done. }
    destruct (first_value (ResponseHeader r0) (Strings.ToLowerUTF8 mapLower k0)) as [baseline|] eqn:Hb;
      [|done].
    destruct (headerMatches rest (Strings.ToLowerUTF8 mapLower k0) baseline) as [m| |] eqn:Hm; [|done..].
    pose proof (headerMatches_Ok _ _ _ _ Hm) as Hmatch.
    destruct m; intros Hok k; rewrite (IH _ Hok).
    + rewrite elem_of_app, list_elem_of_singleton. split.
      * intros [[?| ->]|(k1 & Hk1 & ?)]; [by left| |].
        -- right. exists k0. split; [by left|]. split; [done|]. split; [done|].
           exists baseline. constructor; [done|]. by apply Hmatch.
        -- right. exists k1. split; [by right|done].
      * intros [?|(k1 & [->|Hk1]%elem_of_cons & Hk & ?)]; [by left;left| |].
        -- left. by right.
        -- right. exists k1. done.
    + split.
      * intros [?|(k1 & Hk1 & ?)]; [by left|]. right. exists k1. split; [by right|done].
      * intros [?|(k1 & [->|Hk1]%elem_of_cons & -> & Hn & v & Hall)]; [by left| |].
        -- apply Forall_cons in Hall as [H0 Hall].
           assert (v = baseline) as -> by congruence.
           apply Hmatch in Hall. done.
        -- right. exists k1. eauto.
Qed.

(** When [NewBaselineResult] returns a baseline, the baseline is as C2
    says: the code and the path are significant exactly when all samples
    agree on them, a name is a significant header exactly when it is the
    lower-case form of a key of the first sample, is not denylisted, and
    all samples have the same first value under it; [etag] and
    [cache-control] are never significant. *)
Lemma NewBaselineResult_Ok results b :
  NewBaselineResult results = Ok b →
  ∃ r0 rest, results = r0 :: rest ∧ Base b = r0
    ∧ (CodeSignificant b = true ↔ Forall (λ r, Code r = Code r0) rest)
    ∧ (PathSignificant b = true ↔
         Forall (λ r, Url.Path (URL r) = Url.Path (URL r0)) rest)
    ∧ (∀ k, k ∈ HeadersSignificant b ↔
         ∃ k0, is_Some (ResponseHeader r0 !! k0) ∧ k = Strings.ToLowerUTF8 mapLower k0
           ∧ Util.StringSliceContains neverImportant k = false
           ∧ ∃ v, Forall (λ r, first_value (ResponseHeader r) k = Some v) results)
    ∧ ("etag" ∉ HeadersSignificant b) ∧ ("cache-control" ∉ HeadersSignificant b).
Proof.
  unfold Results.NewBaselineResult. destruct results as [|r0 rest]; [done|].
  destruct (adjacentLoop (r0 :: rest) true true) as [code path] eqn:Hadj.
  destruct (headerLoop _ _ _) as [significant| |] eqn:Hloop; [|done..].
  intros [= <-]. exists r0, rest. split; [done|]. split; [done|]. simpl.
  pose proof (adjacentLoop_code (r0 :: rest) true true) as Hc.
  pose proof (adjacentLoop_path (r0 :: rest) true true) as Hp.
  rewrite Hadj in Hc, Hp. simpl in Hc, Hp.
  assert (∀ k, k ∈ significant ↔
            ∃ k0, is_Some (ResponseHeader r0 !! k0) ∧ k = Strings.ToLowerUTF8 mapLower k0
              ∧ Util.StringSliceContains neverImportant k = false
              ∧ ∃ v, Forall (λ r, first_value (ResponseHeader r) k = Some v) (r0 :: rest))
    as Hsig.
  { intros k. rewrite (headerLoop_Ok _ _ _ _ _ Hloop k). split.
    - intros [[]%elem_of_nil|(k0 & Hk0 & ?)]. exists k0. split; [|done].
      apply list_elem_of_fmap in Hk0 as ([k1 v] & -> & Hin).
      apply elem_of_map_to_list in Hin. simpl. eauto.
    - intros (k0 & [v Hv] & ?). right. exists k0. split; [|done].
      apply list_elem_of_fmap. exists (k0, v). split; [done|].
      by apply elem_of_map_to_list. }
  split; [|split; [|split; [exact Hsig|]]].
  - rewrite Hc. intuition.
  - rewrite Hp. intuition.
  - split; intros (k0 & _ & _ & Hn & _)%Hsig; discriminate Hn.
Qed.

(** C2 at a failing input.  For one sample whose response header is
    [Content-Type: text/html], under the key [net/http] gives it,
    [NewBaselineResult] panics: it looks the header up under the lower-case
    key [content-type], gets the nil slice and takes its element 0. *)
Theorem NewBaselineResult_panics_on_canonical_key :
  NewBaselineResult
    [exampleResult "/404" 404 {[ "Content-Type" := ["text/html"] ]}]
  = Panic "index out of range".
Proof. vm_compute. reflexivity. Qed.
End baseline.

(** ** The work filter *)

Section work_filter.
Import Logging WorkFilter Examples.
Variable Task_String : Task.Task → string.

Abbreviation key := (WorkFilter.key Task_String).
Abbreviation taskTurn := (WorkFilter.taskTurn Task_String).
Abbreviation taskLoop := (WorkFilter.taskLoop Task_String).

Lemma sent_app evs1 evs2 : sent (evs1 ++ evs2) = sent evs1 ++ sent evs2.
Proof. apply omap_app. Qed.

Lemma counted_app evs1 evs2 : counted (evs1 ++ evs2) = counted evs1 ++ counted evs2.
Proof. apply omap_app. Qed.

Lemma sent_Log lines : sent (Log <$> lines) = [].
Proof. by induction lines. Qed.

Lemma counted_Log lines : counted (Log <$> lines) = [].
Proof. by induction lines. Qed.

Lemma exclusionLoop_events excl t :
  sent (exclusionLoop excl t).1 = []
  ∧ counted (exclusionLoop excl t).1 = (if (exclusionLoop excl t).2 then [1] else []).
Proof.
  induction excl as [|exclusion excl [IHs IHc]]; simpl; [done|].
  destruct (Util.URLIsSubpath_logged exclusion (Task.URL t)) as [lines [|]].
  - simpl. rewrite sent_app, counted_app, sent_Log, counted_Log. done.
  - destruct (exclusionLoop excl t) as [evs rejected]. simpl in *.
    rewrite sent_app, counted_app, sent_Log, counted_Log. done.
Qed.

(** A turn either sends the task on, its fragment cleared, and does not
    call the counter, or sends nothing and calls the counter once, with 1. *)
Lemma taskTurn_events f t :
  let evs := (taskTurn f t).2 in
  (sent evs = [cleared t] ∧ counted evs = [])
  ∨ (sent evs = [] ∧ counted evs = [1]).
Proof.
  unfold WorkFilter.taskTurn.
  destruct (done f !! Task_String (cleared t)); [by right|].
  simpl.
  pose proof (exclusionLoop_events (exclusions f) (cleared t)) as [Hs Hc].
  destruct (exclusionLoop (exclusions f) (cleared t)) as [evs [|]]; simpl in *.
  - by right.
  - left. rewrite sent_app, counted_app, Hs, Hc. done.
Qed.

Lemma taskTurn_seen f t :
  is_Some (done f !! key t) →
  taskTurn f t = (f, reject (cleared t) "already done").
Proof.
  intros [b Hb]. unfold WorkFilter.taskTurn, WorkFilter.key in *. by rewrite Hb.
Qed.

(** The key of the task is in [done] after its turn, whatever the turn
    did with the task. *)
Lemma taskTurn_records f t : is_Some (done (taskTurn f t).1 !! key t).
Proof.
  unfold WorkFilter.taskTurn, WorkFilter.key.
  destruct (done f !! Task_String (cleared t)) as [b|] eqn:Hb; simpl.
  - rewrite Hb. eauto.
  - destruct (exclusionLoop _ _) as [evs [|]]; simpl;
      rewrite lookup_insert_eq; eauto.
Qed.

(** (I2) [done] never shrinks. *)
Lemma taskTurn_mono f t k :
  is_Some (done f !! k) → is_Some (done (taskTurn f t).1 !! k).
Proof.
  intros Hk. unfold WorkFilter.taskTurn. fold (cleared t).
  destruct (done f !! Task_String (cleared t)) as [b|] eqn:Hb; simpl; [done|].
  destruct (exclusionLoop _ _) as [evs [|]]; simpl;
    (destruct (decide (Task_String (cleared t) = k)) as [->|Hne];
     [rewrite lookup_insert_eq; eauto | by rewrite lookup_insert_ne]).
Qed.

Lemma taskLoop_cons f t src :
  taskLoop f (t :: src)
  = ((taskLoop (taskTurn f t).1 src).1,
     (taskTurn f t).2 :: (taskLoop (taskTurn f t).1 src).2).
Proof.
  simpl. destruct (taskTurn f t) as [f1 evs]. simpl.
  by destruct (taskLoop f1 src).
Qed.

Lemma taskLoop_mono f src k :
  is_Some (done f !! k) → is_Some (done (taskLoop f src).1 !! k).
Proof.
  revert f. induction src as [|t src IH]; intros f Hk; [done|].
  rewrite taskLoop_cons. simpl. by apply IH, taskTurn_mono.
Qed.


(** A task whose key is in [done] when the loop starts is rejected as
    already done in its turn. *)
Lemma taskLoop_seen f src (j : nat) T :
  is_Some (done f !! key T) → src !! j = Some T →
  (taskLoop f src).2 !! j = Some (reject (cleared T) "already done").
Proof.
  revert f j. induction src as [|t src IH]; intros f j Hseen Hj; [done|].
  rewrite taskLoop_cons. destruct j as [|j]; simpl in *.
  - injection Hj as ->. by rewrite taskTurn_seen.
  - apply IH; [|done]. by apply taskTurn_mono.
Qed.

(** A task that comes after a task of the same key is rejected as already
    done in its turn. *)
Lemma taskLoop_duplicate f src (i j : nat) T T' :
  (i < j)%nat → src !! i = Some T → src !! j = Some T' → key T = key T' →
  (taskLoop f src).2 !! j = Some (reject (cleared T') "already done").
Proof.
  revert f i j. induction src as [|t src IH]; intros f i j Hij Hi Hj Hkey; [done|].
  rewrite taskLoop_cons. destruct j as [|j]; [lia|]. simpl in *.
  destruct i as [|i]; simpl in *.
  - injection Hi as ->. apply taskLoop_seen; [|done].
    rewrite <- Hkey. apply taskTurn_records.
  - apply (IH _ i); [lia|done..].
Qed.

Lemma taskLoop_recorded f src (i : nat) T :
  src !! i = Some T → is_Some (done (taskLoop f src).1 !! key T).
Proof.
  revert f i. induction src as [|t src IH]; intros f i Hi; [done|].
  rewrite taskLoop_cons. destruct i as [|i]; simpl in *.
  - injection Hi as ->. apply taskLoop_mono, taskTurn_records.
  - by apply (IH _ i).
Qed.


Lemma cleared_cleared t : cleared (cleared t) = cleared t.
Proof. reflexivity. Qed.

Lemma taskTurn_sent f t :
  sent (taskTurn f t).2 = []
  ∨ (sent (taskTurn f t).2 = [cleared t] ∧ done f !! key t = None).
Proof.
  unfold WorkFilter.taskTurn, WorkFilter.key.
  destruct (done f !! Task_String (cleared t)) eqn:Hseen; [by left|]. simpl.
  pose proof (exclusionLoop_events (exclusions f) (cleared t)) as [Hs _].
  destruct (exclusionLoop (exclusions f) (cleared t)) as [evs [|]]; simpl in *.
  - by left.
  - right. by rewrite sent_app, Hs.
Qed.

Lemma sent_concat_cons evs turns :
  sent (concat (evs :: turns)) = sent evs ++ sent (concat turns).
Proof. simpl. apply sent_app. Qed.

(** The keys of the tasks sent on are pairwise distinct, and none was in
    [done] when the loop started. *)
Lemma taskLoop_sent_NoDup f src :
  NoDup (key <$> sent (concat (taskLoop f src).2))
  ∧ ∀ t, t ∈ sent (concat (taskLoop f src).2) → done f !! key t = None.
Proof.
  revert f. induction src as [|t src IH]; intros f.
  - simpl. split; [constructor|]. by intros ? ?%elem_of_nil.
  - rewrite taskLoop_cons. cbn [snd]. rewrite sent_concat_cons.
    destruct (IH (taskTurn f t).1) as [Hnd Hnone].
    assert (∀ t', t' ∈ sent (concat (taskLoop (taskTurn f t).1 src).2) →
              done f !! key t' = None ∧ key t' ≠ key t) as Hrest.
    { intros t' Ht'. specialize (Hnone t' Ht'). split.
      - destruct (done f !! key t') eqn:E; [|done].
        pose proof (taskTurn_mono f t (key t') ltac:(eauto)) as [? Hsome]. congruence.
      - intros Heq. pose proof (taskTurn_records f t) as [? Hsome]. congruence. }
    destruct (taskTurn_sent f t) as [->|[-> Hfresh]]; simpl.
    + split; [done|]. intros t' Ht'. by apply Hrest.
    + split.
      * constructor; [|done]. intros (t' & Hk & Ht')%list_elem_of_fmap.
        apply Hrest in Ht' as [_ Hne]. apply Hne. rewrite <- Hk.
        unfold WorkFilter.key. by rewrite cleared_cleared.
      * intros t' [->|Ht']%elem_of_cons; [|by apply Hrest].
        unfold WorkFilter.key in *. by rewrite cleared_cleared.
Qed.

Lemma RunFilter_sent f src :
  sent (RunFilter Task_String f src).2 = sent (concat (taskLoop f src).2).
Proof.
  unfold RunFilter. destruct (taskLoop f src) as [f' turns]. simpl.
  rewrite sent_app. simpl. by rewrite app_nil_r.
Qed.


(** The turn of a task that is new and that an exclusion rejects: its key is
    recorded, the counter is called once and nothing is sent. *)
Lemma taskTurn_excluded f t :
  done f !! key t = None →
  (exclusionLoop (exclusions f) (cleared t)).2 = true →
  done (taskTurn f t).1 = <[key t := true]> (done f)
  ∧ sent (taskTurn f t).2 = [] ∧ counted (taskTurn f t).2 = [1].
Proof.
  intros Hnew Hexcl. unfold WorkFilter.taskTurn, WorkFilter.key in *.
  rewrite Hnew. simpl.
  pose proof (exclusionLoop_events (exclusions f) (cleared t)) as [Hs Hc].
  destruct (exclusionLoop (exclusions f) (cleared t)) as [evs rejected].
  simpl in *. subst rejected. done.
Qed.

(** C9.  The key of a task is recorded before the exclusions are looked at:
    the turn of a new task that an exclusion rejects leaves its key in
    [done].  So, whatever the turn of a task did with it, a later task of
    the same key is rejected as already done: the counter is called once,
    nothing is sent, and no exclusion is checked. *)
Theorem filter_records_before_exclusions f src (i j : nat) T T' :
  (i < j)%nat → src !! i = Some T → src !! j = Some T' → key T = key T' →
  (∀ f0 t, done f0 !! key t = None →
     (exclusionLoop (exclusions f0) (cleared t)).2 = true →
     done (taskTurn f0 t).1 !! key t = Some true ∧ sent (taskTurn f0 t).2 = [])
  ∧ is_Some (done (taskLoop f src).1 !! key T)
  ∧ ∃ evs, (taskLoop f src).2 !! j = Some evs
      ∧ evs = [Log (Logf LogDebug "Filter rejected %s: %s."
                      [ArgTask (cleared T'); ArgString "already done"]);
               Counter 1]
      ∧ sent evs = [] ∧ counted evs = [1] ∧ subpathChecks evs = [].
Proof.
  intros Hij Hi Hj Hkey. split; [|split].
  - intros f0 t Hnew Hexcl.
    destruct (taskTurn_excluded f0 t Hnew Hexcl) as (-> & Hs & _).
    by rewrite lookup_insert_eq.
  - by apply (taskLoop_recorded f src i).
  - eexists. split; [by apply (taskLoop_duplicate f src i j T T')|]. done.
Qed.
End work_filter.

Section work_filter_examples.
Import Logging WorkFilter Examples.


(** [/admin/x] is excluded in its first turn and already done in its
    second. *)
Lemma filter_records_before_exclusions_witness :
  let src := [exampleTask "/admin/x"; exampleTask "/admin/x"] in
  let turns := (taskLoop exampleString exampleFilter src).2 in
  (∃ evs, turns !! 0%nat = Some evs ∧ sent evs = []
          ∧ last evs = Some (Counter 1) ∧ length (subpathChecks evs) = 1%nat)
  ∧ ∃ evs, turns !! 1%nat = Some evs ∧ sent evs = [] ∧ counted evs = [1]
           ∧ subpathChecks evs = [].
Proof.
  intros src turns. split.
  - eexists. split; [vm_compute; reflexivity|]. vm_compute. done.
  - destruct (filter_records_before_exclusions exampleString exampleFilter src 0 1
                (exampleTask "/admin/x") (exampleTask "/admin/x")
                ltac:(lia) eq_refl eq_refl eq_refl)
      as (_ & _ & evs & Hevs & _ & Hs & Hc & Hchk).
    exists evs. done.
Defined.
End work_filter_examples.

(** ** The probe worker *)

Section probe_worker.
Import Logging Worker Examples.
Context {C : Type} `{Client C}.
Implicit Types (w : Worker C) (t : Task.Task).

Lemma requests_app (evs1 evs2 : list Event) :
  requests (evs1 ++ evs2) = requests evs1 ++ requests evs2.
Proof. apply omap_app. Qed.

Lemma resultsSent_app (evs1 evs2 : list Event) :
  resultsSent (evs1 ++ evs2) = resultsSent evs1 ++ resultsSent evs2.
Proof. apply omap_app. Qed.

Lemma requests_ofPage (evs : list PageEvent) : requests (ofPage <$> evs) = [].
Proof. induction evs as [|[] evs IH]; simpl; done. Qed.

Lemma quiet_refl w : quiet w w.
Proof. exists []. by rewrite app_nil_r. Qed.

Lemma quiet_trans w1 w2 w3 : quiet w1 w2 → quiet w2 w3 → quiet w1 w3.
Proof.
  intros (a & Ha & Hra & Hsa) (b & Hb & Hrb & Hsb). exists (a ++ b).
  rewrite Hb, Ha, <- app_assoc, requests_app, Hra, Hrb. split; [done|].
  split; [done|congruence].
Qed.

Lemma quiet_emit w evs : requests evs = [] → quiet w (emit w evs).
Proof. intros Hr. by exists evs. Qed.

Lemma quiet_Sleep w : quiet w (Sleep w).
Proof.
  unfold Sleep. destruct (negb _); [by apply quiet_emit|apply quiet_refl].
Qed.

Lemma quiet_spiderRedirect w t : quiet w (spiderRedirect w t).
Proof.
  unfold spiderRedirect. destruct (redir w); [by apply quiet_emit|apply quiet_refl].
Qed.

Lemma quiet_runPageWorkers w t resp result :
  quiet w (runPageWorkers w t resp result).2.
Proof.
  unfold runPageWorkers. destruct (pageWorker w) as [pw|]; [|apply quiet_refl].
  destruct (Eligible pw resp); [|apply quiet_refl].
  destruct (Handle pw t (Http.Body resp) result) as [result' evs]. simpl.
  apply quiet_emit. simpl. apply requests_ofPage.
Qed.

(** A call of [TryTask] makes one request, for its task, whatever comes of
    it. *)
Lemma TryTask_requests t w :
  ∃ new, events (final (TryTask t w)) = events w ++ new
         ∧ requests new = [requestOf (settings w) t]
         ∧ settings (final (TryTask t w)) = settings w.
Proof.
  set (w1 := set_redir (emit w [Log (Logf LogInfo "Trying: %s" [ArgTask t])]) None).
  destruct (Request (client w1) (Task.URL t) (Task.Host t)
              (Settings.Method (settings w1)) (Task.Header t)) as [c reply] eqn:Hreq.
  set (w2 := emit (set_client w1 c)
               [Requested (Task.URL t) (Task.Host t) (Settings.Method (settings w1))
                  (Task.Header t)]).
  set (w3 := match redirected reply with
             | Some req => set_redir w2 (Some req)
             | None => w2
             end).
  assert (∃ w4, final (TryTask t w) = w4 ∧ quiet w3 w4) as (w4 & -> & Hq).
  { unfold TryTask, defer. fold w1. rewrite Hreq. fold w2 w3.
    destruct (err reply) as [e|], (redir w3) as [rd|], (resp reply) as [rs|];
      simpl;
      repeat match goal with
        | |- context [runPageWorkers ?a ?b ?c ?d] =>
            pose proof (quiet_runPageWorkers a b c d);
            destruct (runPageWorkers a b c d); simpl in *
        end;
      eexists; (split; [reflexivity|]);
      repeat first
        [ apply quiet_Sleep
        | eapply quiet_trans; [|apply quiet_Sleep]
        | eapply quiet_trans; [|by apply quiet_emit]
        | eapply quiet_trans; [|eassumption]
        | eapply quiet_trans; [|apply quiet_spiderRedirect]
        | match goal with
          | |- quiet _ (if ?b then _ else _) => destruct b
          end
        | apply quiet_refl ]. }
  destruct Hq as (new & Hnew & Hr & Hs).
  exists ([Log (Logf LogInfo "Trying: %s" [ArgTask t]);
           Requested (Task.URL t) (Task.Host t) (Settings.Method (settings w))
             (Task.Header t)] ++ new).
  assert (events w3 = events w ++ [Log (Logf LogInfo "Trying: %s" [ArgTask t]);
            Requested (Task.URL t) (Task.Host t) (Settings.Method (settings w))
              (Task.Header t)] ∧ settings w3 = settings w) as [Hev3 Hs3].
  { unfold w3. destruct (redirected reply); simpl; by rewrite <- app_assoc. }
  rewrite Hnew, Hev3, <- app_assoc, requests_app, Hr, Hs, Hs3. done.
Qed.

(** C4.  When the request returns an error and no redirect was captured,
    [TryTask] sends one Result, whose error is that error and whose code
    is the status code of the response, or 0 without a response; it
    returns that code, and it has made one request. *)
Theorem TryTask_transport_error t w c reply e :
  Request (client w) (Task.URL t) (Task.Host t) (Settings.Method (settings w))
    (Task.Header t) = (c, reply) →
  err reply = Some e →
  redirected reply = None →
  let code := match resp reply with
              | Some r => Http.StatusCode r
              | None => 0
              end in
  ∃ result w' new,
    TryTask t w = Returns code w'
    ∧ Results.Error result = Some e
    ∧ Results.Code result = code
    ∧ events w' = events w ++ new
    ∧ resultsSent new = [result]
    ∧ requests new = [requestOf (settings w) t].
Proof.
  intros Hreq Herr Hredir code.
  set (w1 := set_redir (emit w [Log (Logf LogInfo "Trying: %s" [ArgTask t])]) None).
  set (w2 := emit (set_client w1 c)
               [Requested (Task.URL t) (Task.Host t) (Settings.Method (settings w))
                  (Task.Header t)]).
  set (result := ResultForError w2 t (resp reply) e).
  set (w4 := emit w2 [SendResult result]).
  assert (TryTask t w = Returns code (Sleep w4)) as Hrun.
  { unfold TryTask, defer. fold w1.
    change (client w1) with (client w). change (settings w1) with (settings w).
    rewrite Hreq, Hredir. fold w2.
    change (redir w2) with (@None Http.Request). rewrite Herr.
    fold result. fold w4. unfold code. by destruct (resp reply). }
  assert (∃ s, events (Sleep w4) = events w4 ++ s
               ∧ resultsSent s = [] ∧ requests s = []) as (s & Hs & Hrs & Hqs).
  { unfold Sleep. destruct (negb _).
    - by exists [Slept (Settings.SleepTime (settings w4))].
    - exists []. by rewrite app_nil_r. }
  exists result, (Sleep w4),
    ([Log (Logf LogInfo "Trying: %s" [ArgTask t]);
      Requested (Task.URL t) (Task.Host t) (Settings.Method (settings w))
        (Task.Header t);
      SendResult result] ++ s).
  split; [exact Hrun|]. split; [reflexivity|]. split.
  { unfold result, code, ResultForError. by destruct (resp reply). }
  split.
  { rewrite Hs. unfold w4, w2, w1. cbn [events emit set_client set_redir].
    by rewrite <- !app_assoc. }
  rewrite resultsSent_app, requests_app, Hrs, Hqs. done.
Qed.

(** *** Mangling *)

Lemma Mangle_names basename :
  Mangle basename
  = ["." +:+ basename +:+ ".swp"; basename +:+ "~"; basename +:+ ".bak";
     basename +:+ ".orig"].
Proof. reflexivity. Qed.

Lemma last_index_from_lastSlash i s found :
  Strings.last_index_from i s "/" found
  = match lastSlash s with
    | Some n => i + Z.of_nat n
    | None => found
    end.
Proof.
  revert i found. induction s as [|c s IH]; intros i found; [done|].
  cbn [Strings.last_index_from lastSlash]. rewrite IH.
  destruct (lastSlash s) as [n|]; [lia|].
  cbn [Strings.HasPrefix]. fold (Path.slashb c).
  destruct (Path.slashb c), s; simpl; lia.
Qed.

Lemma lastSlash_None s :
  lastSlash s = None ↔ Strings.ContainsByte s "/" = false.
Proof.
  induction s as [|c s IH]; [done|].
  cbn [lastSlash Strings.ContainsByte]. fold (Path.slashb c).
  destruct (lastSlash s) as [n|].
  - split; [done|]. intros [_ Hs]%orb_false_iff. by apply IH in Hs.
  - destruct (Path.slashb c); simpl; [done|]. by rewrite <- IH.
Qed.

Lemma slice_to_S c s (n : nat) :
  Strings.slice_to (String c s) (S n) = String c (Strings.slice_to s n).
Proof. reflexivity. Qed.

Lemma slice_to_0 s : Strings.slice_to s 0 = "".
Proof. by destruct s. Qed.

Lemma lastSlash_Some s (n : nat) :
  lastSlash s = Some n →
  s = Strings.slice_to s n +:+ "/" +:+ Strings.slice_from s (S n)
  ∧ Strings.ContainsByte (Strings.slice_from s (S n)) "/" = false.
Proof.
  revert n. induction s as [|c s IH]; intros n; [done|].
  cbn [lastSlash]. destruct (lastSlash s) as [m|] eqn:Hm.
  - intros [= <-]. destruct (IH m eq_refl) as [Hs Hb].
    rewrite slice_to_S, str_app_cons. cbn [Strings.slice_from].
    by rewrite <- Hs.
  - destruct (Path.slashb c) eqn:Hc; [|done]. intros [= <-].
    apply byte_eq_true in Hc as ->.
    rewrite slice_to_0. cbn [Strings.slice_from]. rewrite slice_from_0.
    split; [done|]. by apply lastSlash_None.
Qed.

Lemma URLIsDir_last u x c :
  Url.Path u = x +:+ String c "" → c ≠ "/"%char → Util.URLIsDir u = false.
Proof.
  intros Hp Hc. unfold Util.URLIsDir. rewrite Hp, str_length_app. simpl.
  destruct (_ =? 0)%nat eqn:E; [apply Nat.eqb_eq in E; lia|].
  replace (String.length x + 1 - 1)%nat with (String.length x) by lia.
  rewrite index_app. by apply byte_eq_false.
Qed.

Lemma tryEach_requests probes w w' :
  tryEach probes w = Returns () w' →
  ∃ new, events w' = events w ++ new
         ∧ requests new = requestOf (settings w) <$> probes
         ∧ settings w' = settings w.
Proof.
  revert w. induction probes as [|p probes IH]; intros w.
  - intros [= <-]. exists []. by rewrite app_nil_r.
  - unfold tryEach. cbn [forEach]. unfold bind at 1 2.
    destruct (TryTask_requests p w) as (new & Hnew & Hr & Hs).
    destruct (TryTask p w) as [code w1|msg w1]; [|done].
    simpl in *. intros Hrest. apply IH in Hrest as (new' & Hnew' & Hr' & Hs').
    exists (new ++ new'). rewrite Hnew', Hnew, <- app_assoc, requests_app, Hr, Hr'.
    rewrite Hs', Hs. done.
Qed.

(** C5.  With [settings.Mangle], [TryMangleTask] does nothing for a path
    without [/]; for a path with a [/], which is then [dirname/basename]
    with no [/] in the basename, it runs [TryTask] on four copies of the
    task, of paths [dirname/.basename.swp], [dirname/basename~],
    [dirname/basename.bak] and [dirname/basename.orig], in this order.
    None of the four is a directory, so [TryTask] does not add it to the
    queue; when the four calls return, the requests made are those of the
    four copies, in order. *)
Theorem TryMangleTask_probes t w :
  Settings.Mangle (settings w) = true →
  (Strings.ContainsByte (Url.Path (Task.URL t)) "/" = false →
   TryMangleTask t w = Returns () w)
  ∧ (Strings.ContainsByte (Url.Path (Task.URL t)) "/" = true →
     ∃ dirname basename,
       Url.Path (Task.URL t) = dirname +:+ "/" +:+ basename
       ∧ Strings.ContainsByte basename "/" = false
       ∧ let probe name :=
           Task.set_URL t (Url.set_Path (Task.URL t) (dirname +:+ "/" +:+ name)) in
         let probes :=
           [probe ("." +:+ basename +:+ ".swp"); probe (basename +:+ "~");
            probe (basename +:+ ".bak"); probe (basename +:+ ".orig")] in
         TryMangleTask t w = tryEach probes w
         ∧ Forall (λ p, Util.URLIsDir (Task.URL p) = false) probes
         ∧ ∀ w', TryMangleTask t w = Returns () w' →
             ∃ new, events w' = events w ++ new
                    ∧ requests new = requestOf (settings w) <$> probes).
Proof.
  intros Hmangle.
  assert (Strings.LastIndex (Url.Path (Task.URL t)) "/"
          = match lastSlash (Url.Path (Task.URL t)) with
            | Some n => Z.of_nat n
            | None => -1
            end) as Hlast.
  { unfold Strings.LastIndex. rewrite last_index_from_lastSlash.
    by destruct (lastSlash _). }
  split.
  - intros Hno%lastSlash_None. unfold TryMangleTask.
    rewrite Hmangle. unfold Task.Copy. rewrite Hlast, Hno. done.
  - intros Hslash.
    destruct (lastSlash (Url.Path (Task.URL t))) as [n|] eqn:Hn;
      [|apply lastSlash_None in Hn; congruence].
    destruct (lastSlash_Some _ _ Hn) as [Hpath Hbase].
    exists (Strings.slice_to (Url.Path (Task.URL t)) n),
           (Strings.slice_from (Url.Path (Task.URL t)) (S n)).
    split; [done|]. split; [done|]. intros probe probes.
    assert (TryMangleTask t w = tryEach probes w) as Heq.
    { unfold TryMangleTask. rewrite Hmangle. unfold Task.Copy.
      rewrite Hlast. cbn [negb].
      destruct (Z.of_nat n =? -1) eqn:E; [apply Z.eqb_eq in E; lia|].
      rewrite Nat2Z.id. replace (Z.to_nat (Z.of_nat n + 1)) with (S n) by lia.
      rewrite Mangle_names. reflexivity. }
    split; [exact Heq|]. split.
    + set (d := Strings.slice_to (Url.Path (Task.URL t)) n) in *.
      set (b := Strings.slice_from (Url.Path (Task.URL t)) (S n)) in *.
      repeat constructor; simpl.
      * apply (URLIsDir_last _ (d +:+ "/" +:+ "." +:+ b +:+ ".sw") "p"); [|done].
        simpl. by rewrite !str_app_assoc.
      * apply (URLIsDir_last _ (d +:+ "/" +:+ b) "~"); [|done].
        simpl. by rewrite !str_app_assoc.
      * apply (URLIsDir_last _ (d +:+ "/" +:+ b +:+ ".ba") "k"); [|done].
        simpl. by rewrite !str_app_assoc.
      * apply (URLIsDir_last _ (d +:+ "/" +:+ b +:+ ".ori") "g"); [|done].
        simpl. by rewrite !str_app_assoc.
    + intros w' Hret. rewrite Heq in Hret.
      apply tryEach_requests in Hret as (new & Hnew & Hr & _). eauto.
Qed.
End probe_worker.

Section probe_worker_examples.
Import Logging Worker Examples.

Lemma TryTask_transport_error_witness :
  ∃ result w' new,
    TryTask (exampleTask "/a") (exampleWorker [refused]) = Returns 0 w'
    ∧ Results.Error result = Some "connection refused"
    ∧ Results.Code result = 0
    ∧ events w' = events (exampleWorker [refused]) ++ new
    ∧ resultsSent new = [result]
    ∧ requests new = [requestOf exampleSettings (exampleTask "/a")].
Proof.
  exact (TryTask_transport_error (exampleTask "/a") (exampleWorker [refused])
           [] refused "connection refused" eq_refl eq_refl eq_refl).
Defined.

Lemma TryMangleTask_probes_witness :
  let w0 := exampleWorker [] in
  let t := exampleTask "/dir/file.txt" in
  let w := exampleWorker [plainReply; plainReply; plainReply; plainReply] in
  (Settings.Mangle (settings w0) = true
   ∧ Strings.ContainsByte (Url.Path (Task.URL (exampleTask "file.txt"))) "/" = false
   ∧ TryMangleTask (exampleTask "file.txt") w0 = Returns () w0)
  ∧ (Settings.Mangle (settings w) = true
     ∧ Strings.ContainsByte (Url.Path (Task.URL t)) "/" = true
     ∧ ∃ dirname basename,
         Url.Path (Task.URL t) = dirname +:+ "/" +:+ basename
         ∧ Strings.ContainsByte basename "/" = false
         ∧ let probe name :=
             Task.set_URL t (Url.set_Path (Task.URL t) (dirname +:+ "/" +:+ name)) in
           let probes :=
             [probe ("." +:+ basename +:+ ".swp"); probe (basename +:+ "~");
              probe (basename +:+ ".bak"); probe (basename +:+ ".orig")] in
           TryMangleTask t w = tryEach probes w
           ∧ Forall (λ p, Util.URLIsDir (Task.URL p) = false) probes
           ∧ ∀ w', TryMangleTask t w = Returns () w' →
               ∃ new, events w' = events w ++ new
                      ∧ requests new = requestOf (settings w) <$> probes)
  ∧ ∃ w', TryMangleTask t w = Returns () w'
      ∧ (λ r, Url.Path r.1.1.1) <$> requests (events w')
        = ["/dir/.file.txt.swp"; "/dir/file.txt~"; "/dir/file.txt.bak";
           "/dir/file.txt.orig"].
Proof.
  intros w0 t w. split; [|split].
  - split; [reflexivity|]. split; [reflexivity|].
    exact (proj1 (TryMangleTask_probes (exampleTask "file.txt") w0 eq_refl) eq_refl).
  - split; [reflexivity|]. split; [reflexivity|].
    exact (proj2 (TryMangleTask_probes t w eq_refl) eq_refl).
  - eexists. split; [vm_compute; reflexivity|]. vm_compute. reflexivity.
Defined.
End probe_worker_examples.


(** * More of the code *)

(** ** Package [util]: [DedupeStrings], [StatusCodeGroup], [URLIsDir] *)

Section util_more.
Import Url Util Examples.

Lemma dedupeLoop_out s table out :
  dedupeLoop s table out = out ++ dedupeLoop s table [].
Proof.
  revert table out. induction s as [|v s IH]; intros table out; simpl.
  - by rewrite app_nil_r.
  - destruct (table !! v); [apply IH|].
    rewrite (IH _ (out ++ [v])), (IH _ [v]). by rewrite <- app_assoc.
Qed.

(** The loop that starts with a table is the loop that starts with none,
    without the strings of the table. *)
Lemma dedupeLoop_table s (table : gmap string bool) :
  dedupeLoop s table [] = filter (λ y, table !! y = None) (dedupeLoop s ∅ []).
Proof.
  revert table. induction s as [|v s IH]; intros table; [done|].
  change (dedupeLoop (v :: s) ∅ []) with (dedupeLoop s (<[v:=true]> ∅) [v]).
  rewrite (dedupeLoop_out s _ [v]), (IH (<[v:=true]> ∅)). cbn [app].
  rewrite filter_cons. cbn [dedupeLoop]. destruct (table !! v) as [b|] eqn:Hv.
  - rewrite decide_False by congruence.
    rewrite IH, list_filter_filter. apply list_filter_iff.
    intros y. split; [|by intros [? _]]. intros Hy. split; [done|].
    destruct (decide (v = y)) as [->|Hne]; [congruence|].
    by rewrite lookup_insert_ne, lookup_empty.
  - rewrite decide_True by done.
    change ([] ++ [v]) with [v]. rewrite (dedupeLoop_out s _ [v]). cbn [app]. f_equal.
    rewrite IH, list_filter_filter. apply list_filter_iff.
    intros y. destruct (decide (v = y)) as [->|Hne].
    + rewrite !lookup_insert_eq. split; [done|by intros [_ ?]].
    + rewrite !lookup_insert_ne, lookup_empty by done. split; [done|by intros [? _]].
Qed.

Lemma DedupeStrings_cons x l :
  DedupeStrings (x :: l) = x :: filter (λ y, y ≠ x) (DedupeStrings l).
Proof.
  unfold DedupeStrings.
  change (dedupeLoop (x :: l) ∅ []) with (dedupeLoop l (<[x:=true]> ∅) [x]).
  rewrite (dedupeLoop_out l _ [x]), dedupeLoop_table. cbn [app]. f_equal.
  apply list_filter_iff. intros y. destruct (decide (x = y)) as [->|Hne].
  - rewrite lookup_insert_eq. split; [done|by intros []].
  - rewrite lookup_insert_ne, lookup_empty by done. split; [congruence|done].
Qed.

Lemma DedupeStrings_elem x l : x ∈ DedupeStrings l ↔ x ∈ l.
Proof.
  induction l as [|y l IH]; [done|].
  rewrite DedupeStrings_cons, !elem_of_cons, list_elem_of_filter, IH.
  destruct (decide (x = y)); intuition.
Qed.

Lemma DedupeStrings_NoDup l : NoDup (DedupeStrings l).
Proof.
  induction l as [|y l IH]; [constructor|].
  rewrite DedupeStrings_cons. constructor.
  - intros [Hne _]%list_elem_of_filter. by apply Hne.
  - by apply NoDup_filter.
Qed.

Lemma filter_ne_id (x : string) (l : list string) :
  x ∉ l → filter (λ y, y ≠ x) l = l.
Proof.
  induction l as [|y l IH]; [done|].
  intros [Hxy Hx]%not_elem_of_cons.
  rewrite filter_cons, decide_True by congruence. f_equal. by apply IH.
Qed.

Lemma DedupeStrings_id l : NoDup l → DedupeStrings l = l.
Proof.
  induction 1 as [|x l Hx Hnd IH]; [done|].
  rewrite DedupeStrings_cons, IH. f_equal. by apply filter_ne_id.
Qed.

(** X1.  [DedupeStrings] keeps the first occurrence of every string, in the
    order of the input: the result for [x :: l] is [x] followed by the result
    for [l] without [x]. *)
Theorem DedupeStrings_keeps_first (x : string) (l : list string) :
  DedupeStrings [] = []
  ∧ DedupeStrings (x :: l) = x :: filter (λ y, y ≠ x) (DedupeStrings l).
Proof. split; [done|apply DedupeStrings_cons]. Qed.

(** X2.  The result of [DedupeStrings] has no string twice, has the strings
    of the input and no other, and is a subsequence of the input; a second
    call changes nothing, and a slice without duplicates is returned as it
    is. *)
Theorem DedupeStrings_set (l : list string) :
  NoDup (DedupeStrings l)
  ∧ (∀ x, x ∈ DedupeStrings l ↔ x ∈ l)
  ∧ sublist (DedupeStrings l) l
  ∧ DedupeStrings (DedupeStrings l) = DedupeStrings l
  ∧ (DedupeStrings l = l ↔ NoDup l).
Proof.
  split; [apply DedupeStrings_NoDup|]. split; [intros x; apply DedupeStrings_elem|].
  split; [|split].
  - induction l as [|x l IH]; [done|].
    rewrite DedupeStrings_cons. apply sublist_skip.
    etrans; [apply sublist_filter|done].
  - apply DedupeStrings_id, DedupeStrings_NoDup.
  - split; [intros <-; apply DedupeStrings_NoDup|apply DedupeStrings_id].
Qed.

(** X3.  On a status code that is not negative, [StatusCodeGroup] gives the
    multiple of 100 at or below the code and less than 100 below it; a group
    is its own group. *)
Theorem StatusCodeGroup_bounds (code : Z) :
  0 ≤ code →
  StatusCodeGroup code ≤ code < StatusCodeGroup code + 100
  ∧ (100 | StatusCodeGroup code)
  ∧ StatusCodeGroup (StatusCodeGroup code) = StatusCodeGroup code.
Proof.
  intros Hc. unfold StatusCodeGroup.
  pose proof (Z.quot_rem' code 100) as Hqr.
  pose proof (Z.rem_bound_pos code 100 Hc ltac:(lia)) as Hr.
  split; [lia|]. split; [by apply Z.divide_factor_r|].
  rewrite Z.quot_mul by lia. done.
Qed.

Lemma StatusCodeGroup_bounds_witness :
  0 ≤ 404
  ∧ StatusCodeGroup 404 = 400
  ∧ StatusCodeGroup 404 ≤ 404 < StatusCodeGroup 404 + 100.
Proof.
  split; [lia|]. split; [reflexivity|].
  exact (proj1 (StatusCodeGroup_bounds 404 ltac:(lia))).
Defined.

(** *** [URLIsDir] and [URLHasExtension] *)

Lemma str_snoc s : s ≠ "" → ∃ x c, s = x +:+ String c "".
Proof.
  induction s as [|a s IH]; [done|]. intros _.
  destruct s as [|b s].
  - by exists "", a.
  - destruct (IH ltac:(done)) as (x & c & Hs). exists (String a x), c.
    by rewrite str_app_cons, <- Hs.
Qed.

Lemma last_index_byte_from_spec i s c found :
  Strings.last_index_byte_from i s c found
  = match lastIndexOf s c with
    | Some n => i + Z.of_nat n
    | None => found
    end.
Proof.
  revert i found. induction s as [|d s IH]; intros i found; [done|].
  cbn [Strings.last_index_byte_from lastIndexOf]. rewrite IH.
  destruct (lastIndexOf s c) as [n|]; [lia|].
  destruct (Strings.byte_eq d c); simpl; lia.
Qed.

Lemma LastIndexByte_spec s c :
  Strings.LastIndexByte s c
  = match lastIndexOf s c with
    | Some n => Z.of_nat n
    | None => -1
    end.
Proof.
  unfold Strings.LastIndexByte. rewrite last_index_byte_from_spec.
  by destruct (lastIndexOf s c).
Qed.

Lemma lastIndexOf_app x y c :
  lastIndexOf (x +:+ y) c
  = match lastIndexOf y c with
    | Some n => Some (String.length x + n)%nat
    | None => lastIndexOf x c
    end.
Proof.
  induction x as [|d x IH].
  - rewrite str_app_nil_l. by destruct (lastIndexOf y c).
  - rewrite str_app_cons. cbn [lastIndexOf]. rewrite IH.
    by destruct (lastIndexOf y c).
Qed.

Lemma lastIndexOf_None s c :
  lastIndexOf s c = None ↔ Strings.ContainsByte s c = false.
Proof.
  induction s as [|d s IH]; [done|].
  cbn [lastIndexOf Strings.ContainsByte].
  destruct (lastIndexOf s c) as [n|].
  - split; [done|]. intros [_ Hs]%orb_false_iff. by apply IH in Hs.
  - destruct (Strings.byte_eq d c); simpl; [done|]. by rewrite <- IH.
Qed.

Lemma lastIndexOf_lt s c (n : nat) :
  lastIndexOf s c = Some n → (n < String.length s)%nat.
Proof.
  revert n. induction s as [|d s IH]; intros n; [done|].
  cbn [lastIndexOf]. destruct (lastIndexOf s c) as [m|].
  - intros [= <-]. specialize (IH m eq_refl). simpl. lia.
  - destruct (Strings.byte_eq d c); [|done]. intros [= <-]. simpl. lia.
Qed.

(** A path is a directory part, empty or with a [/] at its end, and a last
    element without [/]. *)
Lemma path_split s :
  ∃ d b, s = d +:+ b ∧ (d = "" ∨ ∃ d', d = d' +:+ "/")
         ∧ Strings.ContainsByte b "/" = false.
Proof.
  induction s as [|c s (d & b & -> & Hd & Hb)].
  - exists "", "". auto.
  - destruct Hd as [->|[d' ->]].
    + rewrite str_app_nil_l. destruct (Strings.byte_eq c "/") eqn:Hc.
      * apply byte_eq_true in Hc as ->. exists "/", b. split; [done|].
        split; [right; by exists ""|done].
      * exists "", (String c b). split; [done|]. split; [by left|].
        simpl. by rewrite Hc.
    + exists (String c (d' +:+ "/")), b. split; [by rewrite !str_app_cons|].
      split; [right; by exists (String c d')|done].
Qed.

Lemma URLHasExtension_split u d b :
  Path u = d +:+ b → (d = "" ∨ ∃ d', d = d' +:+ "/") →
  Strings.ContainsByte b "/" = false →
  URLHasExtension u = Strings.ContainsByte b ".".
Proof.
  intros Hp Hd Hb. unfold URLHasExtension. rewrite !LastIndexByte_spec, Hp.
  rewrite !lastIndexOf_app.
  apply lastIndexOf_None in Hb. unfold slash, dot. rewrite Hb.
  destruct (lastIndexOf b ".") as [n|] eqn:Hdot.
  - assert (Strings.ContainsByte b "." = true) as ->.
    { destruct (Strings.ContainsByte b ".") eqn:E; [done|].
      apply lastIndexOf_None in E. congruence. }
    apply Z.ltb_lt.
    destruct (lastIndexOf d "/") as [m|] eqn:Hm; [|lia].
    apply lastIndexOf_lt in Hm. lia.
  - apply lastIndexOf_None in Hdot as ->. apply Z.ltb_ge.
    destruct Hd as [->|[d' ->]]; [done|].
    rewrite !lastIndexOf_app. simpl.
    destruct (lastIndexOf d' ".") as [m|] eqn:Hm; [|lia].
    apply lastIndexOf_lt in Hm. lia.
Qed.

Lemma str_snoc_inj x y c d :
  x +:+ String c "" = y +:+ String d "" → x = y ∧ c = d.
Proof.
  revert y. induction x as [|a x IH]; intros [|b y]; rewrite ?str_app_cons, ?str_app_nil_l.
  - by intros [= ->].
  - intros [= -> Hy]. by destruct y.
  - intros [= -> Hx]. by destruct x.
  - intros [= -> Hxy]. destruct (IH y Hxy) as [-> ->]. done.
Qed.

(** X4.  [URLIsDir] holds exactly for a path that is empty or ends with
    [/]; a URL that is a directory has no extension. *)
Theorem URLIsDir_iff (u : URL) :
  (URLIsDir u = true ↔ Path u = "" ∨ ∃ x, Path u = x +:+ "/")
  ∧ (URLIsDir u = true → URLHasExtension u = false).
Proof.
  assert (URLIsDir u = true ↔ Path u = "" ∨ ∃ x, Path u = x +:+ "/") as Hiff.
  { unfold URLIsDir. destruct (Path u) as [|a s] eqn:Hp.
    - simpl. intuition.
    - destruct (str_snoc (String a s) ltac:(done)) as (x & c & Hs). rewrite Hs.
      rewrite str_length_app. simpl.
      destruct (_ =? 0)%nat eqn:E; [apply Nat.eqb_eq in E; lia|].
      replace (String.length x + 1 - 1)%nat with (String.length x) by lia.
      rewrite index_app, byte_eq_true. split.
      + intros ->. right. by exists x.
      + intros [Hnil|[y Hy]]; [by destruct x|].
        by apply str_snoc_inj in Hy as [_ ->]. }
  split; [exact Hiff|]. intros [Hnil|[x Hx]]%Hiff.
  - by rewrite (URLHasExtension_split u "" "") by (rewrite ?Hnil; auto).
  - rewrite (URLHasExtension_split u (x +:+ "/") ""); [done| |eauto|done].
    by rewrite str_app_nil_r.
Qed.

(** X5.  [URLHasExtension] holds exactly when the last element of the path,
    what follows its last [/], has a [.]: a [.] in a directory name does not
    count, and a name that starts with [.] does. *)
Theorem URLHasExtension_iff (u : URL) :
  URLHasExtension u = true ↔
    ∃ d b, Path u = d +:+ b ∧ (d = "" ∨ ∃ d', d = d' +:+ "/")
           ∧ Strings.ContainsByte b "/" = false
           ∧ Strings.ContainsByte b "." = true.
Proof.
  split.
  - intros Hext. destruct (path_split (Path u)) as (d & b & Hp & Hd & Hb).
    exists d, b. rewrite (URLHasExtension_split u d b Hp Hd Hb) in Hext. done.
  - intros (d & b & Hp & Hd & Hb & Hdot).
    by rewrite (URLHasExtension_split u d b Hp Hd Hb).
Qed.

End util_more.


(** ** [util.URLIsSubpath] *)

Section subpath_more.
Import Url Util Path Examples.

(** *** Trailing slashes and [path.Clean] *)

Lemma slashes_atBoundary sl : slashes sl → atBoundary sl.
Proof. apply slashes_boundary. Qed.

Lemma at_dot_app rest sl :
  rest ≠ "" → atBoundary sl →
  at_dot (rest +:+ sl) = (λ r, r +:+ sl) <$> at_dot rest.
Proof.
  intros Hne Hsl. destruct rest as [|c rest]; [done|].
  rewrite str_app_cons. simpl. destruct (dotb c); [|done].
  destruct rest as [|d rest].
  - rewrite str_app_nil_l. destruct sl as [|e sl]; [done|].
    simpl in Hsl. subst e. done.
  - rewrite str_app_cons. by destruct (slashb d).
Qed.

Lemma at_dotdot_app rest sl :
  rest ≠ "" → atBoundary sl →
  at_dotdot (rest +:+ sl) = (λ r, r +:+ sl) <$> at_dotdot rest.
Proof.
  intros Hne Hsl. destruct rest as [|c [|d rest]]; [done| |].
  - rewrite str_app_cons, str_app_nil_l. destruct sl as [|e sl]; [done|].
    simpl in Hsl. subst e. simpl. by rewrite andb_false_r.
  - rewrite !str_app_cons. simpl. destruct (dotb c && dotb d); [|done].
    destruct rest as [|e rest].
    + rewrite str_app_nil_l. destruct sl as [|e sl]; [done|].
      simpl in Hsl. subst e. done.
    + rewrite str_app_cons. by destruct (slashb e).
Qed.

Lemma copy_element_app rest sl out :
  atBoundary sl →
  copy_element (rest +:+ sl) out
  = ((copy_element rest out).1 +:+ sl, (copy_element rest out).2).
Proof.
  intros Hsl. revert out. induction rest as [|c rest IH]; intros out.
  - rewrite str_app_nil_l. destruct sl as [|e sl]; [done|].
    simpl in Hsl. subst e. done.
  - rewrite str_app_cons. simpl. destruct (slashb c); [done|]. apply IH.
Qed.

(** The loop does not see the [/] that trail its input. *)
Lemma clean_loop_trailing fuel rooted rest sl out dotdot :
  slashes sl →
  (String.length (rest +:+ sl) ≤ fuel)%nat →
  clean_loop fuel rooted (rest +:+ sl) out dotdot
  = clean_loop fuel rooted rest out dotdot.
Proof.
  intros Hsl. pose proof (slashes_atBoundary sl Hsl) as Hb.
  revert rest out dotdot. induction fuel as [|fuel IH]; intros rest out dotdot Hlen.
  - rewrite str_length_app in Hlen. destruct rest; [|simpl in Hlen; lia].
    by destruct sl.
  - destruct rest as [|c rest'].
    { rewrite str_app_nil_l. by apply clean_loop_slashes. }
    rewrite str_length_app in Hlen. simpl in Hlen.
    assert (∀ r, (String.length r < String.length (String c rest'))%nat →
              (String.length (r +:+ sl) ≤ fuel)%nat) as Hfuel.
    { intros r Hr. rewrite str_length_app. simpl in Hr. lia. }
    pose proof (at_dot_app (String c rest') sl ltac:(done) Hb) as Hdot.
    pose proof (at_dotdot_app (String c rest') sl ltac:(done) Hb) as Hdd.
    pose proof (copy_element_app rest' sl) as Hcopy.
    rewrite str_app_cons in *. cbn [clean_loop]. rewrite Hdot, Hdd.
    destruct (slashb c) eqn:Hc.
    { apply IH. rewrite str_length_app. lia. }
    destruct (at_dot (String c rest')) as [r1|] eqn:E1;
      cbn [fmap option_fmap option_map].
    { apply at_dot_length in E1. apply IH, Hfuel. done. }
    destruct (at_dotdot (String c rest')) as [r2|] eqn:E2;
      cbn [fmap option_fmap option_map]; cbv zeta.
    { apply at_dotdot_length in E2.
      destruct (_ <? _)%nat; [by apply IH, Hfuel|].
      destruct (negb rooted); by apply IH, Hfuel. }
    cbn [copy_element]. rewrite Hc.
    match goal with
    | |- context [copy_element (rest' +:+ sl) ?o] =>
        rewrite (Hcopy o Hb);
        pose proof (copy_element_length rest' o) as Hl;
        destruct (copy_element rest' o) as [r3 o2]
    end.
    simpl in *. apply IH, Hfuel. simpl. lia.
Qed.

(** [Clean] does not see the [/] that trail a path that is not empty. *)
Lemma Clean_trailing s sl : s ≠ "" → slashes sl → Clean (s +:+ sl) = Clean s.
Proof.
  intros Hne Hsl. destruct s as [|c s]; [done|].
  rewrite str_app_cons. unfold Clean.
  assert (∀ rooted out dotdot,
            clean_loop (String.length (String c (s +:+ sl))) rooted (s +:+ sl) out dotdot
            = clean_loop (String.length (String c s)) rooted s out dotdot) as H1.
  { intros. rewrite clean_loop_trailing by (done || simpl; lia).
    apply clean_loop_fuel; simpl; rewrite ?str_length_app; lia. }
  assert (clean_loop (String.length (String c (s +:+ sl))) false
            (String c (s +:+ sl)) "" 0
          = clean_loop (String.length (String c s)) false (String c s) "" 0) as H2.
  { rewrite <- str_app_cons.
    rewrite clean_loop_trailing by (done || rewrite str_app_cons; simpl; lia).
    apply clean_loop_fuel; simpl; rewrite ?str_length_app; lia. }
  cbn [Strings.slice_from]. rewrite !slice_from_0, H1, H2. done.
Qed.

(** X6.  [URLIsSubpath(parent, child)] holds exactly when the scheme of the
    parent is empty or that of the child, its host is empty or that of the
    child, and its path is [/], or the clean path of the child is the clean
    path of the parent, alone or followed by a [/] and more.  Every URL is a
    subpath of itself. *)
Theorem URLIsSubpath_iff (parent child : URL) :
  (URLIsSubpath parent child = true ↔
     (Scheme parent = "" ∨ Scheme child = Scheme parent)
     ∧ (Host parent = "" ∨ Host child = Host parent)
     ∧ (Path parent = "/"
        ∨ Clean (Path child) = Clean (Path parent)
        ∨ ∃ rest, Clean (Path child) = Clean (Path parent) +:+ "/" +:+ rest))
  ∧ URLIsSubpath child child = true.
Proof.
  split.
  - rewrite URLIsSubpath_eq.
    destruct (String.eqb_spec (Scheme parent) "") as [Hs|Hs];
      destruct (String.eqb_spec (Scheme child) (Scheme parent)) as [Hs'|Hs'];
      destruct (String.eqb_spec (Host parent) "") as [Hh|Hh];
      destruct (String.eqb_spec (Host child) (Host parent)) as [Hh'|Hh'];
      destruct (String.eqb_spec (Path parent) "/") as [Hp|Hp]; simpl;
      rewrite ?cleanSubpath_iff; intuition congruence.
  - rewrite URLIsSubpath_eq, !String.eqb_refl, !andb_false_r.
    destruct (String.eqb (Path child) "/"); [done|].
    apply cleanSubpath_iff. by left.
Qed.

(** X7.  [URLIsSubpath] does not see the [/] that trail the path of the
    child, when this path is not empty, nor those that trail the path of the
    parent, when this path is neither empty nor [/]: [/admin/] is under the
    exclusion [/admin], and [/admin] under the exclusion [/admin/]. *)
Theorem URLIsSubpath_trailing_slashes (parent child : URL) (sl : string) :
  slashes sl →
  (Path child ≠ "" →
   URLIsSubpath parent (set_Path child (Path child +:+ sl))
   = URLIsSubpath parent child)
  ∧ (Path parent ≠ "" → Path parent ≠ "/" →
     URLIsSubpath (set_Path parent (Path parent +:+ sl)) child
     = URLIsSubpath parent child).
Proof.
  intros Hsl. split.
  - intros Hne. rewrite !URLIsSubpath_eq. simpl. by rewrite Clean_trailing.
  - intros Hne Hroot. rewrite !URLIsSubpath_eq. simpl.
    rewrite Clean_trailing by done.
    assert (String.eqb (Path parent +:+ sl) "/" = false) as ->.
    { apply String.eqb_neq. intros Habs.
      destruct (Path parent) as [|a [|b p]]; [done| |].
      - rewrite str_app_cons, str_app_nil_l in Habs.
        injection Habs as -> ->. done.
      - rewrite !str_app_cons in Habs. discriminate. }
    by apply String.eqb_neq in Hroot as ->.
Qed.

Lemma URLIsSubpath_trailing_slashes_witness :
  slashes "//"
  ∧ URLIsSubpath (exampleURL "/admin") (exampleURL "/admin//") = true
  ∧ URLIsSubpath (exampleURL "/admin//") (exampleURL "/admin") = true.
Proof.
  assert (slashes "//") as Hsl by reflexivity.
  split; [exact Hsl|]. split.
  - exact (proj1 (URLIsSubpath_trailing_slashes (exampleURL "/admin")
                    (exampleURL "/admin") "//" Hsl) ltac:(done)).
  - exact (proj2 (URLIsSubpath_trailing_slashes (exampleURL "/admin")
                    (exampleURL "/admin") "//" Hsl) ltac:(done) ltac:(done)).
Defined.

End subpath_more.

(** ** More of the work filter *)

Section filter_more.
Import Logging WorkFilter Url Examples.
Variable Task_String : Task.Task → string.

Abbreviation key := (WorkFilter.key Task_String).
Abbreviation taskTurn := (WorkFilter.taskTurn Task_String).
Abbreviation taskLoop := (WorkFilter.taskLoop Task_String).
Abbreviation RunFilter := (WorkFilter.RunFilter Task_String).

Lemma exclusionLoop_rejected excl t :
  (exclusionLoop excl t).2
  = existsb (λ exclusion, Util.URLIsSubpath exclusion (Task.URL t)) excl.
Proof.
  induction excl as [|exclusion excl IH]; [done|].
  cbn [exclusionLoop existsb]. unfold Util.URLIsSubpath at 1.
  destruct (Util.URLIsSubpath_logged exclusion (Task.URL t)) as [lines [|]];
    [done|].
  destruct (exclusionLoop excl t) as [evs rejected]. done.
Qed.

Local Ltac not_in_events H :=
  repeat (apply elem_of_cons in H as [H|H]; [discriminate H|]);
  by apply elem_of_nil in H.

Lemma exclusionLoop_no_Close excl t : Close ∉ (exclusionLoop excl t).1.
Proof.
  induction excl as [|exclusion excl IH]; cbn [exclusionLoop].
  { by intros ?%elem_of_nil. }
  destruct (Util.URLIsSubpath_logged exclusion (Task.URL t)) as [lines [|]].
  - cbn [fst]. intros [Hl|Hr]%elem_of_app.
    + by apply list_elem_of_fmap in Hl as (? & ? & ?).
    + unfold reject in Hr. not_in_events Hr.
  - destruct (exclusionLoop excl t) as [evs rejected]. cbn [fst] in *.
    intros [Hl|Hr]%elem_of_app; [|done].
    by apply list_elem_of_fmap in Hl as (? & ? & ?).
Qed.

Lemma key_cleared t : key (cleared t) = key t.
Proof. reflexivity. Qed.

(** What a turn sends. *)
Lemma taskTurn_forwards f t :
  sent (taskTurn f t).2
  = if bool_decide (done f !! key t = None) && negb (excluded f (Task.URL (cleared t)))
    then [cleared t] else [].
Proof.
  unfold WorkFilter.taskTurn, WorkFilter.key, excluded.
  destruct (done f !! Task_String (cleared t)) eqn:Hseen; [done|].
  cbn [exclusions set_done].
  rewrite bool_decide_eq_true_2 by done. cbn [andb].
  rewrite <- exclusionLoop_rejected.
  pose proof (exclusionLoop_events (exclusions f) (cleared t)) as [Hs _].
  destruct (exclusionLoop (exclusions f) (cleared t)) as [evs [|]];
    cbn [fst snd negb] in *; [done|].
  by rewrite sent_app, Hs.
Qed.

Lemma taskTurn_frame f t :
  exclusions (taskTurn f t).1 = exclusions f
  ∧ settings (taskTurn f t).1 = settings f.
Proof.
  unfold WorkFilter.taskTurn.
  destruct (done f !! Task_String (cleared t)); [done|].
  cbn [exclusions set_done].
  by destruct (exclusionLoop (exclusions f) (cleared t)) as [evs [|]].
Qed.

Lemma taskTurn_done f t :
  done (taskTurn f t).1
  = if done f !! key t is Some _ then done f else <[key t := true]> (done f).
Proof.
  unfold WorkFilter.taskTurn, WorkFilter.key.
  destruct (done f !! Task_String (cleared t)); [done|].
  cbn [exclusions set_done].
  by destruct (exclusionLoop (exclusions f) (cleared t)) as [evs [|]].
Qed.

Lemma taskTurn_done_iff f t k :
  is_Some (done (taskTurn f t).1 !! k) ↔ is_Some (done f !! k) ∨ key t = k.
Proof.
  rewrite taskTurn_done. destruct (done f !! key t) eqn:Hseen.
  - split; [by left|]. intros [?| <-]; [done|]. by rewrite Hseen.
  - destruct (decide (key t = k)) as [<-|Hne].
    + rewrite lookup_insert_eq. split; eauto.
    + rewrite lookup_insert_ne by done. split; [by left|]. by intros [?|?].
Qed.

Lemma taskTurn_no_Close f t : Close ∉ (taskTurn f t).2.
Proof.
  unfold WorkFilter.taskTurn.
  destruct (done f !! Task_String (cleared t)).
  { unfold reject. cbn [snd]. intros Hr. not_in_events Hr. }
  cbn [exclusions set_done].
  pose proof (exclusionLoop_no_Close (exclusions f) (cleared t)) as Hno.
  destruct (exclusionLoop (exclusions f) (cleared t)) as [evs [|]];
    cbn [fst snd] in *; [done|].
  intros [?|Hr]%elem_of_app; [done|]. not_in_events Hr.
Qed.

Lemma taskLoop_frame f src :
  exclusions (taskLoop f src).1 = exclusions f
  ∧ settings (taskLoop f src).1 = settings f.
Proof.
  revert f. induction src as [|t src IH]; intros f; [done|].
  rewrite taskLoop_cons. cbn [fst].
  destruct (IH (taskTurn f t).1) as [-> ->]. apply taskTurn_frame.
Qed.

Lemma taskLoop_done_iff f src k :
  is_Some (done (taskLoop f src).1 !! k)
  ↔ is_Some (done f !! k) ∨ ∃ t, t ∈ src ∧ key t = k.
Proof.
  revert f. induction src as [|t src IH]; intros f.
  - cbn. split; [by left|]. intros [?|(t & Ht & _)]; [done|].
    by apply elem_of_nil in Ht.
  - rewrite taskLoop_cons. cbn [fst]. rewrite IH, taskTurn_done_iff. split.
    + intros [[?|?]|(t' & Ht' & Hk)]; [by left|right..].
      * exists t. split; [left|done].
      * exists t'. split; [by right|done].
    + intros [?|(t' & [->|Ht']%elem_of_cons & Hk)]; [by left; left|by left; right|].
      right. by exists t'.
Qed.

(** The turn of the task at index [j] starts from the state the loop leaves
    after the tasks before it. *)
Lemma taskLoop_lookup f src (j : nat) T :
  src !! j = Some T →
  (taskLoop f src).2 !! j = Some (taskTurn (taskLoop f (take j src)).1 T).2.
Proof.
  revert f j. induction src as [|t src IH]; intros f j Hj; [done|].
  destruct j as [|j].
  - rewrite taskLoop_cons. simpl in *. by injection Hj as ->.
  - change (take (S j) (t :: src)) with (t :: take j src).
    rewrite !taskLoop_cons. simpl in *. by apply IH.
Qed.

Lemma excluded_frame f f' u :
  exclusions f' = exclusions f → excluded f' u = excluded f u.
Proof. unfold excluded. by intros ->. Qed.

(** X8.  The task read at index [j] is sent on exactly when its key was not
    in [done] when the filter started, no task read before it has its key,
    and no exclusion has its URL as a subpath; what is sent is then the task
    with its fragment cleared. *)
Theorem filter_forwards_iff f src (j : nat) T :
  src !! j = Some T →
  (forwarded (taskLoop f src).2 j ↔
     done f !! key T = None
     ∧ (∀ (i : nat) T', (i < j)%nat → src !! i = Some T' → key T' ≠ key T)
     ∧ excluded f (Task.URL (cleared T)) = false)
  ∧ ∀ evs, (taskLoop f src).2 !! j = Some evs →
      sent evs = [] ∨ sent evs = [cleared T].
Proof.
  intros Hj. unfold forwarded. rewrite (taskLoop_lookup f src j T Hj).
  set (fj := (taskLoop f (take j src)).1).
  assert (excluded fj (Task.URL (cleared T)) = excluded f (Task.URL (cleared T)))
    as Hexcl by apply excluded_frame, taskLoop_frame.
  assert (done fj !! key T = None ↔
            done f !! key T = None
            ∧ ∀ (i : nat) T', (i < j)%nat → src !! i = Some T' → key T' ≠ key T)
    as Hfresh.
  { rewrite !eq_None_not_Some. unfold fj. rewrite taskLoop_done_iff. split.
    - intros Hno. split; [tauto|]. intros i T' Hi HT' Hk. apply Hno. right.
      exists T'. split; [|done]. apply (list_elem_of_lookup_2 _ i).
      by rewrite lookup_take_lt.
    - intros [Hno Hbefore] [?|(T' & [i Hi]%list_elem_of_lookup_1 & Hk)]; [done|].
      apply lookup_take_Some in Hi as [Hi Hlt]. by apply (Hbefore i T'). }
  split.
  - split.
    + intros (evs & [= <-] & Hsent). rewrite taskTurn_forwards, Hexcl in Hsent.
      destruct (bool_decide (done fj !! key T = None)) eqn:Hd; [|done].
      apply bool_decide_eq_true in Hd. apply Hfresh in Hd as [? ?].
      destruct (excluded f (Task.URL (cleared T))); done.
    + intros (Hnew & Hbefore & Hno). eexists. split; [done|].
      rewrite taskTurn_forwards, Hexcl, Hno.
      rewrite bool_decide_eq_true_2; [done|]. by apply Hfresh.
  - intros evs [= <-]. rewrite taskTurn_forwards.
    destruct (_ && _); [by right|by left].
Qed.

Lemma taskLoop_account f src :
  let evs := concat (taskLoop f src).2 in
  length src = (length (sent evs) + length (counted evs))%nat
  ∧ Forall (eq 1) (counted evs)
  ∧ sublist (sent evs) (cleared <$> src)
  ∧ Close ∉ evs.
Proof.
  revert f. induction src as [|t src IH]; intros f.
  - cbn. repeat split; [constructor..|]. by intros ?%elem_of_nil.
  - rewrite taskLoop_cons. cbn [snd concat]. cbv zeta.
    rewrite sent_app, counted_app, !length_app.
    destruct (IH (taskTurn f t).1) as (Hlen & Hone & Hsub & Hclose).
    pose proof (taskTurn_no_Close f t) as Hno.
    cbn [length fmap list_fmap]. rewrite Hlen.
    destruct (taskTurn_events Task_String f t) as [[-> ->]|[-> ->]]; cbn.
    + repeat split; [done|by apply sublist_skip|].
      intros [?|?]%elem_of_app; done.
    + repeat split; [lia|by constructor|by apply sublist_cons|].
      intros [?|?]%elem_of_app; done.
Qed.

(** X9.  [RunFilter] accounts for every task it reads: a task is either sent
    on or counted as done with one call [counter(1)], never both and never
    neither, so that the tasks read are as many as the sends and the calls
    together.  The tasks sent keep the order they were read in, and the
    output channel is closed once, after the last send. *)
Theorem RunFilter_accounts (f : WorkFilter) (src : list Task.Task) :
  let evs := (RunFilter f src).2 in
  length src = (length (sent evs) + length (counted evs))%nat
  ∧ Forall (eq 1) (counted evs)
  ∧ sublist (sent evs) (cleared <$> src)
  ∧ ∃ before, evs = before ++ [Close] ∧ Close ∉ before.
Proof.
  cbv zeta. rewrite RunFilter_sent.
  destruct (taskLoop_account f src) as (Hlen & Hone & Hsub & Hclose).
  unfold WorkFilter.RunFilter.
  destruct (taskLoop f src) as [f' turns]. cbn [fst snd] in *.
  rewrite counted_app. cbn. rewrite app_nil_r.
  repeat split; [done..|]. by exists (concat turns).
Qed.

Lemma taskLoop_sent_elem f src t :
  t ∈ sent (concat (taskLoop f src).2) →
  ∃ T, T ∈ src ∧ t = cleared T ∧ excluded f (Task.URL t) = false.
Proof.
  revert f. induction src as [|T src IH]; intros f.
  { by intros ?%elem_of_nil. }
  rewrite taskLoop_cons. cbn [snd]. rewrite sent_concat_cons.
  intros [Hin|Hin]%elem_of_app.
  - rewrite taskTurn_forwards in Hin.
    destruct (bool_decide _); [|by apply elem_of_nil in Hin].
    destruct (excluded f (Task.URL (cleared T))) eqn:Hexcl;
      [by apply elem_of_nil in Hin|].
    apply list_elem_of_singleton in Hin as ->. exists T. split; [left|done].
  - apply IH in Hin as (T' & HT' & -> & Hexcl). exists T'.
    split; [by right|]. split; [done|]. rewrite <- Hexcl.
    symmetry. apply excluded_frame, taskTurn_frame.
Qed.

(** X10.  Whatever [RunFilter] sends is safe to request: a task sent on is
    one of the tasks read, with an empty fragment; no exclusion of the
    filter has its URL as a subpath, and its key was not in [done] when the
    filter started. *)
Theorem RunFilter_sends_only_allowed (f : WorkFilter) (src : list Task.Task)
    (t : Task.Task) :
  t ∈ sent (RunFilter f src).2 →
  (∃ T, T ∈ src ∧ t = cleared T)
  ∧ Fragment (Task.URL t) = ""
  ∧ (∀ exclusion, exclusion ∈ exclusions f →
       Util.URLIsSubpath exclusion (Task.URL t) = false)
  ∧ done f !! Task_String t = None.
Proof.
  rewrite RunFilter_sent. intros Hin.
  pose proof (proj2 (taskLoop_sent_NoDup Task_String f src) t Hin) as Hnew.
  apply taskLoop_sent_elem in Hin as (T & HT & -> & Hexcl).
  split; [by exists T|]. split; [done|]. split; [|done].
  intros exclusion He. unfold excluded in Hexcl.
  destruct (Util.URLIsSubpath exclusion (Task.URL (cleared T))) eqn:E; [|done].
  assert (existsb (λ e, Util.URLIsSubpath e (Task.URL (cleared T))) (exclusions f)
          = true) as Habs; [|congruence].
  apply existsb_exists. exists exclusion. split; [|done].
  by apply list_elem_of_In.
Qed.

(** X11.  When [RunFilter] is over, [done] holds the keys it held before and
    the keys of all tasks read, sent or not, and no other; the exclusions and
    the settings are those of the start. *)
Theorem RunFilter_state (f : WorkFilter) (src : list Task.Task) :
  let f' := (RunFilter f src).1 in
  (∀ k, is_Some (done f' !! k)
        ↔ is_Some (done f !! k) ∨ ∃ t, t ∈ src ∧ key t = k)
  ∧ exclusions f' = exclusions f
  ∧ settings f' = settings f.
Proof.
  cbv zeta. unfold WorkFilter.RunFilter.
  pose proof (taskLoop_done_iff f src) as Hdone.
  pose proof (taskLoop_frame f src) as [Hex Hset].
  destruct (taskLoop f src) as [f' turns]. done.
Qed.

Lemma taskLoop_dedupe f src :
  exclusions f = [] →
  key <$> sent (concat (taskLoop f src).2)
  = Util.dedupeLoop (key <$> src) (done f) [].
Proof.
  revert f. induction src as [|t src IH]; intros f Hex; [done|].
  rewrite taskLoop_cons. cbn [snd]. rewrite sent_concat_cons, fmap_app.
  rewrite IH by (by rewrite (proj1 (taskTurn_frame f t))).
  rewrite taskTurn_forwards, taskTurn_done.
  unfold excluded. rewrite Hex. cbn [existsb negb fmap list_fmap Util.dedupeLoop].
  rewrite andb_true_r.
  destruct (done f !! key t) eqn:Hseen.
  - by rewrite bool_decide_eq_false_2.
  - rewrite bool_decide_eq_true_2 by done.
    rewrite (dedupeLoop_out _ _ ([] ++ [key t])). done.
Qed.

Section with_Parse.
Variable url_Parse : string → URL + string.

Abbreviation parseLoop := (WorkFilter.parseLoop url_Parse).
Abbreviation NewWorkFilter := (WorkFilter.NewWorkFilter url_Parse).

Lemma parseLoop_spec wf paths :
  done (parseLoop wf paths).1 = done wf
  ∧ settings (parseLoop wf paths).1 = settings wf
  ∧ exclusions (parseLoop wf paths).1
    = exclusions wf
      ++ omap (λ path, if url_Parse path is inl u then Some u else None) paths
  ∧ (parseLoop wf paths).2
    = omap (λ path,
        if url_Parse path is inr err
        then Some (Log (Logf LogError "Unable to parse exclusion path: %s (%s)"
                          [ArgString path; ArgString err]))
        else None) paths.
Proof.
  revert wf. induction paths as [|path paths IH]; intros wf.
  - cbn. by rewrite app_nil_r.
  - cbn [WorkFilter.parseLoop omap list_omap].
    destruct (url_Parse path) as [u|err].
    + destruct (IH (FilterURL wf u)) as (-> & -> & -> & ->).
      cbn [FilterURL done settings exclusions]. by rewrite <- app_assoc.
    + destruct (IH wf) as (Hd & Hs & He & Hl).
      destruct (WorkFilter.parseLoop url_Parse wf paths) as [wf' evs].
      cbn [fst snd] in *. by rewrite Hd, Hs, He, Hl.
Qed.

(** X12.  [NewWorkFilter] gives a filter that has seen nothing and whose
    exclusions are the exclude paths of the settings that [url.Parse]
    accepts, parsed, in their order.  A path that does not parse is not
    fatal: it is logged as an error, once, and left out; the counter is not
    called. *)
Theorem NewWorkFilter_exclusions (s : Settings.ScanSettings) :
  let wf := (NewWorkFilter s).1 in
  let evs := (NewWorkFilter s).2 in
  done wf = ∅
  ∧ settings wf = s
  ∧ exclusions wf
    = omap (λ path, if url_Parse path is inl u then Some u else None)
        (Settings.ExcludePaths s)
  ∧ evs = omap (λ path,
        if url_Parse path is inr err
        then Some (Log (Logf LogError "Unable to parse exclusion path: %s (%s)"
                          [ArgString path; ArgString err]))
        else None) (Settings.ExcludePaths s)
  ∧ sent evs = [] ∧ counted evs = [].
Proof.
  cbv zeta. unfold WorkFilter.NewWorkFilter.
  destruct (parseLoop_spec
              {| done := ∅; settings := s; exclusions := [] |}
              (Settings.ExcludePaths s)) as (-> & -> & -> & ->).
  repeat split.
  - induction (Settings.ExcludePaths s) as [|path paths IH]; [done|].
    cbn [omap list_omap]. by destruct (url_Parse path).
  - induction (Settings.ExcludePaths s) as [|path paths IH]; [done|].
    cbn [omap list_omap]. by destruct (url_Parse path).
Qed.

(** X13.  A filter made by [NewWorkFilter] from settings without exclude
    paths removes the duplicates and nothing else: the keys of the tasks it
    sends are [DedupeStrings] of the keys of the tasks it reads. *)
Theorem RunFilter_dedupes (s : Settings.ScanSettings) (src : list Task.Task) :
  Settings.ExcludePaths s = [] →
  key <$> sent (RunFilter (NewWorkFilter s).1 src).2
  = Util.DedupeStrings (key <$> src).
Proof.
  intros Hnone. rewrite RunFilter_sent.
  unfold WorkFilter.NewWorkFilter. rewrite Hnone. cbn [WorkFilter.parseLoop fst].
  by rewrite taskLoop_dedupe.
Qed.

End with_Parse.

Section with_Robots.
Variable RobotsData : Type.
Variable GetRobotsForURL : URL → RobotsData + string.
Variable GetForUserAgent : RobotsData → string → list string.

Abbreviation disallowLoop := (WorkFilter.disallowLoop).
Abbreviation AddRobotsFilter :=
  (WorkFilter.AddRobotsFilter RobotsData GetRobotsForURL GetForUserAgent).
Abbreviation disallowedFor :=
  (WorkFilter.disallowedFor RobotsData GetRobotsForURL GetForUserAgent).

Lemma elem_of_concat {A} (x : A) (ls : list (list A)) :
  x ∈ concat ls → ∃ l, x ∈ l ∧ l ∈ ls.
Proof.
  induction ls as [|l ls IH]; cbn [concat].
  - by intros ?%elem_of_nil.
  - intros [Hl|Hr]%elem_of_app.
    + exists l. split; [done|left].
    + destruct (IH Hr) as (l' & ? & ?). exists l'. split; [done|by right].
Qed.

Lemma disallowLoop_spec f scopeURL ds :
  done (disallowLoop f scopeURL ds).1 = done f
  ∧ settings (disallowLoop f scopeURL ds).1 = settings f
  ∧ exclusions (disallowLoop f scopeURL ds).1
    = exclusions f ++ (set_Path scopeURL <$> ds)
  ∧ sent (disallowLoop f scopeURL ds).2 = []
  ∧ counted (disallowLoop f scopeURL ds).2 = [].
Proof.
  revert f. induction ds as [|d ds IH]; intros f.
  - cbn. by rewrite app_nil_r.
  - cbn [WorkFilter.disallowLoop].
    destruct (IH (FilterURL f (set_Path scopeURL d))) as (Hd & Hs & He & Hn & Hc).
    destruct (WorkFilter.disallowLoop _ scopeURL ds) as [f' evs].
    cbn [fst snd FilterURL done settings exclusions] in *.
    rewrite Hd, Hs, He, <- app_assoc. done.
Qed.

Lemma AddRobotsFilter_spec f scope :
  done (AddRobotsFilter f scope).1 = done f
  ∧ settings (AddRobotsFilter f scope).1 = settings f
  ∧ exclusions (AddRobotsFilter f scope).1
    = exclusions f
      ++ concat (disallowedFor (Settings.UserAgent (settings f)) <$> scope)
  ∧ sent (AddRobotsFilter f scope).2 = []
  ∧ counted (AddRobotsFilter f scope).2 = [].
Proof.
  revert f. induction scope as [|scopeURL scope IH]; intros f.
  - cbn. by rewrite app_nil_r.
  - cbn [WorkFilter.AddRobotsFilter fmap list_fmap concat].
    unfold WorkFilter.disallowedFor at 1.
    destruct (GetRobotsForURL scopeURL) as [robotsData|err].
    + pose proof (disallowLoop_spec f scopeURL
                    (GetForUserAgent robotsData (Settings.UserAgent (settings f))))
        as (Hd & Hs & He & Hn & Hc).
      destruct (WorkFilter.disallowLoop f scopeURL _) as [f1 evs1].
      cbn [fst snd] in *.
      destruct (IH f1) as (Hd2 & Hs2 & He2 & Hn2 & Hc2).
      destruct (WorkFilter.AddRobotsFilter _ _ _ f1 scope) as [f2 evs2].
      cbn [fst snd] in *.
      rewrite Hd2, Hs2, He2, Hd, Hs, He, <- app_assoc.
      repeat split; [|].
      * change (sent (?x :: ?l)) with (sent l). by rewrite sent_app, Hn, Hn2.
      * change (counted (?x :: ?l)) with (counted l).
        by rewrite counted_app, Hc, Hc2.
    + destruct (IH f) as (Hd & Hs & He & Hn & Hc).
      destruct (WorkFilter.AddRobotsFilter _ _ _ f scope) as [f' evs].
      cbn [fst snd app] in *. done.
Qed.

(** X14.  [AddRobotsFilter] only adds exclusions, after those the filter
    has: for each scope URL whose robots.txt was got, in order, the scope
    URL with its path replaced by each disallowed path; a robots.txt that
    cannot be got adds nothing.  [done] and the settings are untouched and
    the counter is not called.  An added exclusion keeps the scheme and the
    host of its scope URL, so that it excludes no URL of a host that is
    not the host of a scope URL. *)
Theorem AddRobotsFilter_exclusions (f : WorkFilter) (scope : list URL) :
  let f' := (AddRobotsFilter f scope).1 in
  let evs := (AddRobotsFilter f scope).2 in
  done f' = done f
  ∧ settings f' = settings f
  ∧ exclusions f'
    = exclusions f
      ++ concat (disallowedFor (Settings.UserAgent (settings f)) <$> scope)
  ∧ sent evs = [] ∧ counted evs = []
  ∧ ∀ child exclusion,
      (∀ scopeURL, scopeURL ∈ scope →
         Url.Host scopeURL ≠ "" ∧ Url.Host child ≠ Url.Host scopeURL) →
      exclusion ∈ exclusions f' →
      Util.URLIsSubpath exclusion child = true →
      exclusion ∈ exclusions f.
Proof.
  cbv zeta. destruct (AddRobotsFilter_spec f scope) as (Hd & Hs & He & Hn & Hc).
  repeat split; [done..|].
  intros child exclusion Hscope Hin Hsub. rewrite He in Hin.
  apply elem_of_app in Hin as [?|Hin]; [done|]. exfalso.
  apply elem_of_concat in Hin as (l & Hin & Hl).
  apply list_elem_of_fmap in Hl as (scopeURL & -> & Hs').
  destruct (Hscope scopeURL Hs') as [Hne Hdiff].
  unfold WorkFilter.disallowedFor in Hin. destruct (GetRobotsForURL scopeURL); [|by apply elem_of_nil in Hin].
  apply list_elem_of_fmap in Hin as (d & -> & _).
  rewrite URLIsSubpath_eq in Hsub. cbn [set_Path Scheme Url.Host Path] in Hsub.
  destruct (negb (String.eqb (Scheme scopeURL) "")
            && negb (String.eqb (Scheme child) (Scheme scopeURL))); [done|].
  apply String.eqb_neq in Hne, Hdiff. rewrite Hne, Hdiff in Hsub. done.
Qed.

End with_Robots.
End filter_more.

Section filter_more_examples.
Import Logging WorkFilter Url Examples.

Lemma filter_forwards_iff_witness :
  let src := [exampleTask "/a"; exampleTask "/admin/x"; exampleTask "/a"] in
  let turns := (taskLoop exampleString exampleFilter src).2 in
  forwarded turns 0 ∧ ¬ forwarded turns 1 ∧ ¬ forwarded turns 2.
Proof.
  intros src turns.
  pose proof (filter_forwards_iff exampleString exampleFilter src 0
                (exampleTask "/a") eq_refl) as [H0 _].
  pose proof (filter_forwards_iff exampleString exampleFilter src 1
                (exampleTask "/admin/x") eq_refl) as [H1 _].
  pose proof (filter_forwards_iff exampleString exampleFilter src 2
                (exampleTask "/a") eq_refl) as [H2 _].
  split; [|split].
  - apply H0. split; [done|]. split; [intros; lia|]. vm_compute. reflexivity.
  - intros (_ & _ & Hexcl)%H1. vm_compute in Hexcl. discriminate.
  - intros (_ & Hbefore & _)%H2. exact (Hbefore 0%nat (exampleTask "/a") ltac:(lia) eq_refl eq_refl).
Defined.

Lemma RunFilter_sends_only_allowed_witness :
  let src := [exampleTask "/a"; exampleTask "/admin/x"; exampleTask "/a"] in
  let t := cleared (exampleTask "/a") in
  t ∈ sent (RunFilter exampleString exampleFilter src).2
  ∧ Fragment (Task.URL t) = ""
  ∧ done exampleFilter !! exampleString t = None.
Proof.
  intros src t.
  assert (t ∈ sent (RunFilter exampleString exampleFilter src).2) as Hin.
  { vm_compute. left. }
  split; [exact Hin|].
  destruct (RunFilter_sends_only_allowed exampleString exampleFilter src t Hin)
    as (_ & Hfrag & _ & Hnew).
  done.
Defined.

Lemma RunFilter_dedupes_witness :
  let parse := λ path : string, inl (exampleURL path) : URL + string in
  let s := {| Settings.Workers := 1; Settings.QueueSize := 8;
              Settings.Method := "GET"; Settings.SleepTime := 0;
              Settings.SpiderCodes := [200];
              Settings.RunMode := Settings.RunModeEnumeration;
              Settings.Mangle := false; Settings.ParseHTML := false;
              Settings.ExcludePaths := []; Settings.UserAgent := "webborer" |} in
  let src := [exampleTask "/a"; exampleTask "/b"; exampleTask "/a"] in
  Settings.ExcludePaths s = []
  ∧ exampleString <$> sent (RunFilter exampleString (NewWorkFilter parse s).1 src).2
    = Util.DedupeStrings (exampleString <$> (cleared <$> src)).
Proof.
  intros parse s src. split; [reflexivity|].
  exact (RunFilter_dedupes exampleString parse s src eq_refl).
Defined.

End filter_more_examples.

(** ** More of the results: baselines and the manager *)

Section results_more.
Import Results Examples.
Variable mapLower : string → string.

Abbreviation headerLoop := (Results.headerLoop mapLower).
Abbreviation NewBaselineResult := (Results.NewBaselineResult mapLower).
Abbreviation AddGroup := (Results.AddGroup mapLower).

Lemma headerMatches_total rest k baseline :
  Forall (λ r, is_Some (first_value (ResponseHeader r) k)) rest →
  ∃ m, headerMatches rest k baseline = Ok m.
Proof.
  induction 1 as [|r rest [v Hv] _ IH]; cbn [headerMatches]; [by eexists|].
  rewrite Hv. destruct (negb (String.eqb v baseline)); [by eexists|done].
Qed.

Lemma headerLoop_cases keys results significant :
  headerLoop keys results significant = Panic "index out of range"
  ∨ ∃ significant', headerLoop keys results significant = Ok significant'.
Proof.
  revert significant. induction keys as [|k keys IH]; intros significant.
  { right. by eexists. }
  cbn [Results.headerLoop].
  destruct (Util.StringSliceContains neverImportant (Strings.ToLowerUTF8 mapLower k)); [done|].
  destruct results as [|r0 rest]; [by left|].
  destruct (first_value (ResponseHeader r0) (Strings.ToLowerUTF8 mapLower k)) as [baseline|];
    [|by left].
  destruct (headerMatches_cases rest (Strings.ToLowerUTF8 mapLower k) baseline) as [->|[m ->]];
    [by left|].
  by destruct m.
Qed.

Lemma headerLoop_total keys r0 rest significant :
  (∀ k, k ∈ keys →
     Util.StringSliceContains neverImportant (Strings.ToLowerUTF8 mapLower k) = false →
     Forall (λ r, is_Some (first_value (ResponseHeader r) (Strings.ToLowerUTF8 mapLower k)))
       (r0 :: rest)) →
  ∃ significant', headerLoop keys (r0 :: rest) significant = Ok significant'.
Proof.
  revert significant. induction keys as [|k keys IH]; intros significant Hall.
  { by eexists. }
  cbn [Results.headerLoop].
  assert (∀ k', k' ∈ keys →
            Util.StringSliceContains neverImportant (Strings.ToLowerUTF8 mapLower k') = false →
            Forall (λ r, is_Some (first_value (ResponseHeader r) (Strings.ToLowerUTF8 mapLower k')))
              (r0 :: rest)) as Hrest.
  { intros k' Hk'. apply Hall. by right. }
  destruct (Util.StringSliceContains neverImportant (Strings.ToLowerUTF8 mapLower k)) eqn:Hnever;
    [by apply IH|].
  pose proof (Hall k ltac:(left) Hnever) as [[baseline Hb] Hothers]%Forall_cons.
  rewrite Hb.
  destruct (headerMatches_total rest (Strings.ToLowerUTF8 mapLower k) baseline Hothers) as [m ->].
  destruct m; by apply IH.
Qed.

(** X15.  What a call of [NewBaselineResult] comes to: without a sample it
    returns the error [Need at least one result.]; with samples it never
    returns an error, and it returns a baseline or panics on an index out
    of range.  It returns a baseline whenever every sample has a value,
    under the lower-case form of each key of the first sample that is not
    denylisted. *)
Theorem NewBaselineResult_outcome (results : list Result) :
  (results = [] ↔ NewBaselineResult results = Err "Need at least one result.")
  ∧ (results ≠ [] →
       NewBaselineResult results = Panic "index out of range"
       ∨ ∃ b, NewBaselineResult results = Ok b)
  ∧ (results ≠ [] →
     (∀ r0 k, head results = Some r0 → is_Some (ResponseHeader r0 !! k) →
        Util.StringSliceContains neverImportant (Strings.ToLowerUTF8 mapLower k) = false →
        Forall (λ r, is_Some (first_value (ResponseHeader r) (Strings.ToLowerUTF8 mapLower k)))
          results) →
     ∃ b, NewBaselineResult results = Ok b).
Proof.
  unfold Results.NewBaselineResult. destruct results as [|r0 rest].
  { split; [done|]. split; done. }
  destruct (adjacentLoop (r0 :: rest) true true) as [code path].
  split; [|split].
  - split; [done|].
    destruct (headerLoop_cases (map_to_list (ResponseHeader r0)).*1 (r0 :: rest) [])
      as [->|[s ->]]; done.
  - intros _.
    destruct (headerLoop_cases (map_to_list (ResponseHeader r0)).*1 (r0 :: rest) [])
      as [->|[s ->]]; [by left|right; by eexists].
  - intros _ Hall.
    destruct (headerLoop_total (map_to_list (ResponseHeader r0)).*1 r0 rest [])
      as [s ->]; [|by eexists].
    intros k Hk Hnever. apply (Hall r0 k); [done| |done].
    apply list_elem_of_fmap in Hk as ([k' v] & -> & Hin).
    apply elem_of_map_to_list in Hin. by exists v.
Qed.

(** The first sample is the one the baseline holds, and every sample
    matches the baseline. *)
Lemma baseline_matches_samples results b :
  NewBaselineResult results = Ok b →
  ∃ r0 rest, results = r0 :: rest ∧ Base b = r0
    ∧ ∀ r, r ∈ results → Matches b r = true.
Proof.
  intros (r0 & rest & -> & Hbase & Hcode & Hpath & _)%NewBaselineResult_Ok.
  exists r0, rest. split; [done|]. split; [done|].
  intros r Hr. apply Matches_true. rewrite Hbase, Hcode, Hpath.
  apply elem_of_cons in Hr as [->|Hr]; [done|].
  split; intros Hall; by apply (proj1 (Forall_forall _ _) Hall).
Qed.

(** X16.  A Result matches the baseline that [NewBaselineResult] made of
    some samples exactly when it has the path of the first sample, if all
    samples have the same path, and the code of the first sample, if all
    samples have the same code.  So every sample matches its own baseline. *)
Theorem Matches_of_baseline (results : list Result) (b : BaselineResult) :
  NewBaselineResult results = Ok b →
  ∃ r0 rest, results = r0 :: rest
    ∧ (∀ a, Matches b a = true ↔
         (Forall (λ r, Url.Path (URL r) = Url.Path (URL r0)) rest →
            Url.Path (URL a) = Url.Path (URL r0))
         ∧ (Forall (λ r, Code r = Code r0) rest → Code a = Code r0))
    ∧ ∀ r, r ∈ results → Matches b r = true.
Proof.
  intros (r0 & rest & -> & Hbase & Hcode & Hpath & _)%NewBaselineResult_Ok.
  exists r0, rest. split; [done|].
  assert (∀ a, Matches b a = true ↔
            (Forall (λ r, Url.Path (URL r) = Url.Path (URL r0)) rest →
               Url.Path (URL a) = Url.Path (URL r0))
            ∧ (Forall (λ r, Code r = Code r0) rest → Code a = Code r0)) as Hiff.
  { intros a. rewrite Matches_true, Hbase, Hcode, Hpath. done. }
  split; [exact Hiff|].
  intros r [->|Hr]%elem_of_cons; apply Hiff; [done|].
  split; intros Hall; by apply (proj1 (Forall_forall _ _) Hall).
Qed.

(** *** The manager *)

Lemma Append_spec drm result :
  baselines (Append drm result).1 = baselines drm
  ∧ ∀ g, kept (Append drm result).1 g
         = if decide (ResultGroup result = g) then kept drm g ++ [result]
           else kept drm g.
Proof.
  unfold Append, kept.
  destruct (keep drm !! ResultGroup result) as [group|] eqn:Hg;
    cbn [fst set_keep baselines keep]; (split; [done|]); intros g.
  - rewrite Hg. cbn [default]. destruct (decide (ResultGroup result = g)) as [<-|Hne].
    + by rewrite lookup_insert_eq, Hg.
    + by rewrite lookup_insert_ne.
  - rewrite lookup_insert_eq. cbn [default].
    destruct (decide (ResultGroup result = g)) as [<-|Hne].
    + by rewrite lookup_insert_eq, Hg.
    + by rewrite !lookup_insert_ne.
Qed.

Lemma Append_is_Some drm result g :
  is_Some (keep (Append drm result).1 !! g)
  ↔ is_Some (keep drm !! g) ∨ ResultGroup result = g.
Proof.
  unfold Append.
  destruct (keep drm !! ResultGroup result) as [group|] eqn:Hg;
    cbn [fst set_keep baselines keep];
    (destruct (decide (ResultGroup result = g)) as [<-|Hne];
     [rewrite lookup_insert_eq; split; eauto
     |rewrite !lookup_insert_ne by done; split; [by left|by intros [?|?]]]).
Qed.

Section with_String.
Variable Result_String : Result → string.

Abbreviation resultLoop := (Results.resultLoop Result_String).

Lemma resultLoop_cons drm result rChan :
  ∃ drm1,
    (resultLoop drm (result :: rChan)).1 = (resultLoop drm1 rChan).1
    ∧ baselines drm1 = baselines drm
    ∧ (∀ g, kept drm1 g
            = if decide (ResultGroup result = g ∧ differs drm result = true)
              then kept drm g ++ [result] else kept drm g)
    ∧ (∀ g, is_Some (keep drm1 !! g)
            ↔ is_Some (keep drm !! g)
              ∨ (ResultGroup result = g ∧ differs drm result = true)).
Proof.
  cbn [Results.resultLoop]. unfold differs.
  pose proof (Append_spec drm result) as [Hb Hk].
  pose proof (Append_is_Some drm result) as Hs.
  assert (∀ lines,
            ((let '(drm2, lines') := Results.resultLoop Result_String drm rChan in
              (drm2, lines ++ lines')).1 = (resultLoop drm rChan).1)) as Hskip.
  { intros lines. by destruct (Results.resultLoop Result_String drm rChan). }
  assert ((let '(drm1, lines) := Append drm result in
           let '(drm2, lines') := Results.resultLoop Result_String drm1 rChan in
           (drm2, lines ++ lines')).1
          = (resultLoop (Append drm result).1 rChan).1) as Hkeep.
  { destruct (Append drm result) as [drm1 lines]. cbn [fst].
    by destruct (Results.resultLoop Result_String drm1 rChan). }
  assert ((let '(drm1, lines) :=
             (let '(drm1, lines) := Append drm result in
              (drm1, Logging.Logf Logging.LogDebug "No baseline for group %s"
                       [Logging.ArgString (ResultGroup result)] :: lines)) in
           let '(drm2, lines') := Results.resultLoop Result_String drm1 rChan in
           (drm2, lines ++ lines')).1
          = (resultLoop (Append drm result).1 rChan).1) as Hkeep'.
  { destruct (Append drm result) as [drm1 lines]. cbn [fst].
    by destruct (Results.resultLoop Result_String drm1 rChan). }
  assert (∀ g, kept (Append drm result).1 g
               = if decide (ResultGroup result = g ∧ true = true)
                 then kept drm g ++ [result] else kept drm g) as Hk'.
  { intros g. rewrite Hk.
    destruct (decide (ResultGroup result = g)) as [Heq|Hne].
    - by rewrite decide_True.
    - rewrite decide_False; [done|]. by intros [? _]. }
  assert (∀ g, is_Some (keep (Append drm result).1 !! g)
               ↔ is_Some (keep drm !! g) ∨ (ResultGroup result = g ∧ true = true))
    as Hs'.
  { intros g. rewrite Hs. intuition. }
  destruct (baselines drm !! ResultGroup result) as [baseline|].
  - destruct (Matches baseline result); cbn [negb].
    + exists drm. split; [apply Hskip|]. split; [done|]. split.
      * intros g. rewrite decide_False; [done|]. by intros [_ ?].
      * intros g. split; [by left|]. by intros [?|[_ ?]].
    + exists (Append drm result).1. done.
  - exists (Append drm result).1. done.
Qed.

Lemma differs_frame drm drm1 r :
  baselines drm1 = baselines drm → differs drm1 r = differs drm r.
Proof. unfold differs. by intros ->. Qed.

(** X17.  The loop of [Run] keeps a Result exactly when the manager has no
    baseline for its group, or one that it does not match: when the loop is
    over, each group holds what it held before, followed by the Results of
    the group that were read and kept, in the order they were read.  A group
    is in [keep] only if it was there before or a Result of it was kept,
    and the baselines are untouched. *)
Theorem resultLoop_keeps (drm : DiffResultsManager) (rChan : list Result) :
  let drm' := (resultLoop drm rChan).1 in
  baselines drm' = baselines drm
  ∧ (∀ g, kept drm' g
          = kept drm g
            ++ filter (λ r, ResultGroup r = g ∧ differs drm r = true) rChan)
  ∧ (∀ g, is_Some (keep drm' !! g)
          ↔ is_Some (keep drm !! g)
            ∨ ∃ r, r ∈ rChan ∧ ResultGroup r = g ∧ differs drm r = true).
Proof.
  cbv zeta. revert drm. induction rChan as [|result rChan IH]; intros drm.
  - cbn. split; [done|]. split.
    + intros g. by rewrite app_nil_r.
    + intros g. split; [by left|]. intros [?|(r & Hr & _)]; [done|].
      by apply elem_of_nil in Hr.
  - destruct (resultLoop_cons drm result rChan) as (drm1 & -> & Hb & Hk & Hs).
    destruct (IH drm1) as (IHb & IHk & IHs).
    assert (∀ r, differs drm1 r = differs drm r) as Hd
      by (intros r; by apply differs_frame).
    split; [congruence|]. split.
    + intros g. rewrite IHk, Hk, filter_cons.
      rewrite (list_filter_iff
                 (λ r, ResultGroup r = g ∧ differs drm1 r = true)
                 (λ r, ResultGroup r = g ∧ differs drm r = true))
        by (intros r; by rewrite Hd).
      destruct (decide (ResultGroup result = g ∧ differs drm result = true));
        [by rewrite <- app_assoc|done].
    + intros g. rewrite IHs, Hs. split.
      * intros [[?|?]|(r & Hr & Hg & Hdr)]; [by left|right..].
        -- exists result. split; [left|done].
        -- exists r. split; [by right|]. by rewrite <- Hd.
      * intros [?|(r & [->|Hr]%elem_of_cons & Hg & Hdr)];
          [by left; left|by left; right|].
        right. exists r. by rewrite Hd.
Qed.

(** X18.  [AddGroup] without a sample returns the error of
    [NewBaselineResult] and leaves the manager as it was; when it returns
    no error it has put the baseline of the samples under the group of the
    first sample, in place of any baseline this group had, and [keep] is
    untouched.  From then on a Result of this group is kept exactly when it
    does not match this baseline, so that no sample of this group is kept;
    the Results of the other groups are judged as before. *)
Theorem AddGroup_baseline (drm : DiffResultsManager) (samples : list Result) :
  AddGroup drm [] = (drm, Err "Need at least one result.")
  ∧ ∀ drm', AddGroup drm samples = (drm', Ok tt) →
      ∃ r0 rest b, samples = r0 :: rest
        ∧ NewBaselineResult samples = Ok b
        ∧ baselines drm' = <[ResultGroup r0 := b]> (baselines drm)
        ∧ keep drm' = keep drm
        ∧ (∀ r, ResultGroup r = ResultGroup r0 → differs drm' r = negb (Matches b r))
        ∧ (∀ r, r ∈ samples → ResultGroup r = ResultGroup r0 → differs drm' r = false)
        ∧ (∀ r, ResultGroup r ≠ ResultGroup r0 → differs drm' r = differs drm r).
Proof.
  split; [done|]. intros drm'. unfold Results.AddGroup.
  destruct (NewBaselineResult samples) as [b| |] eqn:Hb; [|done..].
  intros [= <-].
  destruct (baseline_matches_samples samples b Hb) as (r0 & rest & -> & Hbase & Hall).
  exists r0, rest, b. rewrite Hbase. cbn [baselines keep].
  split; [done|]. split; [done|]. split; [done|]. split; [done|].
  assert (∀ r, ResultGroup r = ResultGroup r0 →
            differs {| baselines := <[ResultGroup r0 := b]> (baselines drm);
                       keep := keep drm |} r = negb (Matches b r)) as Hsame.
  { intros r Hg. unfold differs. cbn [baselines].
    by rewrite Hg, lookup_insert_eq. }
  split; [exact Hsame|]. split.
  - intros r Hr Hg. by rewrite Hsame, Hall.
  - intros r Hne. unfold differs. cbn [baselines].
    by rewrite lookup_insert_ne.
Qed.

End with_String.
End results_more.

Section results_more_examples.
Import Results Examples.

Lemma Matches_of_baseline_witness :
  let samples := [exampleResult "/404" 404 {[ "server" := ["nginx"] ]};
                  exampleResult "/404" 500 {[ "server" := ["nginx"] ]}] in
  ∃ b, Results.NewBaselineResult Strings.ToLower samples = Ok b
    ∧ Matches b (exampleResult "/404" 200 ∅) = true
    ∧ Matches b (exampleResult "/" 404 ∅) = false.
Proof.
  intros samples.
  destruct (Results.NewBaselineResult Strings.ToLower samples) as [b| |] eqn:Hb;
    [|vm_compute in Hb; discriminate Hb..].
  exists b. split; [done|].
  destruct (Matches_of_baseline Strings.ToLower samples b Hb) as (r0 & rest & [= <- <-] & Hiff & _).
  split.
  - apply Hiff. split; [done|].
    intros [Hc _]%Forall_cons. vm_compute in Hc. discriminate Hc.
  - destruct (Matches b (exampleResult "/" 404 ∅)) eqn:Hm; [|done].
    apply Hiff in Hm as [Hp _]. exfalso.
    assert ("/" = "/404") as Habs; [|discriminate Habs].
    apply Hp. by repeat constructor.
Defined.
End results_more_examples.

(** ** More of the probe worker *)

Section worker_more.
Import Logging Worker Examples.
Context {C : Type} `{Client C}.
Implicit Types (w : Worker C) (t : Task.Task).

Lemma added_app (evs1 evs2 : list Event) :
  added (evs1 ++ evs2) = added evs1 ++ added evs2.
Proof. unfold added. by rewrite omap_app, concat_app. Qed.

Lemma doneCalls_app (evs1 evs2 : list Event) :
  doneCalls (evs1 ++ evs2) = doneCalls evs1 ++ doneCalls evs2.
Proof. apply omap_app. Qed.

Lemma resultsSent_ofPage (evs : list PageEvent) : resultsSent (ofPage <$> evs) = [].
Proof. induction evs as [|[] evs IH]; simpl; done. Qed.

Lemma doneCalls_ofPage (evs : list PageEvent) : doneCalls (ofPage <$> evs) = [].
Proof. induction evs as [|[] evs IH]; simpl; done. Qed.

(** The events of a call of [TryTask], case by case. *)
Lemma TryTask_trace t w :
  let method := Settings.Method (settings w) in
  let reply :=
    (Request (client w) (Task.URL t) (Task.Host t) method (Task.Header t)).2 in
  let head := [Log (Logf LogInfo "Trying: %s" [ArgTask t]);
               Requested (Task.URL t) (Task.Host t) method (Task.Header t)] in
  let sleep := if negb (Settings.SleepTime (settings w) =? 0)
               then [Slept (Settings.SleepTime (settings w))] else [] in
  ∃ w',
    settings w' = settings w
    ∧ pageWorker w' = pageWorker w
    ∧ match err reply, redirected reply, resp reply with
      | Some e, None, rs =>
          ∃ result,
            TryTask t w
            = Returns (match rs with Some r => Http.StatusCode r | None => 0 end) w'
            ∧ events w' = events w ++ head ++ [SendResult result] ++ sleep
            ∧ Results.Error result = Some e
      | _, _, None =>
          TryTask t w
          = Panics "invalid memory address or nil pointer dereference" w'
          ∧ events w' = events w ++ head ++ sleep
      | _, rd, Some r =>
          ∃ result pevs,
            TryTask t w = Returns (Http.StatusCode r) w'
            ∧ events w'
              = events w ++ head
                ++ (if Util.URLIsDir (Task.URL t) && KeepSpidering w (Http.StatusCode r)
                    then [Log (Logf LogDebug "Referring %s back for spidering."
                                 [ArgTask t]);
                          QueueAdd [t]]
                    else [])
                ++ match rd with
                   | Some req =>
                       [Log (Logf LogDebug "Referring redirect %s back."
                               [ArgURL (Http.ReqURL req)]);
                        QueueAdd [Task.set_URL t (Http.ReqURL req)]]
                   | None => []
                   end
                ++ pevs ++ [SendResult result; BodyClosed] ++ sleep
            ∧ (pevs = []
               ∨ ∃ pw pageEvents,
                   pageWorker w = Some pw ∧ Eligible pw r = true
                   ∧ pevs = Log (Logf LogDebug "Running page workers for task %s"
                                   [ArgTask t]) :: (ofPage <$> pageEvents))
      end.
Proof.
  cbv zeta. unfold TryTask, defer, spiderRedirect, runPageWorkers, Task.Copy.
  cbn [redir set_redir emit set_client pageWorker settings events client].
  destruct (Request (client w) (Task.URL t) (Task.Host t)
              (Settings.Method (settings w)) (Task.Header t)) as [c reply].
  cbn [snd].
  assert (∀ w0 : Worker C, settings w0 = settings w →
            events (Sleep w0)
            = events w0 ++ (if negb (Settings.SleepTime (settings w) =? 0)
                            then [Slept (Settings.SleepTime (settings w))] else [])
            ∧ settings (Sleep w0) = settings w
            ∧ pageWorker (Sleep w0) = pageWorker w0) as HSleep.
  { intros w0 Hs. unfold Sleep. rewrite Hs.
    destruct (negb _); cbn [emit events settings pageWorker];
      by rewrite ?app_nil_r. }
  set (sleep := if negb (Settings.SleepTime (settings w) =? 0)
                then [Slept (Settings.SleepTime (settings w))] else []) in *.
  destruct (err reply) as [e|], (redirected reply) as [req|], (resp reply) as [r|];
    cbn [redir set_redir emit set_client pageWorker settings events client].
  all: try change (KeepSpidering _ (Http.StatusCode r))
         with (KeepSpidering w (Http.StatusCode r)).
  all: try destruct (Util.URLIsDir (Task.URL t) && KeepSpidering w (Http.StatusCode r)).
  all: cbn [redir set_redir emit set_client pageWorker settings events client].
  all: try (destruct (pageWorker w) as [pw|] eqn:Hpw;
            [destruct (Eligible pw r) eqn:Hel;
             [match goal with
              | |- context [Handle pw ?a ?b ?c] =>
                  destruct (Handle pw a b c) as [result' pageEvents] eqn:Hh
              end|]|]).
  all: cbn [redir set_redir emit set_client pageWorker settings events client fst snd].
  all: match goal with
       | |- context [Sleep ?w0] =>
           destruct (HSleep w0 eq_refl) as (Hev & Hset & Hpage);
           exists (Sleep w0)
       end.
  all: rewrite Hev, Hset, Hpage;
    cbn [redir set_redir emit set_client pageWorker settings events client];
    rewrite <- ?app_assoc; cbn [app];
    (split; [reflexivity|]); (split; [try reflexivity; by rewrite Hpw|]).
  all: first
    [ by split
    | by eexists
    | by eexists _, []; split; [|split; [|left]]
    | eexists _, (_ :: _); split; [reflexivity|]; split; [reflexivity|];
      right; by exists pw, pageEvents ].
Qed.

Lemma sleep_tally (d : Z) :
  let sleep := if negb (d =? 0) then [Slept d] else [] in
  doneCalls sleep = [] ∧ resultsSent sleep = [] ∧ added sleep = []
  ∧ requests sleep = [].
Proof. by destruct (negb (d =? 0)). Qed.

Lemma added_ofPage_nil : added (ofPage <$> ([] : list PageEvent)) = [].
Proof. reflexivity. Qed.

(** What a call of [TryTask] comes to. *)
Lemma TryTask_summary t w :
  let reply :=
    (Request (client w) (Task.URL t) (Task.Host t) (Settings.Method (settings w))
       (Task.Header t)).2 in
  ∃ new,
    events (final (TryTask t w)) = events w ++ new
    ∧ settings (final (TryTask t w)) = settings w
    ∧ doneCalls new = []
    ∧ requests new = [requestOf (settings w) t]
    ∧ (Settings.SleepTime (settings w) ≠ 0 →
       last new = Some (Slept (Settings.SleepTime (settings w))))
    ∧ match err reply, redirected reply, resp reply with
      | Some e, None, rs =>
          ∃ w' result,
            TryTask t w
            = Returns (match rs with Some r => Http.StatusCode r | None => 0 end) w'
            ∧ resultsSent new = [result] ∧ Results.Error result = Some e
            ∧ added new = []
      | _, _, None =>
          ∃ w', TryTask t w
                = Panics "invalid memory address or nil pointer dereference" w'
                ∧ resultsSent new = [] ∧ added new = []
      | _, rd, Some r =>
          ∃ w' result ptasks,
            TryTask t w = Returns (Http.StatusCode r) w'
            ∧ resultsSent new = [result]
            ∧ added new
              = (if Util.URLIsDir (Task.URL t) && KeepSpidering w (Http.StatusCode r)
                 then [t] else [])
                ++ match rd with
                   | Some req => [Task.set_URL t (Http.ReqURL req)]
                   | None => []
                   end
                ++ ptasks
            ∧ ((∀ pw, pageWorker w = Some pw → Eligible pw r = false) → ptasks = [])
      end.
Proof.
  cbv zeta. destruct (TryTask_trace t w) as (w' & Hset & _ & Hcases).
  cbv zeta in Hcases.
  destruct (sleep_tally (Settings.SleepTime (settings w))) as (Hsd & Hsr & Hsa & Hsq).
  cbv zeta in Hsd, Hsr, Hsa, Hsq.
  assert (∀ l : list Event,
            Settings.SleepTime (settings w) ≠ 0 →
            last (l ++ (if negb (Settings.SleepTime (settings w) =? 0)
                        then [Slept (Settings.SleepTime (settings w))] else []))
            = Some (Slept (Settings.SleepTime (settings w)))) as Hlast.
  { intros l Hne. destruct (Z.eqb_spec (Settings.SleepTime (settings w)) 0); [done|].
    apply last_snoc. }
  set (sleep := if negb (Settings.SleepTime (settings w) =? 0)
                then [Slept (Settings.SleepTime (settings w))] else []) in *.
  destruct (Request (client w) (Task.URL t) (Task.Host t)
              (Settings.Method (settings w)) (Task.Header t)) as [c reply].
  cbn [snd] in *.
  assert (∀ pevs r,
            pevs = []
            ∨ (∃ pw (pageEvents : list PageEvent),
                 pageWorker w = Some pw ∧ Eligible pw r = true
                 ∧ pevs = Log (Logf LogDebug "Running page workers for task %s"
                                 [ArgTask t]) :: (ofPage <$> pageEvents)) →
            doneCalls pevs = [] ∧ resultsSent pevs = [] ∧ requests pevs = []
            ∧ ((∀ pw, pageWorker w = Some pw → Eligible pw r = false) →
               added pevs = [])) as Hpage.
  { intros pevs r [->|(pw & pageEvents & Hpw & Hel & ->)]; [done|].
    split; [apply doneCalls_ofPage|]. split; [apply resultsSent_ofPage|].
    split; [apply requests_ofPage|].
    intros Hno. specialize (Hno pw Hpw). congruence. }
  destruct (err reply) as [e|], (redirected reply) as [req|], (resp reply) as [r|].
  all: repeat match goal with
    | H : ∃ _, _ |- _ => destruct H as [? H]
    | H : _ ∧ _ |- _ => destruct H as [? ?]
    end.
  all: match goal with
    | Hrun : TryTask _ _ = _, Hev : events _ = events _ ++ ?new |- _ =>
        rewrite Hrun; cbn [final]; exists new;
        (split; [exact Hev|]); (split; [exact Hset|])
    end.
  all: try match goal with
    | Hp : _ ∨ _ |- _ => apply Hpage in Hp as (Hpd & Hpr & Hpq & Hpa)
    end.
  all: try destruct (Util.URLIsDir (Task.URL t) && KeepSpidering w (Http.StatusCode r)).
  all: rewrite ?doneCalls_app, ?requests_app, ?resultsSent_app, ?added_app,
         ?Hsd, ?Hsr, ?Hsa, ?Hsq, ?Hpd, ?Hpr, ?Hpq, ?app_nil_r.
  all: (split; [reflexivity|]); (split; [reflexivity|]).
  all: split;
    [intros Hne;
     repeat match goal with
       | |- last (?a ++ ?b ++ ?c) = _ => rewrite (app_assoc a b c)
       end; by apply Hlast|].
  all: try (eexists _, _; split; [reflexivity|]; split; [reflexivity|];
            split; [assumption|reflexivity]).
  all: try (eexists; split; [reflexivity|]; split; reflexivity).
  all: eexists _, _, _; (split; [reflexivity|]); (split; [reflexivity|]);
    (split; [reflexivity|]); assumption.
Qed.

Lemma TryTask_tally t w :
  ∃ new,
    events (final (TryTask t w)) = events w ++ new
    ∧ settings (final (TryTask t w)) = settings w
    ∧ doneCalls new = []
    ∧ requests new = [requestOf (settings w) t]
    ∧ ((∃ code w', TryTask t w = Returns code w') →
       length (resultsSent new) = 1%nat).
Proof.
  destruct (TryTask_summary t w) as (new & Hev & Hset & Hd & Hq & Hl & Hcases).
  cbv zeta in Hcases. exists new.
  split; [done|]. split; [done|]. split; [done|]. split; [done|].
  intros (code & w' & Hrun).
  destruct (err (Request _ _ _ _ _).2) as [e|],
    (redirected (Request _ _ _ _ _).2) as [req|],
    (resp (Request _ _ _ _ _).2) as [r|];
    repeat match goal with
      | H : ∃ _, _ |- _ => destruct H as [? H]
      | H : _ ∧ _ |- _ => destruct H as [? ?]
      end;
    try congruence;
    match goal with Hr : resultsSent _ = _ |- _ => by rewrite Hr end.
Qed.

Lemma TryTask_code t w code w' :
  TryTask t w = Returns code w' →
  code = codeOf (Request (client w) (Task.URL t) (Task.Host t)
                   (Settings.Method (settings w)) (Task.Header t)).2.
Proof.
  intros Hrun.
  destruct (TryTask_summary t w) as (new & _ & _ & _ & _ & _ & Hcases).
  cbv zeta in Hcases. unfold codeOf.
  destruct (err (Request _ _ _ _ _).2) as [e|],
    (redirected (Request _ _ _ _ _).2) as [req|],
    (resp (Request _ _ _ _ _).2) as [r|];
    repeat match goal with
      | H : ∃ _, _ |- _ => destruct H as [? H]
      | H : _ ∧ _ |- _ => destruct H as [? ?]
      end;
    congruence.
Qed.

(** X19.  What a call of [TryTask] comes to.  It panics on a nil pointer
    exactly when the client gave no response and either no error or a
    captured redirect; it has then sent no Result and added no task.
    Otherwise it returns the status code of the response, or 0 without a
    response, and has sent exactly one Result.  Either way it has made one
    request, has not called [done], and has slept last if a sleep time is
    set, the deferred sleep running on a panic too. *)
Theorem TryTask_outcome t w :
  let reply :=
    (Request (client w) (Task.URL t) (Task.Host t) (Settings.Method (settings w))
       (Task.Header t)).2 in
  let crash :=
    resp reply = None ∧ (err reply = None ∨ is_Some (redirected reply)) in
  ∃ new,
    events (final (TryTask t w)) = events w ++ new
    ∧ requests new = [requestOf (settings w) t]
    ∧ doneCalls new = []
    ∧ (Settings.SleepTime (settings w) ≠ 0 →
       last new = Some (Slept (Settings.SleepTime (settings w))))
    ∧ (crash →
       (∃ w', TryTask t w
              = Panics "invalid memory address or nil pointer dereference" w')
       ∧ resultsSent new = [] ∧ added new = [])
    ∧ (¬ crash →
       (∃ w', TryTask t w
              = Returns (match resp reply with
                         | Some r => Http.StatusCode r
                         | None => 0
                         end) w')
       ∧ length (resultsSent new) = 1%nat).
Proof.
  cbv zeta.
  destruct (TryTask_summary t w) as (new & Hev & _ & Hd & Hq & Hl & Hcases).
  cbv zeta in Hcases. exists new.
  split; [done|]. split; [done|]. split; [done|]. split; [done|].
  destruct (err (Request _ _ _ _ _).2) as [e|],
    (redirected (Request _ _ _ _ _).2) as [req|],
    (resp (Request _ _ _ _ _).2) as [r|];
    repeat match goal with
      | H : ∃ _, _ |- _ => destruct H as [? H]
      | H : _ ∧ _ |- _ => destruct H as [? ?]
      end.
  all: split;
    [intros [Hnil Hwhy];
     first [ discriminate Hnil
           | destruct Hwhy as [Hwhy|[? Hwhy]]; discriminate Hwhy
           | split; [by eexists|by split] ]
    |intros Hnot;
     first [ by exfalso; apply Hnot; split; [|first [by left|by right; eexists]]
           | split; [by eexists|];
             match goal with Hr : resultsSent _ = _ |- _ => by rewrite Hr end ]].
Qed.

(** X20.  What [TryTask] refers back to the queue when the client gave a
    response and no error, or a captured redirect: the task itself, if its
    URL is a directory and the status code is one to spider from; then a
    copy of the task with the URL of the redirect, if one was captured;
    then what the page worker adds, which is nothing when there is no page
    worker or the response is not eligible.  A task that failed with an
    error and no redirect adds nothing. *)
Theorem TryTask_refers_back t w :
  let reply :=
    (Request (client w) (Task.URL t) (Task.Host t) (Settings.Method (settings w))
       (Task.Header t)).2 in
  ∃ new,
    events (final (TryTask t w)) = events w ++ new
    ∧ (is_Some (err reply) → redirected reply = None → added new = [])
    ∧ ∀ r, resp reply = Some r →
        err reply = None ∨ is_Some (redirected reply) →
        ∃ ptasks,
          added new
          = (if Util.URLIsDir (Task.URL t) && KeepSpidering w (Http.StatusCode r)
             then [t] else [])
            ++ match redirected reply with
               | Some req => [Task.set_URL t (Http.ReqURL req)]
               | None => []
               end
            ++ ptasks
          ∧ ((∀ pw, pageWorker w = Some pw → Eligible pw r = false) → ptasks = []).
Proof.
  cbv zeta.
  destruct (TryTask_summary t w) as (new & Hev & _ & Hd & Hq & Hl & Hcases).
  cbv zeta in Hcases. exists new. split; [done|].
  destruct (err (Request _ _ _ _ _).2) as [e|],
    (redirected (Request _ _ _ _ _).2) as [req|],
    (resp (Request _ _ _ _ _).2) as [r|];
    repeat match goal with
      | H : ∃ _, _ |- _ => destruct H as [? H]
      | H : _ ∧ _ |- _ => destruct H as [? ?]
      end.
  all: split;
    [intros [? He] Hrd; first [discriminate He|discriminate Hrd|done]
    |intros r' Hr' Hwhy;
     first [ discriminate Hr'
           | destruct Hwhy as [Hwhy|[? Hwhy]]; discriminate Hwhy
           | injection Hr' as <-; eauto ]].
Qed.

Lemma forEach_summary (probes : list Task.Task) (body : Task.Task → M C unit) w :
  (∀ p w0, ∃ new,
     events (final (body p w0)) = events w0 ++ new
     ∧ settings (final (body p w0)) = settings w0
     ∧ doneCalls new = []
     ∧ requests new = [requestOf (settings w0) p]
     ∧ ((∃ w', body p w0 = Returns () w') → length (resultsSent new) = 1%nat)) →
  ∃ new,
    events (final (forEach probes body w)) = events w ++ new
    ∧ settings (final (forEach probes body w)) = settings w
    ∧ doneCalls new = []
    ∧ ((∃ w', forEach probes body w = Returns () w') →
       requests new = requestOf (settings w) <$> probes
       ∧ length (resultsSent new) = length probes).
Proof.
  intros Hbody. revert w. induction probes as [|p probes IH]; intros w.
  { exists []. by rewrite app_nil_r. }
  change (forEach (p :: probes) body w)
    with (match body p w with
          | Returns _ w' => forEach probes body w'
          | Panics msg w' => Panics msg w'
          end).
  destruct (Hbody p w) as (new & Hev & Hset & Hd & Hq & Hr).
  destruct (body p w) as [[] w1|msg w1] eqn:Hrun; cbn [final] in *.
  - destruct (IH w1) as (new' & Hev' & Hset' & Hd' & Hlen).
    exists (new ++ new'). rewrite Hev', Hev, Hset', Hset, <- app_assoc.
    rewrite doneCalls_app, Hd, Hd', requests_app, resultsSent_app, !length_app.
    split; [done|]. split; [done|]. split; [done|].
    intros Hret. destruct (Hlen Hret) as [-> ->]. rewrite Hq, Hr, Hset by eauto.
    done.
  - exists new. split; [done|]. split; [done|]. split; [done|].
    by intros [? ?].
Qed.

Lemma tryEach_summary (probes : list Task.Task) w :
  ∃ new,
    events (final (tryEach probes w)) = events w ++ new
    ∧ settings (final (tryEach probes w)) = settings w
    ∧ doneCalls new = []
    ∧ ((∃ w', tryEach probes w = Returns () w') →
       requests new = requestOf (settings w) <$> probes
       ∧ length (resultsSent new) = length probes).
Proof.
  apply forEach_summary. intros p w0. unfold bind, ret.
  pose proof (TryTask_tally p w0) as (new & Hev & Hset & Hd & Hq & Hr).
  exists new. destruct (TryTask p w0) as [code w1|msg w1]; cbn [final] in *.
  - split; [done|]. split; [done|]. split; [done|]. split; [done|].
    intros _. apply Hr. by eexists _, _.
  - split; [done|]. split; [done|]. split; [done|]. split; [done|].
    by intros [? ?].
Qed.

(** [TryMangleTask] is [TryTask] on the four mangled copies of the task, in
    order, when [Mangle] is set and the path has a [/]; it does nothing
    otherwise. *)
Lemma TryMangleTask_cases t w :
  ∃ probes,
    TryMangleTask t w = tryEach probes w
    ∧ ((probes = []
        ∧ (Settings.Mangle (settings w) = false
           ∨ Strings.ContainsByte (Url.Path (Task.URL t)) "/" = false))
       ∨ (Settings.Mangle (settings w) = true
          ∧ Strings.ContainsByte (Url.Path (Task.URL t)) "/" = true
          ∧ ∃ dirname basename,
              Url.Path (Task.URL t) = dirname +:+ "/" +:+ basename
              ∧ Strings.ContainsByte basename "/" = false
              ∧ probes = mangled t dirname basename)).
Proof.
  assert (Strings.LastIndex (Url.Path (Task.URL t)) "/"
          = match lastSlash (Url.Path (Task.URL t)) with
            | Some n => Z.of_nat n
            | None => -1
            end) as Hlast.
  { unfold Strings.LastIndex. rewrite last_index_from_lastSlash.
    by destruct (lastSlash _). }
  unfold TryMangleTask, Task.Copy. rewrite Hlast.
  destruct (Settings.Mangle (settings w)) eqn:Hmangle; cbn [negb].
  2:{ exists []. split; [done|]. left. split; [done|by left]. }
  destruct (lastSlash (Url.Path (Task.URL t))) as [n|] eqn:Hn.
  2:{ exists []. split; [done|]. left. split; [done|]. right.
      by apply lastSlash_None. }
  destruct (lastSlash_Some _ _ Hn) as [Hpath Hbase].
  destruct (Z.of_nat n =? -1) eqn:E; [apply Z.eqb_eq in E; lia|].
  rewrite Nat2Z.id. replace (Z.to_nat (Z.of_nat n + 1)) with (S n) by lia.
  exists (mangled t (Strings.slice_to (Url.Path (Task.URL t)) n)
            (Strings.slice_from (Url.Path (Task.URL t)) (S n))).
  split; [rewrite Mangle_names; reflexivity|]. right. split; [done|]. split.
  - destruct (Strings.ContainsByte (Url.Path (Task.URL t)) "/") eqn:Hc; [done|].
    apply lastSlash_None in Hc. congruence.
  - by eexists _, _.
Qed.

Lemma KeepSpidering_settings w w' code :
  settings w' = settings w → KeepSpidering w' code = KeepSpidering w code.
Proof. unfold KeepSpidering. by intros ->. Qed.

(** What a call of [HandleTask] comes to. *)
Lemma HandleTask_summary t w :
  let code :=
    codeOf (Request (client w) (Task.URL t) (Task.Host t)
              (Settings.Method (settings w)) (Task.Header t)).2 in
  ∃ new,
    events (final (HandleTask t w)) = events w ++ new
    ∧ settings (final (HandleTask t w)) = settings w
    ∧ match HandleTask t w with
      | Returns _ _ =>
          doneCalls new = [1]
          ∧ last new = Some (QueueDone 1)
          ∧ length (resultsSent new) = length (requests new)
          ∧ ∃ probes,
              requests new
              = requestOf (settings w) t :: (requestOf (settings w) <$> probes)
              ∧ (probes = []
                 ∨ ∃ dirname basename,
                     Url.Path (Task.URL t) = dirname +:+ "/" +:+ basename
                     ∧ Strings.ContainsByte basename "/" = false
                     ∧ probes = mangled t dirname basename)
              ∧ (probes ≠ [] ↔
                   Util.URLIsDir (Task.URL t) = false
                   ∧ KeepSpidering w code = true
                   ∧ Settings.Mangle (settings w) = true
                   ∧ Strings.ContainsByte (Url.Path (Task.URL t)) "/" = true)
      | Panics _ _ => doneCalls new = []
      end.
Proof.
  cbv zeta. unfold HandleTask, bind.
  set (line := Log (Logf LogDebug "Trying Raw URL (unmangled): %s" [ArgTask t])).
  set (w0 := emit w [line]).
  pose proof (TryTask_tally t w0) as (new & Hev & Hset & Hd & Hq & Hr).
  pose proof (TryTask_code t w0) as Hcode.
  change (settings w0) with (settings w) in *.
  change (client w0) with (client w) in *.
  change (events w0) with (events w ++ [line]) in *.
  set (reply := (Request (client w) (Task.URL t) (Task.Host t)
                   (Settings.Method (settings w)) (Task.Header t)).2) in *.
  destruct (TryTask t w0) as [code w1|msg w1]; cbn [final] in *.
  2:{ exists ([line] ++ new). rewrite Hev, <- app_assoc.
      split; [done|]. split; [done|]. by rewrite doneCalls_app, Hd. }
  specialize (Hr ltac:(by eexists _, _)).
  specialize (Hcode code w1 eq_refl). subst code.
  rewrite (KeepSpidering_settings w w1 (codeOf reply) Hset).
  destruct (negb (Util.URLIsDir (Task.URL t)) && KeepSpidering w (codeOf reply))
    eqn:Hgo.
  - apply andb_true_iff in Hgo as [Hdir%negb_true_iff Hkeep].
    destruct (TryMangleTask_cases t w1) as (probes & -> & Hprobes).
    rewrite Hset in Hprobes.
    destruct (tryEach_summary probes w1) as (new' & Hev' & Hset' & Hd' & Hret).
    destruct (tryEach probes w1) as [[] w2|msg w2]; cbn [final emit events settings] in *.
    + exists ([line] ++ new ++ new' ++ [QueueDone 1]).
      rewrite Hev', Hev, <- !app_assoc. split; [done|]. split; [congruence|].
      destruct (Hret ltac:(by eexists)) as [Hq' Hr'].
      rewrite !doneCalls_app, !requests_app, !resultsSent_app, !length_app.
      rewrite Hd, Hd', Hq, Hr, Hq', Hr', Hset.
      cbn [length doneCalls requests resultsSent omap list_omap app line].
      rewrite app_nil_r, length_fmap.
      split; [done|]. split.
      { rewrite !app_assoc. exact (last_snoc _ (_ :: _)). }
      split; [done|]. exists probes. split; [done|].
      destruct Hprobes as [[-> Hwhy]|(Hmangle & Hslash & dirname & basename & Hp & Hb & ->)].
      * split; [by left|]. split; [done|].
        intros (_ & _ & Hm & Hs). destruct Hwhy; congruence.
      * split; [right; by exists dirname, basename|]. split; [done|].
        intros _. discriminate.
    + exists ([line] ++ new ++ new').
      rewrite Hev', Hev, <- !app_assoc. split; [done|]. split; [congruence|].
      by rewrite !doneCalls_app, Hd, Hd'.
  - exists ([line] ++ new ++ [QueueDone 1]).
    cbn [final emit events settings]. rewrite Hev, <- !app_assoc.
    split; [done|]. split; [done|].
    rewrite !doneCalls_app, !requests_app, !resultsSent_app, !length_app.
    rewrite Hd, Hq, Hr.
    cbn [length doneCalls requests resultsSent omap list_omap app line].
    split; [done|]. split.
    { exact (last_snoc _ (_ :: _)). }
    split; [done|]. exists []. split; [done|]. split; [by left|].
    split; [done|]. intros (Hdir & Hkeep & _). by rewrite Hdir, Hkeep in Hgo.
Qed.

(** X21.  [HandleTask] marks its task as done exactly once, with [done(1)],
    as the last thing it does, whenever it returns; it then has sent as many
    Results as it made requests: the request of the task, alone or followed
    by those of the four mangled copies of the task, of paths
    [dirname/.basename.swp], [dirname/basename~], [dirname/basename.bak] and
    [dirname/basename.orig], in this order.  The four are tried exactly when
    the URL of the task is no directory, the status code of its reply is one
    to spider from, [Mangle] is set and the path has a [/].  When a request
    panics [done] is not called. *)
Theorem HandleTask_done t w :
  let code :=
    codeOf (Request (client w) (Task.URL t) (Task.Host t)
              (Settings.Method (settings w)) (Task.Header t)).2 in
  ∃ new,
    events (final (HandleTask t w)) = events w ++ new
    ∧ match HandleTask t w with
      | Returns _ _ =>
          doneCalls new = [1]
          ∧ last new = Some (QueueDone 1)
          ∧ length (resultsSent new) = length (requests new)
          ∧ ∃ probes,
              requests new
              = requestOf (settings w) t :: (requestOf (settings w) <$> probes)
              ∧ (probes = []
                 ∨ ∃ dirname basename,
                     Url.Path (Task.URL t) = dirname +:+ "/" +:+ basename
                     ∧ Strings.ContainsByte basename "/" = false
                     ∧ probes
                       = (λ name,
                            Task.set_URL t
                              (Url.set_Path (Task.URL t) (dirname +:+ "/" +:+ name)))
                         <$> ["." +:+ basename +:+ ".swp"; basename +:+ "~";
                              basename +:+ ".bak"; basename +:+ ".orig"])
              ∧ (probes ≠ [] ↔
                   Util.URLIsDir (Task.URL t) = false
                   ∧ KeepSpidering w code = true
                   ∧ Settings.Mangle (settings w) = true
                   ∧ Strings.ContainsByte (Url.Path (Task.URL t)) "/" = true)
      | Panics _ _ => doneCalls new = []
      end.
Proof.
  cbv zeta. destruct (HandleTask_summary t w) as (new & Hev & _ & Hcases).
  by exists new.
Qed.

(** X22.  The loop of [Run] marks every task it has handled as done, once:
    when it is over, [done(1)] was called once for each task read, and as
    many Results were sent as requests made, between one and five for each
    task.  When a request panics, fewer calls of [done] were made than tasks
    were read. *)
Theorem runLoop_accounts (src : list Task.Task) w :
  ∃ new,
    events (final (runLoop src w)) = events w ++ new
    ∧ match runLoop src w with
      | Returns _ _ =>
          doneCalls new = replicate (length src) 1
          ∧ length (resultsSent new) = length (requests new)
          ∧ (length src ≤ length (requests new) ≤ 5 * length src)%nat
      | Panics _ _ => (length (doneCalls new) < length src)%nat
      end.
Proof.
  revert w. induction src as [|t src IH]; intros w.
  { exists []. rewrite app_nil_r. split; [done|]. cbn. split; [done|]. split; [done|lia]. }
  change (runLoop (t :: src) w)
    with (match HandleTask t w with
          | Returns _ w' => runLoop src w'
          | Panics msg w' => Panics msg w'
          end).
  destruct (HandleTask_summary t w) as (new & Hev & _ & Hcases).
  destruct (HandleTask t w) as [[] w1|msg w1]; cbn [final] in *.
  - destruct Hcases as (Hd & _ & Hr & probes & Hq & Hprobes & _).
    destruct (IH w1) as (new' & Hev' & Hrest).
    exists (new ++ new'). rewrite Hev', Hev, <- app_assoc. split; [done|].
    rewrite doneCalls_app, resultsSent_app, requests_app, !length_app, Hd, Hr.
    assert (1 ≤ length (requests new) ≤ 5)%nat as Hone.
    { rewrite Hq. cbn [length]. rewrite length_fmap.
      destruct Hprobes as [->|(dirname & basename & _ & _ & ->)]; cbn; lia. }
    destruct (runLoop src w1) as [[] w2|msg w2].
    + destruct Hrest as (-> & -> & Hbound). cbn [length replicate app].
      split; [done|]. split; [done|]. lia.
    + cbn [length app]. lia.
  - exists new. split; [done|]. rewrite Hcases. cbn. lia.
Qed.

(** X23.  [KeepSpidering] holds of a code exactly when the run mode is not
    the dot product mode and the code is one of the spider codes.  So in the
    dot product mode a worker never tries mangled names: [HandleTask] makes
    the request of its task and no other. *)
Theorem KeepSpidering_iff w (code : Z) :
  (KeepSpidering w code = true ↔
     Settings.RunMode (settings w) ≠ Settings.RunModeDotProduct
     ∧ code ∈ Settings.SpiderCodes (settings w))
  ∧ (Settings.RunMode (settings w) = Settings.RunModeDotProduct →
     ∀ t w', HandleTask t w = Returns () w' →
       ∃ new, events w' = events w ++ new
              ∧ requests new = [requestOf (settings w) t]).
Proof.
  assert (∀ c, KeepSpidering w c = true ↔
            Settings.RunMode (settings w) ≠ Settings.RunModeDotProduct
            ∧ c ∈ Settings.SpiderCodes (settings w)) as Hiff.
  { intros c. unfold KeepSpidering.
    destruct (Settings.RunMode (settings w)); cbn [Settings.RunMode_eqb].
    3:{ split; [done|]. by intros [? _]. }
    all: rewrite existsb_exists; split.
    all: try (intros (v & Hin%list_elem_of_In & ->%Z.eqb_eq); by split).
    all: intros [_ Hin]; exists c; split; [by apply list_elem_of_In|apply Z.eqb_refl]. }
  split; [apply Hiff|].
  intros Hmode t w' Hrun.
  destruct (HandleTask_summary t w) as (new & Hev & _ & Hcases).
  rewrite Hrun in Hev, Hcases. cbn [final] in Hev.
  destruct Hcases as (_ & _ & _ & probes & Hq & _ & Hsome).
  exists new. split; [done|]. rewrite Hq.
  destruct probes as [|p probes]; [done|]. exfalso.
  destruct (proj1 Hsome ltac:(done)) as (_ & Hkeep & _).
  apply Hiff in Hkeep as [Hne _]. done.
Qed.

Lemma str_length_ne (x y : string) : String.length x ≠ String.length y → x ≠ y.
Proof. congruence. Qed.

(** X24.  [Mangle] gives four names that are pairwise distinct and are not
    the basename; none is empty, and a name has a [/] only if the basename
    has one. *)
Theorem Mangle_distinct (basename : string) :
  length (Mangle basename) = 4%nat
  ∧ NoDup (Mangle basename)
  ∧ (basename ∉ Mangle basename)
  ∧ ∀ name, name ∈ Mangle basename →
      name ≠ ""
      ∧ Strings.ContainsByte name "/" = Strings.ContainsByte basename "/".
Proof.
  rewrite Mangle_names. split; [done|].
  assert (∀ x y : string, String.length x ≠ String.length y → x ≠ y) as Hlen
    by apply str_length_ne.
  assert ("." +:+ basename +:+ ".swp" ≠ basename +:+ ".orig") as Hswp.
  { intros Heq.
    assert (("." +:+ basename +:+ ".sw") +:+ "p" = (basename +:+ ".ori") +:+ "g")
      as Habs by (by rewrite !str_app_assoc).
    apply str_snoc_inj in Habs as [_ Habs]. discriminate Habs. }
  split; [|split].
  - repeat (apply NoDup_cons; split);
      rewrite ?not_elem_of_cons; repeat split;
      try apply not_elem_of_nil; try apply NoDup_nil_2; try exact Hswp;
      apply Hlen; rewrite ?str_length_app; cbn [String.length]; lia.
  - rewrite !not_elem_of_cons; repeat split; try apply not_elem_of_nil;
      apply Hlen; rewrite ?str_length_app; cbn [String.length]; lia.
  - intros name Hin. split.
    + intros ->. repeat (apply elem_of_cons in Hin as [Hin|Hin];
        [apply (f_equal String.length) in Hin;
         rewrite ?str_length_app in Hin; cbn [String.length] in Hin; lia|]).
      by apply elem_of_nil in Hin.
    + repeat (apply elem_of_cons in Hin as [->|Hin];
        [rewrite !ContainsByte_app;
         repeat match goal with
           | |- context [Strings.ContainsByte (String ?a ?s) "/"] =>
               change (Strings.ContainsByte (String a s) "/") with false
           end;
         by rewrite ?orb_false_r|]).
      by apply elem_of_nil in Hin.
Qed.

End worker_more.

(** ** The HTML worker *)

Section html_worker.
Import Logging Worker Html Url Examples.

Lemma Node_Forall_ind (P : Node → Prop) :
  (∀ type data attr children,
     Forall P children → P (mkNode type data attr children)) →
  ∀ node, P node.
Proof.
  intros Hstep. fix IH 1. intros [type data attr children]. apply Hstep.
  induction children as [|c cs IHcs]; constructor; [apply IH|exact IHcs].
Qed.



Variable mapLower : string → string.

Abbreviation lower := (Strings.ToLowerUTF8 mapLower).
Abbreviation handleNode := (Worker.handleNode mapLower).
Abbreviation getElementsByTagName := (Worker.getElementsByTagName mapLower).
Abbreviation attributeLoop := (Worker.attributeLoop mapLower).
Abbreviation getElementAttribute := (Worker.getElementAttribute mapLower).
Abbreviation collectLoop := (Worker.collectLoop mapLower).
Abbreviation collectElementAttributes := (Worker.collectElementAttributes mapLower).


Lemma NodeType_eqb_eq a b : NodeType_eqb a b = true ↔ a = b.
Proof. by destruct a, b. Qed.

Lemma isElement_iff name n :
  isElement mapLower name n = true
  ↔ Type_ n = ElementNode ∧ lower (Data n) = name.
Proof.
  unfold isElement. by rewrite andb_true_iff, NodeType_eqb_eq, String.eqb_eq.
Qed.

Lemma handleNode_spec name node results :
  handleNode name node results
  = results ++ filter (λ n, isElement mapLower name n = true) (preorder node).
Proof.
  revert results.
  induction node as [type data attr children IH] using Node_Forall_ind.
  intros results. cbn [Worker.handleNode preorder]. rewrite filter_cons.
  change (isElement mapLower name (mkNode type data attr children))
    with (NodeType_eqb type ElementNode && String.eqb (lower data) name).
  set (node := mkNode type data attr children). clearbody node.
  set (b := NodeType_eqb type ElementNode && String.eqb (lower data) name).
  clearbody b.
  assert (∀ r, foldl (λ results n, handleNode name n results) r children
               = r ++ filter (λ n, isElement mapLower name n = true)
                        (concat (preorder <$> children))) as Hsib.
  { induction IH as [|c cs Hc _ IHcs]; intros r; cbn [foldl fmap list_fmap concat].
    - by rewrite app_nil_r.
    - by rewrite IHcs, Hc, filter_app, app_assoc. }
  rewrite Hsib.
  destruct b; [rewrite decide_True by done|rewrite decide_False by done];
    by rewrite <- ?app_assoc.
Qed.


Lemma attributeLoop_spec attr attrName :
  attributeLoop attr attrName
  = (Val ∘ snd) <$> list_find (λ a, lower (Key a) = attrName) attr.
Proof.
  induction attr as [|a attr IH]; [done|].
  cbn [Worker.attributeLoop list_find].
  destruct (String.eqb_spec (lower (Key a)) attrName) as [Heq|Hne].
  - by rewrite decide_True.
  - rewrite decide_False by done. rewrite IH.
    by destruct (list_find _ attr) as [[i a']|].
Qed.

Lemma collectLoop_spec els attrName results :
  collectLoop els attrName results
  = results ++ omap (λ el, getElementAttribute el attrName) els.
Proof.
  revert results. induction els as [|el els IH]; intros results.
  - by rewrite app_nil_r.
  - cbn [Worker.collectLoop omap list_omap].
    destruct (getElementAttribute el attrName) as [val|]; rewrite IH; [|done].
    by rewrite <- app_assoc.
Qed.

Lemma collectElementAttributes_elem root tagName attrName l :
  l ∈ collectElementAttributes root tagName attrName
  ↔ ∃ n, n ∈ preorder root ∧ Type_ n = ElementNode
         ∧ lower (Data n) = tagName
         ∧ getElementAttribute n attrName = Some l.
Proof.
  unfold Worker.collectElementAttributes, Worker.getElementsByTagName.
  rewrite collectLoop_spec, handleNode_spec. cbn [app].
  rewrite list_elem_of_omap. split.
  - intros (n & [(? & ?)%isElement_iff ?]%list_elem_of_filter & ?). by exists n.
  - intros (n & ? & ? & ? & ?). exists n. split; [|done].
    apply list_elem_of_filter. by rewrite isElement_iff.
Qed.

Lemma LimitReader_short body (n : Z) :
  Z.of_nat (String.length body) ≤ n → LimitReader body n = body.
Proof.
  revert n. induction body as [|c body IH]; intros n Hn; [done|].
  cbn [LimitReader String.length] in *.
  destruct (Z.leb_spec n 0); [lia|]. rewrite IH; [done|lia].
Qed.

Lemma LimitReader_prefix body (n : Z) :
  ∃ rest, body = LimitReader body n +:+ rest
          ∧ Z.of_nat (String.length (LimitReader body n)) ≤ Z.max n 0.
Proof.
  revert n. induction body as [|c body IH]; intros n.
  - exists "". split; [done|]. cbn. lia.
  - cbn [LimitReader]. destruct (Z.leb_spec n 0).
    + exists (String c body). split; [done|]. cbn. lia.
    + destruct (IH (n - 1)) as (rest & Hrest & Hlen). exists rest.
      rewrite str_app_cons, <- Hrest. split; [done|].
      cbn [String.length]. lia.
Qed.

Section with_parsers.
Variable html_Parse : string → Node + string.
Variable url_Parse : string → URL + string.
Variable ResolveReference : URL → URL → URL.
Variable AddLink : Results.Result → URL → Results.LinkClass → Results.Result.

Abbreviation GetLinks := (Worker.GetLinks mapLower html_Parse).
Abbreviation linkLoop := (Worker.linkLoop url_Parse ResolveReference AddLink).
Abbreviation HTMLWorker_Handle :=
  (Worker.HTMLWorker_Handle mapLower html_Parse url_Parse ResolveReference AddLink).

(** X26.  [GetLinks] gives no link twice.  When the body parses, its links
    are exactly the values of the first [href] attribute of the [a]
    elements and of the first [src] attribute of the [img], [script] and
    [style] elements of the tree, tags and attribute names taken in lower
    case; when it does not, there is no link and one log line. *)
Theorem GetLinks_spec (body : string) :
  NoDup (GetLinks body).1
  ∧ match html_Parse body with
    | inr err =>
        GetLinks body
        = ([], [PageLog (Logf LogInfo "Unable to parse HTML document: %s"
                           [ArgString err])])
    | inl tree =>
        (GetLinks body).2 = []
        ∧ ∀ l, l ∈ (GetLinks body).1 ↔
            ∃ n tag attrName,
              (tag, attrName) ∈ [("a", "href"); ("img", "src");
                                 ("script", "src"); ("style", "src")]
              ∧ n ∈ preorder tree ∧ Type_ n = ElementNode
              ∧ lower (Data n) = tag
              ∧ (Val ∘ snd) <$> list_find (λ a, lower (Key a) = attrName)
                                  (Attr n)
                = Some l
    end.
Proof.
  unfold Worker.GetLinks. destruct (html_Parse body) as [tree|err]; cbn [fst snd].
  2:{ split; [constructor|done]. }
  split; [apply DedupeStrings_NoDup|]. split; [done|].
  intros l. rewrite DedupeStrings_elem, !elem_of_app.
  rewrite !collectElementAttributes_elem. unfold Worker.getElementAttribute.
  setoid_rewrite attributeLoop_spec. split.
  - intros [[[(n & ?)|(n & ?)]|(n & ?)]|(n & ?)].
    + exists n, "a", "href". split; [left|done].
    + exists n, "img", "src". split; [right; left|done].
    + exists n, "script", "src". split; [do 2 right; left|done].
    + exists n, "style", "src". split; [do 3 right; left|done].
  - intros (n & tag & attrName & Hin & Hn).
    repeat (apply elem_of_cons in Hin as [[= -> ->]|Hin];
            [eauto 6|]).
    by apply elem_of_nil in Hin.
Qed.

Lemma linkLoop_spec t links result foundURLs :
  let resolved :=
    omap (λ l, if url_Parse l is inl u
               then Some (ResolveReference (Task.URL t) u) else None) links in
  linkLoop t links result foundURLs
  = (foldl (λ r u, AddLink r u Results.LinkUnknown) result resolved,
     foundURLs ++ concat ((λ r, r :: Util.GetParentPaths r) <$> resolved),
     omap (λ l, if url_Parse l is inr err
                then Some (PageLog (Logf LogInfo "Error parsing URL (%s): %s"
                                      [ArgString l; ArgString err]))
                else None) links).
Proof.
  cbv zeta. revert result foundURLs.
  induction links as [|l links IH]; intros result foundURLs.
  { cbn. by rewrite app_nil_r. }
  cbn [Worker.linkLoop omap list_omap].
  destruct (url_Parse l) as [u|err].
  - rewrite IH. cbn [foldl fmap list_fmap concat].
    by rewrite <- !app_assoc.
  - by rewrite IH.
Qed.

Lemma pageAdded_app (evs1 evs2 : list PageEvent) :
  pageAdded (evs1 ++ evs2) = pageAdded evs1 ++ pageAdded evs2.
Proof. apply omap_app. Qed.

Lemma pageAdded_parse_errors (links : list string) :
  pageAdded
    (omap (λ l, if url_Parse l is inr err
                then Some (PageLog (Logf LogInfo "Error parsing URL (%s): %s"
                                      [ArgString l; ArgString err]))
                else None) links) = [].
Proof.
  induction links as [|l links IH]; [done|]. cbn [omap list_omap].
  destruct (url_Parse l); [exact IH|]. exact IH.
Qed.

Lemma pageAdded_GetLinks body : pageAdded (GetLinks body).2 = [].
Proof. unfold Worker.GetLinks. by destruct (html_Parse body). Qed.

(** X27.  [Handle] calls [adder] once, last, also when no link was found.
    The tasks it adds are copies of its task, with its host and header, one
    for each link that parses, resolved against the URL of the task, each
    followed by one for each of its parent paths, in the order of the links;
    a parent keeps the scheme and host of its link.  Each link that parses
    is added to the Result, in order; one that does not is logged and left
    out.  The links are those of the first [maxHTMLWorkerSize] bytes of the
    body, the whole body when it is not longer. *)
Theorem HTMLWorker_Handle_adds (t : Task.Task) (body : string)
    (result : Results.Result) :
  let links := (GetLinks (LimitReader body maxHTMLWorkerSize)).1 in
  let resolved :=
    omap (λ l, if url_Parse l is inl u
               then Some (ResolveReference (Task.URL t) u) else None) links in
  let out := HTMLWorker_Handle t body result in
  ∃ tasks,
    pageAdded out.2 = [tasks]
    ∧ last out.2 = Some (PageAdd tasks)
    ∧ Task.URL <$> tasks = concat ((λ r, r :: Util.GetParentPaths r) <$> resolved)
    ∧ Forall (λ t', Task.Host t' = Task.Host t ∧ Task.Header t' = Task.Header t)
        tasks
    ∧ (∀ t', t' ∈ tasks →
         ∃ r, r ∈ resolved ∧ Scheme (Task.URL t') = Scheme r
              ∧ Url.Host (Task.URL t') = Url.Host r)
    ∧ out.1 = foldl (λ r u, AddLink r u Results.LinkUnknown) result resolved
    ∧ (Z.of_nat (String.length body) ≤ maxHTMLWorkerSize →
       links = (GetLinks body).1).
Proof.
  cbv zeta. unfold Worker.HTMLWorker_Handle.
  set (limitedBody := LimitReader body maxHTMLWorkerSize).
  pose proof (pageAdded_GetLinks limitedBody) as Hline.
  destruct (GetLinks limitedBody) as [links evs] eqn:HG. cbn [fst snd] in *.
  rewrite linkLoop_spec. cbv zeta. cbn [fst snd].
  pose proof (pageAdded_parse_errors links) as Herrs.
  set (errs := omap _ links) in *.
  set (resolved := omap (λ l, if url_Parse l is inl u
                              then Some (ResolveReference (Task.URL t) u) else None)
                     links).
  rewrite app_nil_l.
  set (found := concat ((λ r, r :: Util.GetParentPaths r) <$> resolved)).
  exists ((λ u, Task.set_URL (Task.Copy t) u) <$> found).
  split; [|split; [|split; [|split; [|split; [|split]]]]].
  - rewrite !pageAdded_app, Hline, Herrs. done.
  - rewrite !app_assoc. apply last_snoc.
  - rewrite <- list_fmap_compose. by rewrite list_fmap_id.
  - apply Forall_fmap, Forall_forall. done.
  - intros t' (u & -> & Hu)%list_elem_of_fmap. cbn [Task.set_URL Task.URL].
    unfold found in Hu. apply elem_of_concat in Hu as (l & Hu & Hl).
    apply list_elem_of_fmap in Hl as (r & -> & Hr). exists r. split; [done|].
    apply elem_of_cons in Hu as [->|Hu]; [done|].
    rewrite GetParentPaths_closed in Hu. cbv zeta in Hu.
    by apply list_elem_of_fmap in Hu as (i & -> & _).
  - done.
  - intros Hshort. unfold limitedBody in HG.
    rewrite LimitReader_short in HG by done. by rewrite HG.
Qed.

End with_parsers.
End html_worker.

(** ** The flags of the settings *)

Section flags.
Import Settings.

(** X28.  [StringSliceFlag.Set] never fails and appends the fields of the
    value between its commas, at least one: an empty value appends one
    empty string.  [String] undoes [Set]: on a flag that was empty it gives
    the value back, and on one that was not, the former string, a comma and
    the value.  [String] of a nil flag is empty. *)
Theorem StringSliceFlag_round_trip (f : StringSliceFlag) (value : string) :
  let f' := (StringSliceFlag_Set f value).1 in
  (StringSliceFlag_Set f value).2 = None
  ∧ (length f < length f')%nat
  ∧ StringSliceFlag_Set f "" = (f ++ [""], None)
  ∧ StringSliceFlag_String (Some (StringSliceFlag_Set [] value).1) = value
  ∧ (f ≠ [] →
     StringSliceFlag_String (Some f')
     = StringSliceFlag_String (Some f) +:+ "," +:+ value)
  ∧ StringSliceFlag_String None = "".
Proof.
  cbv zeta. unfold StringSliceFlag_Set, StringSliceFlag_String. cbn [fst snd].
  pose proof (Split_nonempty value ","%char) as Hne.
  split; [done|]. split.
  { rewrite length_app. destruct (Strings.Split value ","); [done|]. cbn. lia. }
  split; [done|]. split; [apply (Join_Split value ","%char)|].
  split; [|done]. intros Hf.
  rewrite Join_app_ne by done. by rewrite (Join_Split value ","%char).
Qed.

End flags.

(** ** [util.StringSliceContains] *)

Section contains.
Import Util.

Lemma StringSliceContains_elem haystack needle :
  StringSliceContains haystack needle = true ↔ needle ∈ haystack.
Proof.
  induction haystack as [|v haystack IH]; cbn [StringSliceContains].
  - split; [done|]. by intros ?%elem_of_nil.
  - rewrite elem_of_cons. destruct (String.eqb_spec v needle) as [->|Hne].
    + split; [by left|done].
    + rewrite IH. split; [by right|]. by intros [?|?]; [congruence|].
Qed.

(** X29.  [StringSliceContains] holds exactly when the needle is an element
    of the haystack, so that the order and the duplicates of the haystack do
    not matter: [DedupeStrings] does not change the answer. *)
Theorem StringSliceContains_iff (haystack : list string) (needle : string) :
  (StringSliceContains haystack needle = true ↔ needle ∈ haystack)
  ∧ StringSliceContains (DedupeStrings haystack) needle
    = StringSliceContains haystack needle.
Proof.
  split; [apply StringSliceContains_elem|].
  pose proof (StringSliceContains_elem (DedupeStrings haystack) needle) as Hd.
  pose proof (StringSliceContains_elem haystack needle) as Hh.
  rewrite DedupeStrings_elem in Hd.
  destruct (StringSliceContains (DedupeStrings haystack) needle),
    (StringSliceContains haystack needle); intuition congruence.
Qed.

End contains.
